(** * ROSIntegrationVision: the vision component's numeric kernels, palette,
      object table, frame gate and tick protocol

    A shallow embedding of [Source/ROSIntegrationVision/Private/VisionComponent.cpp]
    (class [UVisionComponent]) and the properties its specification states.

    Layout of the development:
    - Part I embeds the code: machine integers, the arithmetic the code
      computes with (an interface with IEEE binary32 and binary64 instances
      and an exact real instance), [ProcessChannel], [convertDepth],
      [GenerateColors], [ColorAllObjects], the frame gate of [TickComponent],
      the camera intrinsics, and the threads of the capture protocol.  Next
      to each component stand the notions of the specification and the
      concrete inputs its properties are stated with.
    - Part II states and proves the properties, component by component. *)

From Stdlib Require Import ZArith List Lia Bool Reals Lra QArith Qabs.
From Stdlib Require Import Floats.SpecFloat.
From stdpp Require Import base option list gmap strings.
Import ListNotations.

Local Open Scope Z_scope.

(* ===================================================================== *)
(** * Part I. The embedding *)
(* ===================================================================== *)

(** ** Machine integers

    [uint32_t] and [int32_t] values are integers of [Z]; every operation of
    the source that can leave the range has its wrap-around written out. *)

Definition wrap32 (z : Z) : Z := z mod 2 ^ 32.

(** Conversion of a [uint32_t] bit pattern to [int32_t] (two's complement). *)
Definition to_int32 (z : Z) : Z :=
  let w := wrap32 z in if w <? 2 ^ 31 then w else w - 2 ^ 32.

Definition is_uint32 (z : Z) : Prop := 0 <= z < 2 ^ 32.

(** ** Floating-point arithmetic

    The code computes with [float] and [double].  [Arith] is the interface of
    the operations it uses; [B32] and [B64] instantiate it with the IEEE-754
    binary formats (round to nearest, ties to even) of [SpecFloat], which is
    what the compiled code evaluates, and [Exact] with the real numbers, which
    is what the formulas of the specification denote. *)

Record Arith : Type := MkArith {
  num : Type;
  fadd : num -> num -> num;
  fsub : num -> num -> num;
  fmul : num -> num -> num;
  fdiv : num -> num -> num;
  flt : num -> num -> bool;          (* the comparison [x < y] *)
  of_int : Z -> num;                 (* conversion of an integer operand *)
  fround : num -> Z                  (* [std::round], then the integer cast *)
}.

Arguments fadd {_} _ _.
Arguments fsub {_} _ _.
Arguments fmul {_} _ _.
Arguments fdiv {_} _ _.
Arguments flt {_} _ _.
Arguments of_int {_} _.
Arguments fround {_} _.

(** *** IEEE-754 binary formats *)

Module IEEE.

(** [std::round] on a finite value [m * 2^e]: the nearest integer, halfway
    cases away from zero. *)
Definition round_half_away (m : positive) (e : Z) : Z :=
  match e with
  | Zneg p => let d := 2 ^ Zpos p in (Zpos m + d / 2) / d
  | _ => Zpos m * 2 ^ e
  end.

(** The integer a floating value is cast to after [std::round].  The cast of a
    NaN or an infinity is undefined in C++; the model returns 0 there. *)
Definition round_to_Z (x : spec_float) : Z :=
  match x with
  | S754_finite s m e =>
      if s then - round_half_away m e else round_half_away m e
  | _ => 0
  end.

Definition make (prec emax : Z) : Arith :=
  {| num := spec_float;
     fadd := SFadd prec emax;
     fsub := SFsub prec emax;
     fmul := SFmul prec emax;
     fdiv := SFdiv prec emax;
     flt := SFltb;
     of_int := fun z => binary_normalize prec emax z 0 false;
     fround := round_to_Z |}.

(** The exact rational value of a finite float (0 for the others). *)
Definition to_Q (x : spec_float) : Q :=
  match x with
  | S754_finite s m e =>
      let v := match e with
               | Zneg p => Qmake (Zpos m) (2 ^ p)
               | _ => inject_Z (Zpos m * 2 ^ e)
               end in
      if s then Qopp v else v
  | _ => 0%Q
  end.

End IEEE.

(** [float]: binary32. *)
Definition B32 : Arith := IEEE.make 24 128.
(** [double]: binary64. *)
Definition B64 : Arith := IEEE.make 53 1024.

(** *** Exact arithmetic *)

Module ExactOps.

Definition Rltb (x y : R) : bool := if Rlt_dec x y then true else false.

(** [std::round] on a real: halfway cases away from zero. *)
Definition round_half_away (x : R) : Z :=
  if Rle_dec 0 x then up (x + / 2) - 1 else - (up (- x + / 2) - 1).

End ExactOps.

Definition Exact : Arith :=
  {| num := R;
     fadd := Rplus;
     fsub := Rminus;
     fmul := Rmult;
     fdiv := Rdiv;
     flt := ExactOps.Rltb;
     of_int := IZR;
     fround := ExactOps.round_half_away |}.

(** ** ChannelProcessor: [UVisionComponent::ProcessChannel]

    The three overloads, for an 8-bit channel, a [float] channel and an
    [FFloat16] channel.  [Pow] is the engine's [FGenericPlatformMath::Pow];
    [half_to_float] is the engine's conversion [FFloat16::operator float],
    applied where the source divides an [FFloat16] by [255.f]. *)

Section ChannelProcessor.

Variable A : Arith.
Variable Pow : num A -> num A -> num A.
Variable half_to_float : Z -> num A.
Variables GammaCorrection Contrast Brightness : num A.

(** [(uint8_t) v]. *)
Definition cast_uint8 (v : Z) : Z := v mod 256.

(** The part the three overloads share, from [out += ...] on. *)
Definition tone_and_pack (g : num A) : Z :=
  let out := g in
  (* out += Contrast * (out - 128) + 128 + Brightness; *)
  let out :=
    fadd out
      (fadd (fadd (fmul Contrast (fsub out (of_int 128))) (of_int 128))
            Brightness) in
  (* if (out > 255.f) out = 255.f; else if (out < 0.f) out = 0.f; *)
  let out :=
    if flt (of_int 255) out then of_int 255
    else if flt out (of_int 0) then of_int 0
    else out in
  cast_uint8 (fround out).

(** [uint8_t ProcessChannel(const uint8 &channel) const] *)
Definition ProcessChannel_uint8 (channel : Z) : Z :=
  tone_and_pack
    (fmul (Pow (fdiv (of_int channel) (of_int 255))
               (fdiv (of_int 1) GammaCorrection))
          (of_int 255)).

(** [uint8_t ProcessChannel(const float &channel) const] *)
Definition ProcessChannel_float (channel : num A) : Z :=
  tone_and_pack
    (fmul (fmul (Pow (fdiv channel (of_int 255))
                     (fdiv (of_int 1) GammaCorrection))
                (of_int 255))
          (of_int 255)).

(** [uint8_t ProcessChannel(const FFloat16 &channel) const] *)
Definition ProcessChannel_FFloat16 (channel : Z) : Z :=
  tone_and_pack
    (fmul (fmul (Pow (fdiv (half_to_float channel) (of_int 255))
                     (fdiv (of_int 1) GammaCorrection))
                (of_int 255))
          (of_int 255)).

(** [ColorToBytes]: each pixel gives three bytes, in the order B, G, R. *)
Definition ColorToBytes (ImageData : list (Z * Z * Z)) : list Z :=
  flat_map (fun '(r, g, b) =>
              [ProcessChannel_uint8 b; ProcessChannel_uint8 g;
               ProcessChannel_uint8 r]) ImageData.

End ChannelProcessor.

(** *** The formula of the specification, and binary32 inputs *)

Module ChannelSpec.

(** [clamp(x, lo, hi)]. *)
Definition spec_clamp (x lo hi : R) : R := Rmax lo (Rmin x hi).

(** The value the specification rounds: [g = pow(c/255, 1/gamma) * 255],
    [out = g + contrast*(g-128) + 128 + brightness], [clamp(out, 0, 255)]. *)
Definition spec_tone (pow : R -> R -> R) (gamma contrast brightness : R) (c : Z) : R :=
  let g := (pow (IZR c / 255) (1 / gamma) * 255)%R in
  let out := (g + contrast * (g - 128) + 128 + brightness)%R in
  spec_clamp out 0 255.

(** [z] is an integer nearest to [x]. *)
Definition nearest_integer (x : R) (z : Z) : Prop := (Rabs (IZR z - x) <= / 2)%R.

(** A binary32 constant. *)
Definition f32 (z : Z) : spec_float := of_int (a:=B32) z.

(** Two facts about the power function that the binary32 evaluations rely
    on: [pow(x, 1) = x], and [pow(x, 2)] is the rounded square. *)
Definition pow_unit (Pow : spec_float -> spec_float -> spec_float) : Prop :=
  forall x, Pow x (f32 1) = x.

Definition pow_square (Pow : spec_float -> spec_float -> spec_float) : Prop :=
  forall x, Pow x (f32 2) = fmul (a:=B32) x x.

(** A power function defined on the two exponents above only (NaN
    elsewhere): it shows that the two facts can hold together. *)
Definition pow_cases (x y : spec_float) : spec_float :=
  if SFeqb y (f32 1) then x
  else if SFeqb y (f32 2) then fmul (a:=B32) x x
  else S754_nan.

(** Equality of floats as a boolean. *)
Definition float_eqb (x y : spec_float) : bool :=
  match x, y with
  | S754_zero s, S754_zero s' => Bool.eqb s s'
  | S754_infinity s, S754_infinity s' => Bool.eqb s s'
  | S754_nan, S754_nan => true
  | S754_finite s m e, S754_finite s' m' e' =>
      Bool.eqb s s' && Pos.eqb m m' && Z.eqb e e'
  | _, _ => false
  end.

(** The normalized [float] that shows the same intensity as the byte [c]. *)
Definition normalized (c : Z) : spec_float := fdiv (a:=B32) (f32 c) (f32 255).

(** gamma = 0.5, so that [1 / gamma] is 2. *)
Definition gamma_half : spec_float := fdiv (a:=B32) (f32 1) (f32 2).

(** Two power functions that differ at most where the exponent is infinite. *)
Definition agree_on_finite_exponents
    (Pow Pow' : spec_float -> spec_float -> spec_float) : Prop :=
  forall x y, (forall s, y <> S754_infinity s) -> Pow x y = Pow' x y.

(** A transform that rejected a zero gamma, or replaced it by a default,
    would never raise to the exponent [1 / 0]: its result at gamma = 0 would
    not depend on what the power function returns for an infinite exponent. *)
Definition guards_zero_gamma : Prop :=
  forall Pow Pow' contrast brightness c,
    agree_on_finite_exponents Pow Pow' ->
    ProcessChannel_uint8 B32 Pow (f32 0) contrast brightness c =
      ProcessChannel_uint8 B32 Pow' (f32 0) contrast brightness c.

(** What C fixes for the exponent [+infinity]: [pow(x, +inf)] is [+0] for
    [|x| < 1] and [pow(1, +inf)] is 1. *)
Definition pow_at_infinity (Pow : spec_float -> spec_float -> spec_float) : Prop :=
  (forall x, SFltb (SFabs x) (f32 1) = true ->
             Pow x (S754_infinity false) = S754_zero false) /\
  Pow (f32 1) (S754_infinity false) = f32 1.

(** The identity in the first argument, but [+0] at an infinite exponent. *)
Definition pow_probe (x y : spec_float) : spec_float :=
  match y with S754_infinity _ => S754_zero false | _ => x end.

End ChannelSpec.

(** *** The 8-bit overload in binary32, statement by statement *)

Module ChannelBinary32.
Import ChannelSpec.

(** A value of a [float] variable: a zero, an infinity or a NaN, or a finite
    number whose significand has at most 24 bits. *)
Definition is_binary32 (x : spec_float) : bool :=
  match x with
  | S754_finite _ m _ => Zpos m <? 2 ^ 24
  | _ => true
  end.

(** [float out = (FGenericPlatformMath::Pow(channel / 255.f, 1 / GammaCorrection) * 255.f);] *)
Definition gamma32 (Pow : spec_float -> spec_float -> spec_float)
    (GammaCorrection : spec_float) (channel : Z) : spec_float :=
  fmul (a:=B32) (Pow (fdiv (a:=B32) (f32 channel) (f32 255))
                     (fdiv (a:=B32) (f32 1) GammaCorrection))
       (f32 255).

(** [out += Contrast * (out - 128) + 128 + Brightness;] *)
Definition toned32 (Contrast Brightness out : spec_float) : spec_float :=
  fadd (a:=B32) out
    (fadd (a:=B32)
       (fadd (a:=B32) (fmul (a:=B32) Contrast (fsub (a:=B32) out (f32 128))) (f32 128))
       Brightness).

(** [if (out > 255.f) out = 255.f; else if (out < 0.f) out = 0.f;] *)
Definition clamped32 (out : spec_float) : spec_float :=
  if flt (a:=B32) (f32 255) out then f32 255
  else if flt (a:=B32) out (f32 0) then f32 0
  else out.

(** The real number a [float] stands for. *)
Definition to_R (x : spec_float) : R := Q2R (IEEE.to_Q x).

(** [0.1f]. *)
Definition tenth : spec_float := fdiv (a:=B32) (f32 1) (f32 10).

(** The formula of the specification read in real numbers, at gamma = 1: the
    byte is an integer nearest to the value of the formula on the values of
    the parameters. *)
Definition follows_exact_formula : Prop :=
  forall Pow, pow_unit Pow ->
  forall (contrast brightness : spec_float) (c : Z),
    is_binary32 contrast = true -> is_binary32 brightness = true ->
    0 <= c <= 255 ->
    nearest_integer (spec_tone Rpower 1 (to_R contrast) (to_R brightness) c)
                    (ProcessChannel_uint8 B32 Pow (f32 1) contrast brightness c).

End ChannelBinary32.

(** ** DepthUnitConverter: [UVisionComponent::convertDepth] *)

Module DepthUnitConverter.

(** One lane of [_mm_cvtph_ps]: the binary32 value of a binary16 code
    (1 sign bit, 5 exponent bits, 10 fraction bits); the conversion is exact. *)
Definition cvtph (h : Z) : spec_float :=
  let s := Z.testbit h 15 in
  let e := Z.land (Z.shiftr h 10) 31 in
  let f := Z.land h 1023 in
  if e =? 31 then (if f =? 0 then S754_infinity s else S754_nan)
  else if e =? 0 then
    match f with
    | Zpos p => binary_round 24 128 s p (-24)
    | _ => S754_zero s
    end
  else
    match 1024 + f with
    | Zpos p => binary_round 24 128 s p (e - 25)
    | _ => S754_zero s
    end.

(** A [__m128]: four binary32 lanes, lane 0 at the lowest address. *)
Definition m128 : Type := (spec_float * spec_float * spec_float * spec_float)%type.

(** [_mm_cvtph_ps(_mm_set_epi16(0, 0, 0, 0, in3, in2, in1, in0))] *)
Definition mm_cvtph_ps (in0 in1 in2 in3 : Z) : m128 :=
  (cvtph in0, cvtph in1, cvtph in2, cvtph in3).

(** [v / 100] on a vector: the scalar is converted to [float] and every lane
    is divided by it. *)
Definition m128_div (v : m128) (d : Z) : m128 :=
  let '(a, b, c, e) := v in
  let q := fun x : spec_float => fdiv (a:=B32) x (of_int d) in
  (q a, q b, q c, q e).

Definition lanes (v : m128) : list spec_float :=
  let '(a, b, c, d) := v in [a; b; c; d].

(** The loop of [convertDepth]: [size] iterations, each reading four codes
    at [in] and storing one vector at [out].  [None] is a read past the end
    of the input array. *)
Fixpoint convertDepth_loop (size : nat) (inp : list Z) : option (list m128) :=
  match size with
  | O => Some []
  | S size' =>
      match inp with
      | in0 :: in1 :: in2 :: in3 :: inp' =>
          match convertDepth_loop size' inp' with
          | Some out => Some (m128_div (mm_cvtph_ps in0 in1 in2 in3) 100 :: out)
          | None => None
          end
      | _ => None
      end
  end.

(** [void convertDepth(const uint16_t *in, __m128 *out) const]:
    the output buffer read back as [float]s. *)
Definition convertDepth (Width Height : Z) (inp : list Z) : option (list spec_float) :=
  let size := wrap32 (Width * Height) / 4 in
  match convertDepth_loop (Z.to_nat size) inp with
  | Some out => Some (concat (map lanes out))
  | None => None
  end.

(** What the specification asks of each sample: [decode_half_float(sample) / 100.0]. *)
Definition spec_meters (sample : Z) : spec_float :=
  fdiv (a:=B32) (cvtph sample) (of_int 100).

(** The binary16 code of 1.0. *)
Definition half_one : Z := 0x3C00.

End DepthUnitConverter.

(** ** ColorPaletteGenerator: [UVisionComponent::GenerateColors] *)

Definition umul32 (a b : Z) : Z := wrap32 (a * b).
Definition usub32 (a b : Z) : Z := wrap32 (a - b).

Definition MaxHue : Z := 50.
Definition ShiftHue : Z := 21.

(** The [while (left > 0)] loop that grows [ValCount] and [SatCount];
    [None] when [fuel] iterations did not end it. *)
Fixpoint grow_counts (fuel : nat) (NumberOfColors HueCount SatCount ValCount left : Z)
  : option (Z * Z) :=
  if 0 <? left then
    match fuel with
    | O => None
    | S fuel' =>
        (* if (left > 0) { ++ValCount; left = NumberOfColors - SatCount * ValCount * HueCount; } *)
        let ValCount := wrap32 (ValCount + 1) in
        let left := to_int32 (usub32 NumberOfColors (umul32 (umul32 SatCount ValCount) HueCount)) in
        if 0 <? left then
          (* if (left > 0) { ++SatCount; left = ...; } *)
          let SatCount := wrap32 (SatCount + 1) in
          let left := to_int32 (usub32 NumberOfColors (umul32 (umul32 SatCount ValCount) HueCount)) in
          grow_counts fuel' NumberOfColors HueCount SatCount ValCount left
        else
          grow_counts fuel' NumberOfColors HueCount SatCount ValCount left
    end
  else Some (SatCount, ValCount).

(** The loop ends within [sqrt NumberOfColors] iterations (each one raises
    both counts while [50 * SatCount * ValCount] stays below the request),
    so this fuel never runs out. *)
Definition grow_fuel (NumberOfColors : Z) : nat := S (Z.to_nat (Z.sqrt NumberOfColors)).

(** [(SatCount, ValCount)] after the loop, with [HueCount = MaxHue]. *)
Definition palette_counts (NumberOfColors : Z) : option (Z * Z) :=
  let HueCount := MaxHue in
  (* int32_t left = std::max<int32_t>(0, NumberOfColors - HueCount); *)
  let left := Z.max 0 (to_int32 (usub32 NumberOfColors HueCount)) in
  grow_counts (grow_fuel NumberOfColors) NumberOfColors HueCount 1 1 left.

Section Palette.

Variable A : Arith.
Variable Color : Type.
(** The engine's [FLinearColor::HSVToLinearRGB().ToFColor(false)] on the
    triple (hue, saturation, value). *)
Variable HSVToFColor : num A -> num A -> num A -> Color.

(** [std::max(a, b)] on floats: [(a < b) ? b : a]. *)
Definition fmax (a b : num A) : num A := if flt a b then b else a.

(** The values [0, 1, ..., n-1] a [for (uint32_t i = 0; i < n; ++i)] loop visits. *)
Definition counter (n : Z) : list Z := map Z.of_nat (seq 0 (Z.to_nat n)).

(** The three nested loops: saturation outermost, hue innermost. *)
Definition palette_of_counts (HueCount SatCount ValCount : Z) : list Color :=
  let MinSat := fdiv (of_int 65) (of_int 100) in
  let MinVal := fdiv (of_int 65) (of_int 100) in
  let StepHue := fdiv (of_int 360) (of_int HueCount) in
  let StepSat := fdiv (fsub (of_int 1) MinSat)
                      (fmax (of_int 1) (fsub (of_int SatCount) (of_int 1))) in
  let StepVal := fdiv (fsub (of_int 1) MinVal)
                      (fmax (of_int 1) (fsub (of_int ValCount) (of_int 1))) in
  flat_map (fun s =>
    flat_map (fun v =>
      map (fun h =>
             HSVToFColor
               (fmul (of_int (umul32 h ShiftHue mod MaxHue)) StepHue)
               (fsub (of_int 1) (fmul (of_int s) StepSat))
               (fsub (of_int 1) (fmul (of_int v) StepVal)))
          (counter HueCount))
      (counter ValCount))
    (counter SatCount).

(** [void GenerateColors(const uint32_t NumberOfColors)]: the colors it
    appends to [ObjectColors]. *)
Definition GenerateColors (NumberOfColors : Z) (ObjectColors : list Color)
  : option (list Color) :=
  match palette_counts NumberOfColors with
  | Some (SatCount, ValCount) =>
      Some (ObjectColors ++ palette_of_counts MaxHue SatCount ValCount)
  | None => None
  end.

End Palette.

(** ** Object-id assignment: [UVisionComponent::ColorObject] and
       [UVisionComponent::ColorAllObjects]

    [Name] is the key type of [TMap<FString, uint32> ObjectToColor], with the
    map's own key equality. *)

Section ObjectTable.

Variable A : Arith.
Variable Color : Type.
Variable HSVToFColor : num A -> num A -> num A -> Color.
Context `{Countable Name}.

(** The members [ObjectColors], [ObjectToColor] and [ColorsUsed]. *)
Record ColorTable : Type := MkColorTable {
  ObjectColors : list Color;
  ObjectToColor : gmap Name Z;
  ColorsUsed : Z
}.

(** The state the constructor leaves. *)
Definition initial_table : ColorTable :=
  {| ObjectColors := []; ObjectToColor := ∅; ColorsUsed := 0 |}.

(** [ColorObject]: the color [ObjectColors[ObjectToColor[name]]] every vertex
    of the actor's meshes is painted with; [None] when an index is out of
    range (both accesses are checked by the containers). *)
Definition ColorObject (t : ColorTable) (name : Name) : option Color :=
  match ObjectToColor t !! name with
  | Some id => ObjectColors t !! Z.to_nat id
  | None => None
  end.

(** One iteration of the second loop of [ColorAllObjects], for the actor
    called [ActorName].  [None] is the fatal [check]. *)
Definition color_actor (t : ColorTable) (ActorName : Name) : option ColorTable :=
  match ObjectToColor t !! ActorName with
  | Some _ => Some t
  | None =>
      (* check(ColorsUsed < (uint32)ObjectColors.Num()); *)
      if ColorsUsed t <? wrap32 (Z.of_nat (length (ObjectColors t))) then
        Some {| ObjectColors := ObjectColors t;
                ObjectToColor := <[ActorName := ColorsUsed t]> (ObjectToColor t);
                ColorsUsed := wrap32 (ColorsUsed t + 1) |}
      else None
  end.

Fixpoint color_actors (t : ColorTable) (actors : list Name)
  : option (ColorTable * list (Name * Color)) :=
  match actors with
  | [] => Some (t, [])
  | ActorName :: rest =>
      match color_actor t ActorName with
      | Some t1 =>
          match ColorObject t1 ActorName with
          | Some c =>
              match color_actors t1 rest with
              | Some (t2, painted) => Some (t2, (ActorName, c) :: painted)
              | None => None
              end
          | None => None
          end
      | None => None
      end
  end.

(** [bool ColorAllObjects()], on the names of the actors of the world in
    iteration order: the table it leaves and the color each actor was
    painted with. *)
Definition ColorAllObjects (t : ColorTable) (actors : list Name)
  : option (ColorTable * list (Name * Color)) :=
  (* for (...) ++NumberOfActors; *)
  let NumberOfActors := wrap32 (Z.of_nat (length actors)) in
  (* GenerateColors(NumberOfActors * 2); *)
  match GenerateColors A Color HSVToFColor (umul32 NumberOfActors 2) (ObjectColors t) with
  | Some colors =>
      color_actors {| ObjectColors := colors;
                      ObjectToColor := ObjectToColor t;
                      ColorsUsed := ColorsUsed t |} actors
  | None => None
  end.

(** A run of recoloring passes, one list of actor names per pass. *)
Fixpoint recolor (t : ColorTable) (passes : list (list Name)) : option ColorTable :=
  match passes with
  | [] => Some t
  | actors :: rest =>
      match ColorAllObjects t actors with
      | Some (t1, _) => recolor t1 rest
      | None => None
      end
  end.

(** [t'] keeps every entry of [t] and has used at least as many colors. *)
Definition extends (t t' : ColorTable) : Prop :=
  (forall (name : Name) (k : Z),
      ObjectToColor t !! name = Some k -> ObjectToColor t' !! name = Some k) /\
  ColorsUsed t <= ColorsUsed t'.

(** The invariant of the table: the identifiers handed out are exactly those
    below [ColorsUsed], and the palette has a color for each. *)
Definition table_ok (t : ColorTable) : Prop :=
  0 <= ColorsUsed t <= Z.of_nat (length (ObjectColors t)) /\
  (forall (name : Name) (id : Z),
      ObjectToColor t !! name = Some id -> 0 <= id < ColorsUsed t).

End ObjectTable.

Arguments ObjectColors {_ _ _ _} _.
Arguments ObjectToColor {_ _ _ _} _.
Arguments ColorsUsed {_ _ _ _} _.
Arguments extends {_ _ _ _} _ _.
Arguments table_ok {_ _ _ _} _.

(** A run of two passes over a small scene, colors kept as their HSV triple. *)
Module TableExample.

Definition hsv : Type := (spec_float * spec_float * spec_float)%type.

Definition keep_hsv (h s v : spec_float) : hsv := (h, s, v).

Definition passes : list (list string) :=
  [["Floor"; "Chair"]; ["Chair"; "Lamp"; "Floor"]]%string.

Definition first_pass : ColorTable hsv (Name:=string) :=
  default (initial_table hsv)
          (recolor B32 hsv keep_hsv (initial_table hsv) (take 1 passes)).

Definition both_passes : ColorTable hsv (Name:=string) :=
  default (initial_table hsv)
          (recolor B32 hsv keep_hsv first_pass (drop 1 passes)).

End TableExample.

(** ** The frame gate of [UVisionComponent::TickComponent] *)

Section FrameGate.

Variable A : Arith.

(** The members the gate reads and writes. *)
Record Gate : Type := MkGate {
  Paused : bool;
  UseEngineFramerate : bool;
  Framerate : num A;
  FrameTime : num A;
  TimePassed : num A
}.

(** [void SetFramerate(const float _Framerate)] *)
Definition SetFramerate (g : Gate) (_Framerate : num A) : Gate :=
  {| Paused := Paused g;
     UseEngineFramerate := UseEngineFramerate g;
     Framerate := _Framerate;
     FrameTime := fdiv (of_int 1) _Framerate;
     TimePassed := of_int 0 |}.

(** [void Pause(const bool _Pause)] *)
Definition Pause (g : Gate) (_Pause : bool) : Gate :=
  {| Paused := _Pause;
     UseEngineFramerate := UseEngineFramerate g;
     Framerate := Framerate g;
     FrameTime := FrameTime g;
     TimePassed := TimePassed g |}.

Definition set_TimePassed (g : Gate) (t : num A) : Gate :=
  {| Paused := Paused g;
     UseEngineFramerate := UseEngineFramerate g;
     Framerate := Framerate g;
     FrameTime := FrameTime g;
     TimePassed := t |}.

(** The head of [TickComponent], up to [MEASURE_TIME("Tick")]: the gate after
    the tick, and whether the tick goes on to process a frame. *)
Definition TickComponent_gate (g : Gate) (DeltaTime : num A) : Gate * bool :=
  if Paused g then (g, false)
  else
    (* TimePassed += DeltaTime; *)
    let g1 := set_TimePassed g (fadd (TimePassed g) DeltaTime) in
    (* if (!UseEngineFramerate && TimePassed < FrameTime) return; *)
    if negb (UseEngineFramerate g1) && flt (TimePassed g1) (FrameTime g1)
    then (g1, false)
    else
      (* TimePassed -= FrameTime; *)
      (set_TimePassed g1 (fsub (TimePassed g1) (FrameTime g1)), true).

(** A sequence of ticks: the final gate and the number of frames processed. *)
Fixpoint run_ticks (g : Gate) (deltas : list (num A)) : Gate * nat :=
  match deltas with
  | [] => (g, O)
  | DeltaTime :: rest =>
      let '(g1, fired) := TickComponent_gate g DeltaTime in
      let '(g2, n) := run_ticks g1 rest in
      (g2, if fired then S n else n)
  end.

(** The elapsed time of a sequence of ticks. *)
Definition elapsed (deltas : list (num A)) : num A :=
  fold_right fadd (of_int 0) deltas.

(** The gate the constructor and [BeginPlay] leave: [Framerate(1)],
    [UseEngineFramerate(false)], [FrameTime(1.0f / Framerate)],
    [TimePassed(0)], [Paused = false]. *)
Definition constructed_gate : Gate :=
  {| Paused := false;
     UseEngineFramerate := false;
     Framerate := of_int 1;
     FrameTime := fdiv (of_int 1) (of_int 1);
     TimePassed := of_int 0 |}.


End FrameGate.

Arguments Paused {_} _.
Arguments UseEngineFramerate {_} _.
Arguments Framerate {_} _.
Arguments FrameTime {_} _.
Arguments TimePassed {_} _.

(** A sensor set to 8 frames per second, ticked every quarter of a second:
    every value is a power of two, so binary32 computes exactly. *)
Definition gate8 : Gate B32 :=
  SetFramerate B32 (constructed_gate B32) (of_int (a:=B32) 8).

Definition quarter : spec_float := fdiv (a:=B32) (of_int 1) (of_int 4).

Definition slow_ticks : list spec_float := [quarter; quarter; quarter; quarter].


(** ** Camera intrinsics: the [CameraInfo] message of [TickComponent] *)

Section CameraInfo.

(** [S] is [float], [D] is [double]; [to_double] is the implicit conversion.
    [PI] is the engine's macro, a [float] constant, and [tan] is [std::tan]. *)
Variables S D : Arith.
Variable to_double : num S -> num D.
Variable PI : num S.
Variable tan : num D -> num D.

Record CameraInfo : Type := MkCameraInfo {
  height : Z;
  width : Z;
  D_ : list (num D);
  K : list (num D);
  R_ : list (num D);
  P : list (num D)
}.

Definition make_CameraInfo (Width Height : Z) (FieldOfView : num S) : CameraInfo :=
  let FOVX := if Width <? Height
              then fdiv (fmul FieldOfView (of_int Width)) (of_int Height)
              else FieldOfView in
  let FOVY := if Height <? Width
              then fdiv (fmul FieldOfView (of_int Height)) (of_int Width)
              else FieldOfView in
  let halfFOVX := fdiv (to_double (fmul FOVX PI)) (of_int 360) in
  let halfFOVY := fdiv (to_double (fmul FOVY PI)) (of_int 360) in
  let cX := fdiv (of_int Width) (of_int 2) in
  let cY := fdiv (of_int Height) (of_int 2) in
  let K0 := fdiv cX (tan halfFOVX) in
  let K2 := cX in
  let K4 := K0 in
  let K5 := cY in
  let K8 := of_int 1 in
  let P0 := K0 in
  let P2 := K2 in
  let P5 := K4 in
  let P6 := K5 in
  let P10 := of_int 1 in
  let z := of_int 0 in
  {| height := Height;
     width := Width;
     D_ := [z; z; z; z; z];
     K := [K0; z; K2; z; K4; K5; z; z; K8];
     R_ := [of_int 1; z; z; z; of_int 1; z; z; z; of_int 1];
     P := [P0; z; P2; z; z; P5; P6; z; z; z; P10; z] |}.

(** The horizontal field of view the code derives. *)
Definition FOVX_of (Width Height : Z) (FieldOfView : num S) : num S :=
  if Width <? Height
  then fdiv (fmul FieldOfView (of_int Width)) (of_int Height)
  else FieldOfView.

End CameraInfo.

Arguments K {_} _.
Arguments P {_} _.

(** ** The capture protocol: [TickComponent], [ProcessColor], [ProcessDepth]

    The game thread runs the body of a processed tick; two worker threads run
    [ProcessColor] and [ProcessDepth].  Each statement that touches shared
    state is one atomic step, and a run is an interleaving of steps chosen by
    a schedule.  Planes are abstracted to the number of the tick whose data
    they hold (0: none yet). *)

Module Protocol.

Inductive Channel : Type := ColorCh | DepthCh.

Inductive Thread : Type := Producer | Worker (c : Channel).

Definition Channel_eqb (a b : Channel) : bool :=
  match a, b with
  | ColorCh, ColorCh | DepthCh, DepthCh => true
  | _, _ => false
  end.

(** Modelled from the spec: the transaction state of [PacketBuffer], whose
    source is not part of the files at hand (section 4.1: a write transaction,
    a completed write that can be read, a read transaction). *)
Record PacketBuffer : Type := MkBuffer {
  write_open : bool;
  written : bool;
  read_open : bool
}.

(** Modelled from the spec: [startWriting] begins a write transaction and
    fails if one is already open. *)
Definition StartWriting (b : PacketBuffer) : option PacketBuffer :=
  if write_open b then None
  else Some {| write_open := true; written := written b; read_open := read_open b |}.

(** Modelled from the spec: [doneWriting] closes the write transaction and
    makes the instance the new read candidate. *)
Definition DoneWriting (b : PacketBuffer) : option PacketBuffer :=
  if write_open b
  then Some {| write_open := false; written := true; read_open := read_open b |}
  else None.

(** Modelled from the spec: [startReading] begins a read transaction on the
    most recently completed write and fails if there is none or a read
    transaction is already open. *)
Definition StartReading (b : PacketBuffer) : option PacketBuffer :=
  if written b && negb (read_open b)
  then Some {| write_open := write_open b; written := written b; read_open := true |}
  else None.

(** Modelled from the spec: [doneReading] closes the read transaction. *)
Definition DoneReading (b : PacketBuffer) : option PacketBuffer :=
  if read_open b
  then Some {| write_open := write_open b; written := written b; read_open := false |}
  else None.

(** Where the game thread stands in the body of a processed tick
    (from [Priv->Buffer->StartWriting] to [Priv->Buffer->DoneReading]). *)
Inductive ProducerPc : Type :=
  | P_StartWriting              (* Priv->Buffer->StartWriting(...) *)
  | P_Lock (c : Channel)        (* Priv->WaitColor.lock() *)
  | P_Read (c : Channel)        (* ReadColor(...) / ReadFloat16Color(...) *)
  | P_Unlock (c : Channel)      (* Priv->WaitColor.unlock() *)
  | P_Notify (c : Channel)      (* Priv->CVColor.notify_one() *)
  | P_DoneWriting               (* Priv->Buffer->DoneWriting() *)
  | P_StartReading              (* Priv->Buffer->StartReading() *)
  | P_Publish                   (* convertDepth and the Publish calls *)
  | P_DoneReading.              (* Priv->Buffer->DoneReading() *)

(** Where a worker stands in the loop of [ProcessColor] / [ProcessDepth]. *)
Inductive WorkerPc : Type :=
  | W_Lock          (* while (Running): std::unique_lock WaitLock(mutex) *)
  | W_Wait          (* CV.wait(WaitLock): release the mutex and park *)
  | W_Parked        (* parked inside wait until a notify_one *)
  | W_Reacquire     (* notified: wait relocks the mutex before it returns *)
  | W_Convert       (* ColorToBytes / ToDepthImage starts writing the plane *)
  | W_Converting    (* ... and finishes *)
  | W_Notify        (* CV.notify_one() *)
  | W_Unlock        (* end of the loop body: ~unique_lock *)
  | W_Exited.

Record State : Type := MkState {
  tick : nat;                          (* the tick the game thread processes *)
  Running : bool;
  producer : ProducerPc;
  worker : Channel -> WorkerPc;
  mutex : Channel -> option Thread;    (* WaitColor, WaitDepth: the owner *)
  raw : Channel -> nat;                (* ImageColor..., ImageDepth *)
  plane : Channel -> nat;              (* Priv->Buffer->Color, ->Depth *)
  buffer : PacketBuffer
}.

Definition upd {X : Type} (f : Channel -> X) (c : Channel) (x : X) : Channel -> X :=
  fun d => if Channel_eqb c d then x else f d.

Definition set_producer (s : State) (pc : ProducerPc) : State :=
  MkState (tick s) (Running s) pc (worker s) (mutex s) (raw s) (plane s) (buffer s).

Definition set_worker (s : State) (c : Channel) (pc : WorkerPc) : State :=
  MkState (tick s) (Running s) (producer s) (upd (worker s) c pc) (mutex s)
          (raw s) (plane s) (buffer s).

Definition set_mutex (s : State) (c : Channel) (o : option Thread) : State :=
  MkState (tick s) (Running s) (producer s) (worker s) (upd (mutex s) c o)
          (raw s) (plane s) (buffer s).

Definition set_raw (s : State) (c : Channel) (n : nat) : State :=
  MkState (tick s) (Running s) (producer s) (worker s) (mutex s)
          (upd (raw s) c n) (plane s) (buffer s).

Definition set_plane (s : State) (c : Channel) (n : nat) : State :=
  MkState (tick s) (Running s) (producer s) (worker s) (mutex s)
          (raw s) (upd (plane s) c n) (buffer s).

Definition set_buffer (s : State) (b : PacketBuffer) : State :=
  MkState (tick s) (Running s) (producer s) (worker s) (mutex s)
          (raw s) (plane s) b.

Definition next_tick (s : State) : State :=
  MkState (S (tick s)) (Running s) (producer s) (worker s) (mutex s)
          (raw s) (plane s) (buffer s).

(** [mutex.lock()] by thread [t]: [None] while another thread owns it. *)
Definition lock (s : State) (c : Channel) (t : Thread) : option State :=
  match mutex s c with
  | None => Some (set_mutex s c (Some t))
  | Some _ => None
  end.

(** [CV.notify_one()]: wakes the worker if it is parked, else has no effect. *)
Definition notify_one (s : State) (c : Channel) : State :=
  match worker s c with
  | W_Parked => set_worker s c W_Reacquire
  | _ => s
  end.

(** One step of the game thread in [TickComponent], from
    [Priv->Buffer->StartWriting] on; [None] when it cannot move. *)
Definition producer_step (s : State) : option State :=
  match producer s with
  | P_StartWriting =>
      b ← StartWriting (buffer s);
      Some (set_producer (set_buffer s b) (P_Lock ColorCh))
  | P_Lock c =>
      s1 ← lock s c Producer; Some (set_producer s1 (P_Read c))
  | P_Read c =>
      Some (set_producer (set_raw s c (tick s)) (P_Unlock c))
  | P_Unlock c =>
      Some (set_producer (set_mutex s c None) (P_Notify c))
  | P_Notify c =>
      Some (set_producer (notify_one s c)
              (match c with ColorCh => P_Lock DepthCh | DepthCh => P_DoneWriting end))
  | P_DoneWriting =>
      b ← DoneWriting (buffer s);
      Some (set_producer (set_buffer s b) P_StartReading)
  | P_StartReading =>
      b ← StartReading (buffer s);
      Some (set_producer (set_buffer s b) P_Publish)
  | P_Publish =>
      Some (set_producer s P_DoneReading)
  | P_DoneReading =>
      b ← DoneReading (buffer s);
      Some (set_producer (next_tick (set_buffer s b)) P_StartWriting)
  end.

(** One step of the worker of channel [c]; [None] when it cannot move.  A
    parked worker does not move by itself: its [wait] returns when it is
    notified ([notify_one]), or spuriously ([Wakeups.spurious_wakeup]). *)
Definition worker_step (s : State) (c : Channel) : option State :=
  match worker s c with
  | W_Lock =>
      if Running s
      then s1 ← lock s c (Worker c); Some (set_worker s1 c W_Wait)
      else Some (set_worker s c W_Exited)
  | W_Wait => Some (set_worker (set_mutex s c None) c W_Parked)
  | W_Parked => None
  | W_Reacquire =>
      s1 ← lock s c (Worker c); Some (set_worker s1 c W_Convert)
  | W_Convert => Some (set_worker s c W_Converting)
  | W_Converting => Some (set_worker (set_plane s c (raw s c)) c W_Notify)
  | W_Notify => Some (set_worker (notify_one s c) c W_Unlock)
  | W_Unlock => Some (set_worker (set_mutex s c None) c W_Lock)
  | W_Exited => None
  end.

(** [void ProcessColor()] and [void ProcessDepth()]: the same loop on the
    color and on the depth channel. *)
Definition ProcessColor (s : State) : option State := worker_step s ColorCh.
Definition ProcessDepth (s : State) : option State := worker_step s DepthCh.

Definition step (s : State) (t : Thread) : option State :=
  match t with
  | Producer => producer_step s
  | Worker ColorCh => ProcessColor s
  | Worker DepthCh => ProcessDepth s
  end.

(** A run under a schedule; [None] when the schedule picks a thread that
    cannot move. *)
Fixpoint run (s : State) (schedule : list Thread) : option State :=
  match schedule with
  | [] => Some s
  | t :: rest => s1 ← step s t; run s1 rest
  end.

(** The state [BeginPlay] leaves: both workers started, the first tick about
    to be processed. *)
Definition initial : State :=
  {| tick := 1;
     Running := true;
     producer := P_StartWriting;
     worker := fun _ => W_Lock;
     mutex := fun _ => None;
     raw := fun _ => O;
     plane := fun _ => O;
     buffer := {| write_open := false; written := false; read_open := false |} |}.

(** The worker of [c] has completed converting the plane of the current tick. *)
Definition completed (s : State) (c : Channel) : bool :=
  Nat.eqb (plane s c) (tick s).

(** The worker of [c] is in the middle of writing its plane. *)
Definition writing (s : State) (c : Channel) : bool :=
  match worker s c with W_Converting => true | _ => false end.

(** The game thread has closed the write transaction of the current tick:
    it is about to open the read transaction, or inside it. *)
Definition read_phase (s : State) : bool :=
  match producer s with
  | P_StartReading | P_Publish | P_DoneReading => true
  | _ => false
  end.

(** The property of the specification: in the read phase both workers have
    completed the planes of the current tick and none is converting. *)
Definition waits_for_workers (s : State) : Prop :=
  read_phase s = true ->
  completed s ColorCh = true /\ completed s DepthCh = true /\
  writing s ColorCh = false /\ writing s DepthCh = false.

(** Both workers park; the game thread reads the color image and notifies
    the color worker, which wakes and starts to convert; the game thread
    then runs on, through [DoneWriting] and [StartReading], while the color
    worker is still converting and the depth worker has not woken. *)
Definition early_read : list Thread :=
  [Worker ColorCh; Worker ColorCh; Worker DepthCh; Worker DepthCh] ++
  repeat Producer 5 ++
  [Worker ColorCh; Worker ColorCh] ++
  repeat Producer 6.

End Protocol.

(** ** Byte buffers: the output side of the conversions

    The conversions write through a raw pointer into a byte buffer.  A buffer
    is the list of its bytes, a pointer an index into it, and a store outside
    the buffer (undefined in C++) is [None]. *)

Module Buffers.

(** [*p = v] for a [uint8_t *p] at index [i]. *)
Definition store_u8 (Bytes : list Z) (i : nat) (v : Z) : option (list Z) :=
  if decide (i < length Bytes)%nat then Some (<[i := v]> Bytes) else None.

(** [*p = v] for a [uint16_t *p] that points at byte [i] (little endian). *)
Definition store_u16 (Bytes : list Z) (i : nat) (v : Z) : option (list Z) :=
  if decide (i + 1 < length Bytes)%nat
  then Some (<[i := v mod 256]> (<[S i := (v / 256) mod 256]> Bytes))
  else None.

(** [*p] for a [const uint16_t *p] that points at byte [i]. *)
Definition load_u16 (Bytes : list Z) (i : nat) : option Z :=
  match Bytes !! i, Bytes !! S i with
  | Some lo, Some hi => Some (lo + 256 * hi)
  | _, _ => None
  end.

(** The [n] 16-bit values a [const uint16_t *] at the start of the buffer
    points to. *)
Definition load_u16s (Bytes : list Z) (n : nat) : option (list Z) :=
  mapM (fun k => load_u16 Bytes (2 * k)) (seq 0 n).

End Buffers.

(** ** [UVisionComponent::ToDepthImage] *)

Module DepthImage.
Import Buffers.

(** An [FFloat16Color]: the binary16 code ([Encoded]) of each channel. *)
Record FFloat16Color : Type := MkFFloat16Color {
  R_Encoded : Z;
  G_Encoded : Z;
  B_Encoded : Z;
  A_Encoded : Z
}.

(** The loop of [ToDepthImage]; [itO] counts the 16-bit elements written. *)
Fixpoint ToDepthImage_loop (itO : nat) (ImageData : list FFloat16Color)
    (Bytes : list Z) : option (list Z) :=
  match ImageData with
  | [] => Some Bytes
  | itI :: rest =>
      (* *itO = itI->R.Encoded; *)
      match store_u16 Bytes (2 * itO) (R_Encoded itI) with
      | Some Bytes' => ToDepthImage_loop (S itO) rest Bytes'
      | None => None
      end
  end.

(** [void ToDepthImage(const TArray<FFloat16Color> &ImageData, uint8 *Bytes) const] *)
Definition ToDepthImage (ImageData : list FFloat16Color) (Bytes : list Z)
  : option (list Z) :=
  ToDepthImage_loop 0 ImageData Bytes.

(** A pixel whose depth code is a 16-bit value. *)
Definition is_pixel (px : FFloat16Color) : Prop :=
  0 <= R_Encoded px < 65536.

(** From the depth plane to the published image, as [TickComponent] does it:
    the plane is read as an array of [uint16_t] and handed to [convertDepth]. *)
Definition publish_depth (Width Height : Z) (DepthPlane : list Z)
  : option (list spec_float) :=
  match load_u16s DepthPlane (Z.to_nat (wrap32 (Width * Height))) with
  | Some codes => DepthUnitConverter.convertDepth Width Height codes
  | None => None
  end.

(** [uint32_t TargetDepthBufSize = Width*Height * 4;]: the bytes allocated
    for the output of [convertDepth]. *)
Definition TargetDepthBufSize (Width Height : Z) : Z :=
  umul32 (umul32 Width Height) 4.

(** The bytes [convertDepth] stores: 16 per vector operation. *)
Definition convertDepth_stored (Width Height : Z) : Z :=
  16 * (wrap32 (Width * Height) / 4).

(** The bytes of a list of 16-bit values, low byte first. *)
Definition le_bytes (codes : list Z) : list Z :=
  flat_map (fun v => [v mod 256; (v / 256) mod 256]) codes.

End DepthImage.

(** ** [ColorToBytes], [LinearColorToBytes], [Float16ColorToBytes] with their
       output pointer *)

Section PixelPacking.
Import Buffers.

Variable A : Arith.
Variable Pow : num A -> num A -> num A.
Variable half_to_float : Z -> num A.
Variables GammaCorrection Contrast Brightness : num A.

(** The loop the three functions share: per pixel
    [*itO = b; *++itO = g; *++itO = r;] and [++itO] at the end of the
    iteration.  A pixel is given by its three processed bytes. *)
Fixpoint pack_loop (itO : nat) (pixels : list (Z * Z * Z)) (Bytes : list Z)
  : option (list Z) :=
  match pixels with
  | [] => Some Bytes
  | (b, g, r) :: rest =>
      match store_u8 Bytes itO b with
      | Some B1 =>
          match store_u8 B1 (itO + 1) g with
          | Some B2 =>
              match store_u8 B2 (itO + 2) r with
              | Some B3 => pack_loop (itO + 3) rest B3
              | None => None
              end
          | None => None
          end
      | None => None
      end
  end.

(** [void ColorToBytes(const TArray<FColor> &ImageData, uint8 *Bytes) const];
    an [FColor] is given as (R, G, B). *)
Definition ColorToBytes_into (ImageData : list (Z * Z * Z)) (Bytes : list Z)
  : option (list Z) :=
  let byte := ProcessChannel_uint8 A Pow GammaCorrection Contrast Brightness in
  pack_loop 0 (map (fun '(r, g, b) => (byte b, byte g, byte r)) ImageData) Bytes.

(** [void LinearColorToBytes(const TArray<FLinearColor> &ImageData, uint8 *Bytes) const] *)
Definition LinearColorToBytes_into (ImageData : list (num A * num A * num A))
    (Bytes : list Z) : option (list Z) :=
  let byte := ProcessChannel_float A Pow GammaCorrection Contrast Brightness in
  pack_loop 0 (map (fun '(r, g, b) => (byte b, byte g, byte r)) ImageData) Bytes.

(** [void Float16ColorToBytes(const TArray<FFloat16Color> &ImageData, uint8 *Bytes) const] *)
Definition Float16ColorToBytes_into (ImageData : list DepthImage.FFloat16Color)
    (Bytes : list Z) : option (list Z) :=
  let byte := ProcessChannel_FFloat16 A Pow half_to_float
                GammaCorrection Contrast Brightness in
  pack_loop 0 (map (fun px => (byte (DepthImage.B_Encoded px),
                               byte (DepthImage.G_Encoded px),
                               byte (DepthImage.R_Encoded px))) ImageData) Bytes.

(** The bytes of a list of processed pixels, in the order they are stored. *)
Definition bgr_bytes (pixels : list (Z * Z * Z)) : list Z :=
  flat_map (fun '(b, g, r) => [b; g; r]) pixels.

End PixelPacking.

(** ** The palette's steps

    [StepSat] and [StepVal] of [GenerateColors] as functions of the count:
    [(1.0f - 0.65) / std::max(1.0f, count - 1.0f)], and [StepHue]. *)

Definition palette_step (A : Arith) (count : Z) : num A :=
  fdiv (fsub (of_int 1) (fdiv (of_int 65) (of_int 100)))
       (fmax A (of_int 1) (fsub (of_int count) (of_int 1))).

Definition StepHue (A : Arith) : num A := fdiv (of_int 360) (of_int MaxHue).

(** The hue index of the [h]-th iteration of the innermost loop:
    [(h * ShiftHue) % MaxHue]. *)
Definition hue_index (h : Z) : Z := umul32 h ShiftHue mod MaxHue.

(** The color [GenerateColors] adds in iteration [(s, v, h)]. *)
Definition palette_color (A : Arith) (Color : Type)
    (HSVToFColor : num A -> num A -> num A -> Color)
    (SatCount ValCount s v h : Z) : Color :=
  HSVToFColor
    (fmul (of_int (hue_index h)) (StepHue A))
    (fsub (of_int 1) (fmul (of_int s) (palette_step A SatCount)))
    (fsub (of_int 1) (fmul (of_int v) (palette_step A ValCount))).

(** ** The identifiers of the object table *)

Section ObjectIdentifiers.

Variable Color : Type.
Context `{Countable Name}.

(** The identifiers in [ObjectToColor] are the numbers below [ColorsUsed],
    each held by one name. *)
Definition ids_distinct (t : ColorTable Color (Name:=Name)) : Prop :=
  0 <= ColorsUsed t /\
  Z.of_nat (size (ObjectToColor t)) = ColorsUsed t /\
  (forall (name : Name) (id : Z),
      ObjectToColor t !! name = Some id -> 0 <= id < ColorsUsed t) /\
  (forall (name1 name2 : Name) (id : Z),
      ObjectToColor t !! name1 = Some id -> ObjectToColor t !! name2 = Some id ->
      name1 = name2) /\
  (forall id : Z, 0 <= id < ColorsUsed t ->
      exists name : Name, ObjectToColor t !! name = Some id).

End ObjectIdentifiers.

Arguments ids_distinct {_ _ _ _} _.

(** ** The accumulator of the frame gate *)

(** [TimePassed] after the ticks [deltas] when none of them processes a
    frame: [TimePassed += DeltaTime] for each, in order. *)
Definition accumulated (A : Arith) (TimePassed0 : num A) (deltas : list (num A)) : num A :=
  fold_left fadd deltas TimePassed0.

(** [+infinity] in binary32. *)
Definition infinity32 : spec_float := S754_infinity false.

(** ** Who holds [WaitColor] and [WaitDepth] *)

Module Exclusion.
Import Protocol.

(** The game thread is between [mutex.lock()] and [mutex.unlock()] of [c]. *)
Definition producer_holds (s : State) (c : Channel) : bool :=
  match producer s with
  | P_Read d | P_Unlock d => Channel_eqb c d
  | _ => false
  end.

(** The worker of [c] is inside the scope of its [std::unique_lock], outside
    [wait]. *)
Definition worker_holds (s : State) (c : Channel) : bool :=
  match worker s c with
  | W_Wait | W_Convert | W_Converting | W_Notify | W_Unlock => true
  | _ => false
  end.

(** The thread whose program counter is inside a critical section of [c]. *)
Definition owner (s : State) (c : Channel) : option Thread :=
  if producer_holds s c then Some Producer
  else if worker_holds s c then Some (Worker c)
  else None.

(** The mutex of [c] is held by that thread, and the game thread and the
    worker are not both inside. *)
Definition mutex_ok (s : State) (c : Channel) : Prop :=
  mutex s c = owner s c /\ producer_holds s c && worker_holds s c = false.

End Exclusion.

(** ** [UVisionComponent::EndPlay]

    The game thread runs [EndPlay] while the two workers run their loops, in
    the interleaving model of the capture protocol; as there, [wait] returns
    only after a [notify_one]. *)

Module Shutdown.
Import Protocol.

(** [Running = r;] *)
Definition set_Running (s : State) (r : bool) : State :=
  MkState (tick s) r (producer s) (worker s) (mutex s) (raw s) (plane s) (buffer s).

(** Where the game thread stands in [EndPlay]. *)
Inductive EndPlayPc : Type :=
  | E_Stop                   (* Running = false; *)
  | E_Notify (c : Channel)   (* Priv->CVColor.notify_one(); Priv->CVDepth.notify_one(); *)
  | E_Join (c : Channel)     (* Priv->ThreadColor.join(); Priv->ThreadDepth.join(); *)
  | E_Returned.

(** The two workers and the game thread, which is inside [EndPlay]. *)
Record System : Type := MkSystem {
  threads : State;
  endplay : EndPlayPc
}.

(** One step of [EndPlay]; [join] cannot move until the thread has ended. *)
Definition EndPlay_step (s : System) : option System :=
  match endplay s with
  | E_Stop =>
      Some (MkSystem (set_Running (threads s) false) (E_Notify ColorCh))
  | E_Notify ColorCh =>
      Some (MkSystem (notify_one (threads s) ColorCh) (E_Notify DepthCh))
  | E_Notify DepthCh =>
      Some (MkSystem (notify_one (threads s) DepthCh) (E_Join ColorCh))
  | E_Join ColorCh =>
      match worker (threads s) ColorCh with
      | W_Exited => Some (MkSystem (threads s) (E_Join DepthCh))
      | _ => None
      end
  | E_Join DepthCh =>
      match worker (threads s) DepthCh with
      | W_Exited => Some (MkSystem (threads s) E_Returned)
      | _ => None
      end
  | E_Returned => None
  end.

(** A step of the system: the game thread runs [EndPlay], a worker runs
    [ProcessColor] or [ProcessDepth]. *)
Definition shutdown_step (s : System) (t : Thread) : option System :=
  match t with
  | Producer => EndPlay_step s
  | Worker c =>
      match step (threads s) (Worker c) with
      | Some s1 => Some (MkSystem s1 (endplay s))
      | None => None
      end
  end.

(** A run under a schedule; [None] when the schedule picks a thread that
    cannot move. *)
Fixpoint shutdown_run (s : System) (schedule : list Thread) : option System :=
  match schedule with
  | [] => Some s
  | t :: rest =>
      match shutdown_step s t with
      | Some s1 => shutdown_run s1 rest
      | None => None
      end
  end.

(** [EndPlay] is called in the state [s]. *)
Definition EndPlay_called (s : State) : System := MkSystem s E_Stop.

(** Both workers are parked in [wait] and the game thread is between two
    ticks: the state between two processed frames once the workers have
    caught up. *)
Definition quiescent (s : State) : Prop :=
  Running s = true /\
  (forall c, worker s c = W_Parked) /\
  (forall c, mutex s c = None).

(** The steps a worker has left before it ends, once [Running] is false. *)
Definition worker_rank (pc : WorkerPc) : nat :=
  match pc with
  | W_Exited => 0
  | W_Lock => 1
  | W_Unlock => 2
  | W_Notify => 3
  | W_Converting => 4
  | W_Convert => 5
  | W_Reacquire => 6
  | W_Parked => 6
  | W_Wait => 7
  end.

(** The steps [EndPlay] has left. *)
Definition endplay_rank (pc : EndPlayPc) : nat :=
  match pc with
  | E_Stop => 5
  | E_Notify ColorCh => 4
  | E_Notify DepthCh => 3
  | E_Join ColorCh => 2
  | E_Join DepthCh => 1
  | E_Returned => 0
  end.

(** A bound on the steps the system has left. *)
Definition steps_left (s : System) : nat :=
  endplay_rank (endplay s) + worker_rank (worker (threads s) ColorCh)
  + worker_rank (worker (threads s) DepthCh).

(** [EndPlay] has sent the notification of channel [c]. *)
Definition notified (pc : EndPlayPc) (c : Channel) : bool :=
  match pc, c with
  | E_Stop, _ | E_Notify ColorCh, _ | E_Notify DepthCh, DepthCh => false
  | _, _ => true
  end.

(** The schedule that loses the notification of channel [c]: [EndPlay] runs
    up to the joins while the worker is between taking its lock and calling
    [wait]; then the worker calls [wait]. *)
Definition lost_wakeup (c : Channel) : list Thread :=
  [Producer; Producer; Producer; Worker c].

(** [EndPlay] has passed the [join] of the worker of [c]. *)
Definition joined (pc : EndPlayPc) (c : Channel) : bool :=
  match pc, c with
  | E_Join DepthCh, ColorCh | E_Returned, _ => true
  | _, _ => false
  end.

(** The worker has written its plane since it was woken. *)
Definition converted (pc : WorkerPc) : bool :=
  match pc with
  | W_Notify | W_Unlock | W_Lock | W_Exited => true
  | _ => false
  end.

(** Where the worker of [c] can be for each position of [EndPlay], when the
    shutdown began with the worker parked. *)
Definition control_ok (pc : EndPlayPc) (running : bool) (w : WorkerPc) (c : Channel)
  : bool :=
  (match pc with E_Stop => running | _ => negb running end)
  && match w with
     | W_Wait => false
     | W_Parked => negb (notified pc c)
     | W_Exited => notified pc c
     | _ => notified pc c && negb (joined pc c)
     end.

(** The invariant of channel [c] during a shutdown that began with the
    workers parked and the raw images [raw0]: the raw image is not touched,
    the mutex is held by the worker exactly inside its critical section, and
    a worker past its conversion has written that raw image to the plane. *)
Definition channel_ok (raw0 : Channel -> nat) (s : System) (c : Channel) : Prop :=
  raw (threads s) c = raw0 c /\
  mutex (threads s) c =
    (if Exclusion.worker_holds (threads s) c then Some (Worker c) else None) /\
  control_ok (endplay s) (Running (threads s)) (worker (threads s) c) c = true /\
  (converted (worker (threads s) c) = true -> plane (threads s) c = raw0 c).

(** [EndPlay] is in a [join] it can only leave, or could only have reached,
    after the worker of [c] has ended. *)
Definition waits_for (pc : EndPlayPc) (c : Channel) : bool :=
  match pc, c with
  | E_Join ColorCh, _ | E_Join DepthCh, DepthCh => true
  | _, _ => false
  end.

(** The state in which both workers have parked. *)
Definition parked_state : State :=
  default initial
    (run initial [Worker ColorCh; Worker ColorCh; Worker DepthCh; Worker DepthCh]).

(** A shutdown in which the color worker ends before the depth worker
    starts to move. *)
Definition orderly_shutdown : list Thread :=
  repeat Producer 3 ++ repeat (Worker ColorCh) 6 ++ [Producer]
  ++ repeat (Worker DepthCh) 6 ++ [Producer].

(** The color worker has taken [WaitColor] when [EndPlay] is called. *)
Definition about_to_wait : State :=
  default initial (run initial [Worker ColorCh]).

End Shutdown.

(** ** Shutdown with spurious wake-ups

    [CVColor.wait(WaitLock)] and [CVDepth.wait(WaitLock)] are called without
    a predicate, so they may return although nobody has notified.  The steps
    of [Protocol] and [Shutdown] are those of the threads themselves; here a
    run may also contain such returns. *)

Module Wakeups.
Import Protocol Shutdown.

(** What happens next: a thread takes a step, or the [wait] of a parked
    worker returns without a notification, which
    [std::condition_variable::wait] without a predicate allows. *)
Inductive Event : Type :=
  | Step (t : Thread)
  | Spurious (c : Channel).

(** The [wait] of the worker of [c] returns spuriously. *)
Definition spurious_wakeup (s : State) (c : Channel) : option State :=
  match worker s c with
  | W_Parked => Some (set_worker s c W_Reacquire)
  | _ => None
  end.

Definition event_step (s : System) (ev : Event) : option System :=
  match ev with
  | Step t => shutdown_step s t
  | Spurious c =>
      match spurious_wakeup (threads s) c with
      | Some s1 => Some (MkSystem s1 (endplay s))
      | None => None
      end
  end.

Fixpoint event_run (s : System) (events : list Event) : option System :=
  match events with
  | [] => Some s
  | ev :: rest =>
      match event_step s ev with
      | Some s1 => event_run s1 rest
      | None => None
      end
  end.

(** [Running] is false from the first statement of [EndPlay] on, and
    [EndPlay] is past the [join] of a worker only if that worker has ended. *)
Definition joins_ok (pc : EndPlayPc) (running : bool) (w : WorkerPc) (c : Channel)
  : bool :=
  (match pc with E_Stop => running | _ => negb running end)
  && implb (joined pc c) (match w with W_Exited => true | _ => false end).

(** The invariant of channel [c] during a shutdown in which [wait] may
    return spuriously. *)
Definition wakeup_ok (raw0 : Channel -> nat) (s : System) (c : Channel) : Prop :=
  raw (threads s) c = raw0 c /\
  mutex (threads s) c =
    (if Exclusion.worker_holds (threads s) c then Some (Worker c) else None) /\
  joins_ok (endplay s) (Running (threads s)) (worker (threads s) c) c = true /\
  (converted (worker (threads s) c) = true -> plane (threads s) c = raw0 c).

(** A spurious wake-up of the color worker before [EndPlay] starts, after
    which the worker runs one iteration of its loop and takes its lock
    again. *)
Definition early_wakeup : list Event :=
  Spurious ColorCh :: repeat (Step (Worker ColorCh)) 6.

End Wakeups.

(** ** Pixels of the color image *)

(** A pixel whose three channels are bytes. *)
Definition is_FColor (px : Z * Z * Z) : Prop :=
  let '(r, g, b) := px in 0 <= r <= 255 /\ 0 <= g <= 255 /\ 0 <= b <= 255.

(** The [FLinearColor] that shows the same intensities as an [FColor]. *)
Definition to_linear (px : Z * Z * Z) : spec_float * spec_float * spec_float :=
  let '(r, g, b) := px in
  (ChannelSpec.normalized r, ChannelSpec.normalized g, ChannelSpec.normalized b).

(** ** The range of the depth conversion *)

Module DepthRange.
Import DepthUnitConverter.

(** [y] is the decoded sample [h] divided by 100 with a relative error of at
    most [2^-24], and lies in the range [0, 656). *)
Definition accurate (h : Z) (y : spec_float) : bool :=
  let x := (IEEE.to_Q (cvtph h) / 100)%Q in
  Qle_bool (Qabs (IEEE.to_Q y - x)) (x * (1 # 2 ^ 24))
  && negb (flt (a:=B32) y (of_int 0))
  && flt (a:=B32) y (of_int 656).

(** The converted samples of the codes [h], [h + 1], ..., [h + count - 1]
    are accurate and increase, the first one from [prev]. *)
Fixpoint increasing_from (prev : spec_float) (h : Z) (count : nat) : bool :=
  match count with
  | O => true
  | S count' =>
      let y := spec_meters h in
      flt (a:=B32) prev y && accurate h y && increasing_from y (h + 1) count'
  end.

(** The largest finite binary16 code: 65504. *)
Definition half_max : Z := 0x7BFF.

End DepthRange.

(* ===================================================================== *)
(** * Part II. Properties *)
(* ===================================================================== *)

(** ** Machine integers *)

Lemma wrap32_small (z : Z) : 0 <= z < 2 ^ 32 -> wrap32 z = z.
Proof. intros Hz. unfold wrap32. apply Z.mod_small. exact Hz. Qed.

Lemma wrap32_range (z : Z) : 0 <= wrap32 z < 2 ^ 32.
Proof. unfold wrap32. apply Z.mod_pos_bound. lia. Qed.

Lemma to_int32_exact (z : Z) : - 2 ^ 31 <= z < 2 ^ 31 -> to_int32 z = z.
Proof.
  intros Hz. unfold to_int32, wrap32.
  destruct (Z.ltb_spec (z mod 2 ^ 32) (2 ^ 31)) as [Hlt | Hge].
  - destruct (Z.neg_nonneg_cases z) as [Hneg | Hnn].
    + assert (Hm : z mod 2 ^ 32 = z + 2 ^ 32)
        by (symmetry; apply Z.mod_unique with (q := -1); lia).
      lia.
    + apply Z.mod_small. lia.
  - destruct (Z.neg_nonneg_cases z) as [Hneg | Hnn].
    + assert (Hm : z mod 2 ^ 32 = z + 2 ^ 32)
        by (symmetry; apply Z.mod_unique with (q := -1); lia).
      lia.
    + rewrite Z.mod_small in Hge by lia. lia.
Qed.

Lemma in_counter (n c : Z) : 0 <= c < n -> In c (counter n).
Proof.
  intros Hc. unfold counter.
  apply in_map_iff. exists (Z.to_nat c). split; [lia |].
  apply in_seq. lia.
Qed.

Lemma length_counter (n : Z) : length (counter n) = Z.to_nat n.
Proof. unfold counter. rewrite length_map. apply length_seq. Qed.

(** ** The capture protocol *)

Module ProtocolFacts.
Import Protocol.

(** C1 (refuted on the code).  Nothing in [TickComponent] waits for the
    workers: under the schedule [early_read] the game thread has closed the
    write transaction of tick 1 and opened the read transaction while neither
    worker has completed the plane of that tick, and the color worker, which
    started before the write transaction was closed, is still writing its
    plane while the read transaction is open. *)
Theorem read_phase_before_workers_complete :
  exists s : State,
    run initial early_read = Some s /\
    tick s = 1%nat /\
    producer s = P_Publish /\
    read_open (buffer s) = true /\
    completed s ColorCh = false /\
    completed s DepthCh = false /\
    writing s ColorCh = true /\
    worker s DepthCh = W_Reacquire /\
    ~ waits_for_workers s.
Proof.
  eexists. split; [vm_compute; reflexivity |].
  repeat (split; [reflexivity |]).
  intros Hsafe. destruct (Hsafe eq_refl) as (Hc & _). discriminate Hc.
Qed.

(** A [notify_one] that finds no parked worker is lost: when the game thread
    runs the whole first tick before the workers reach [wait], the tick is
    published and closed with no plane converted, and the workers then park
    until a later tick notifies them. *)
Lemma workers_never_signalled :
  exists s : State,
    run initial (repeat Producer 13 ++
                 [Worker ColorCh; Worker ColorCh; Worker DepthCh; Worker DepthCh])
      = Some s /\
    tick s = 2%nat /\
    worker s ColorCh = W_Parked /\ worker s DepthCh = W_Parked /\
    plane s ColorCh = 0%nat /\ plane s DepthCh = 0%nat.
Proof. eexists. split; [vm_compute; reflexivity |]. repeat split. Qed.

(** The game thread never blocks on a worker inside a tick: when both workers
    are parked and the mutexes are free, eleven steps of its own take it from
    [StartWriting] into the read transaction. *)
Lemma producer_runs_alone :
  exists s : State,
    run initial ([Worker ColorCh; Worker ColorCh; Worker DepthCh; Worker DepthCh]
                 ++ repeat Producer 11) = Some s /\
    read_phase s = true /\
    plane s ColorCh = 0%nat /\ plane s DepthCh = 0%nat.
Proof. eexists. split; [vm_compute; reflexivity |]. repeat split. Qed.

End ProtocolFacts.

(** ** DepthUnitConverter *)

Module DepthFacts.
Import DepthUnitConverter.

Lemma convertDepth_loop_chunks (size : nat) :
  forall inp : list Z,
    length inp = (4 * size)%nat ->
    exists out : list m128,
      convertDepth_loop size inp = Some out /\
      length out = size /\
      concat (map lanes out) = map spec_meters inp.
Proof.
  induction size as [| size IH]; intros inp Hlen.
  - destruct inp; [| discriminate Hlen]. exists []. repeat split.
  - destruct inp as [| in0 [| in1 [| in2 [| in3 inp']]]]; simpl in Hlen; try lia.
    destruct (IH inp') as (out & Hout & Hn & Hflat); [lia |].
    exists (m128_div (mm_cvtph_ps in0 in1 in2 in3) 100 :: out).
    split; [| split].
    + cbn [convertDepth_loop]. rewrite Hout. reflexivity.
    + cbn [length]. rewrite Hn. reflexivity.
    + cbn [map concat]. rewrite Hflat. reflexivity.
Qed.

(** The decoder on codes of every class: the largest finite value, a
    negative value, the smallest subnormal, one third rounded to binary16,
    the infinities, a NaN and the negative zero. *)
Lemma cvtph_samples :
  cvtph 0x7BFF = of_int (a:=B32) 65504 /\
  cvtph 0xC000 = of_int (a:=B32) (-2) /\
  (IEEE.to_Q (cvtph 0x0001) == 1 # 2 ^ 24)%Q /\
  (IEEE.to_Q (cvtph 0x3555) == 1365 # 4096)%Q /\
  cvtph 0x7C00 = S754_infinity false /\
  cvtph 0xFC00 = S754_infinity true /\
  cvtph 0x7E00 = S754_nan /\
  cvtph 0x8000 = S754_zero true.
Proof. vm_compute. repeat split. Qed.

Lemma half_one_decodes : cvtph half_one = of_int (a:=B32) 1.
Proof. vm_compute. reflexivity. Qed.

(** C6.  When the input holds [Width * Height] binary16 codes (the product
    as the code computes it, in 32 bits) and that count is a multiple of 4,
    [convertDepth] runs [Width * Height / 4] vector operations of four samples
    each and the output holds, for every sample, the binary32 quotient of its
    decoded value by 100; the code of 1.0 gives a value within 1e-6 of 0.01. *)
Theorem convertDepth_meters (Width Height : Z) (inp : list Z) :
  Z.of_nat (length inp) = wrap32 (Width * Height) ->
  wrap32 (Width * Height) mod 4 = 0 ->
  convertDepth Width Height inp = Some (map spec_meters inp) /\
  (exists ops : list m128,
      convertDepth_loop (Z.to_nat (wrap32 (Width * Height) / 4)) inp = Some ops /\
      (4 * length ops)%nat = length inp) /\
  (forall i sample, inp !! i = Some sample ->
      map spec_meters inp !! i =
        Some (fdiv (a:=B32) (cvtph sample) (of_int 100))) /\
  (Qabs (IEEE.to_Q (spec_meters half_one) - (1 # 100)) < (1 # 1000000))%Q.
Proof.
  intros Hlen Hdiv.
  assert (Hsize : length inp = (4 * Z.to_nat (wrap32 (Width * Height) / 4))%nat).
  { pose proof (Z.div_mod (wrap32 (Width * Height)) 4 ltac:(lia)) as Hdm.
    pose proof (wrap32_range (Width * Height)) as Hr.
    assert (0 <= wrap32 (Width * Height) / 4) by (apply Z.div_pos; lia).
    lia. }
  destruct (convertDepth_loop_chunks _ inp Hsize) as (out & Hout & Hn & Hflat).
  split; [| split; [| split]].
  - unfold convertDepth. cbv zeta. rewrite Hout, Hflat. reflexivity.
  - exists out. split; [exact Hout | lia].
  - intros i sample Hi. rewrite list_lookup_fmap, Hi. reflexivity.
  - vm_compute. reflexivity.
Qed.

(** An image of 2 x 2 samples: one vector operation. *)
Lemma convertDepth_meters_witness :
  convertDepth 2 2 [half_one; 0; 0x4000; 0xBC00] =
    Some (map spec_meters [half_one; 0; 0x4000; 0xBC00]).
Proof.
  apply (convertDepth_meters 2 2 [half_one; 0; 0x4000; 0xBC00]);
    vm_compute; reflexivity.
Defined.

(** When the number of samples is not a multiple of 4 the last ones are left
    unconverted: five samples give one vector operation. *)
Lemma convertDepth_remainder (a b c d e : Z) :
  convertDepth 5 1 [a; b; c; d; e] = Some (map spec_meters [a; b; c; d]).
Proof. reflexivity. Qed.

End DepthFacts.

(** ** Camera intrinsics *)

Section CameraFacts.

Variables S D : Arith.
Variable to_double : num S -> num D.
Variable PI : num S.
Variable tan : num D -> num D.

(** C10.  In the [CameraInfo] message the vertical focal length [K[4]] is the
    horizontal one, [K[0] = (Width / 2) / tan(FOVX * PI / 360)], whatever the
    width, height and field of view, and [P[5]] is [K[4]]: the vertical field
    of view does not enter the matrices (for a landscape image, where it
    changes with the height, [K[4]] is the same for every height). *)
Theorem camera_info_focal_lengths (Width Height : Z) (FieldOfView : num S) :
  let info := make_CameraInfo S D to_double PI tan Width Height FieldOfView in
  let focal :=
    fdiv (fdiv (of_int Width) (of_int 2))
         (tan (fdiv (to_double (fmul (FOVX_of S Width Height FieldOfView) PI))
                    (of_int 360))) in
  K info !! 0%nat = Some focal /\
  K info !! 4%nat = Some focal /\
  K info !! 4%nat = K info !! 0%nat /\
  P info !! 5%nat = K info !! 4%nat /\
  P info !! 0%nat = K info !! 0%nat /\
  (Height <= Width ->
   forall Height', Height' <= Width ->
     K (make_CameraInfo S D to_double PI tan Width Height' FieldOfView) !! 4%nat =
       K info !! 4%nat).
Proof.
  cbv zeta. unfold make_CameraInfo, FOVX_of. cbn [K P].
  repeat (split; [reflexivity |]).
  intros Hh Height' Hh'.
  assert (H1 : (Width <? Height) = false) by (apply Z.ltb_ge; exact Hh).
  assert (H2 : (Width <? Height') = false) by (apply Z.ltb_ge; exact Hh').
  rewrite H1, H2. reflexivity.
Qed.

End CameraFacts.

(** ** ChannelProcessor *)

Module ChannelFacts.
Import ChannelSpec.

(** *** In binary32: what the compiled code returns *)

Lemma pow_cases_unit : pow_unit pow_cases.
Proof. intros x. reflexivity. Qed.

Lemma pow_cases_square : pow_square pow_cases.
Proof. intros x. reflexivity. Qed.

Lemma all_bytes (p : Z -> bool) :
  forallb p (counter 256) = true -> forall c, 0 <= c <= 255 -> p c = true.
Proof.
  intros Hall c Hc.
  apply (proj1 (forallb_forall p (counter 256)) Hall).
  apply in_counter. lia.
Qed.

Lemma float_eqb_eq (x y : spec_float) : float_eqb x y = true -> x = y.
Proof.
  destruct x as [s | s | | s m e], y as [s' | s' | | s' m' e'];
    cbn [float_eqb]; intros Heq; try discriminate Heq; try reflexivity.
  - apply Bool.eqb_prop in Heq. congruence.
  - apply Bool.eqb_prop in Heq. congruence.
  - apply andb_prop in Heq. destruct Heq as [Heq He].
    apply andb_prop in Heq. destruct Heq as [Hs Hm].
    apply Bool.eqb_prop in Hs. apply Pos.eqb_eq in Hm. apply Z.eqb_eq in He.
    congruence.
Qed.

(** In binary32, dividing a byte by 255 and multiplying back is exact, and so
    is the longer way of the [float] overloads. *)
Lemma byte_round_trip (c : Z) :
  0 <= c <= 255 ->
  fmul (a:=B32) (fdiv (a:=B32) (f32 c) (f32 255)) (f32 255) = f32 c.
Proof.
  intros Hc. apply float_eqb_eq.
  apply (all_bytes (fun c =>
           float_eqb (fmul (a:=B32) (fdiv (a:=B32) (f32 c) (f32 255)) (f32 255))
                     (f32 c)));
    [vm_compute; reflexivity | exact Hc].
Qed.

Lemma normalized_round_trip (c : Z) :
  0 <= c <= 255 ->
  fmul (a:=B32)
    (fmul (a:=B32) (fdiv (a:=B32) (normalized c) (f32 255)) (f32 255))
    (f32 255) = f32 c.
Proof.
  intros Hc. apply float_eqb_eq.
  apply (all_bytes (fun c =>
           float_eqb
             (fmul (a:=B32)
                (fmul (a:=B32) (fdiv (a:=B32) (normalized c) (f32 255)) (f32 255))
                (f32 255))
             (f32 c)));
    [vm_compute; reflexivity | exact Hc].
Qed.

(** With gamma = 1 the 8-bit overload is the tone mapping of the byte itself,
    whatever the contrast and the brightness. *)
Lemma ProcessChannel_unit_gamma Pow contrast brightness c :
  pow_unit Pow ->
  0 <= c <= 255 ->
  ProcessChannel_uint8 B32 Pow (f32 1) contrast brightness c =
    tone_and_pack B32 contrast brightness (f32 c).
Proof.
  intros Hpow Hc. unfold ProcessChannel_uint8.
  change (fdiv (a:=B32) (of_int 1) (f32 1)) with (f32 1).
  rewrite Hpow.
  change (fmul (a:=B32) (fdiv (a:=B32) (of_int c) (of_int 255)) (of_int 255))
    with (fmul (a:=B32) (fdiv (a:=B32) (f32 c) (f32 255)) (f32 255)).
  rewrite byte_round_trip by exact Hc. reflexivity.
Qed.

(** C3 as stated fails: with gamma = 1, contrast = 0 and brightness = 0 the
    channel value 0 is mapped to 128. *)
Lemma identity_parameters_counterexample :
  ~ (forall Pow, pow_unit Pow ->
       forall c, 0 <= c <= 255 ->
         ProcessChannel_uint8 B32 Pow (f32 1) (f32 0) (f32 0) c = c).
Proof.
  intros Hid.
  specialize (Hid pow_cases pow_cases_unit 0 ltac:(lia)).
  vm_compute in Hid. discriminate Hid.
Qed.

(** C3, amended.  With gamma = 1, contrast = 0 and brightness = 0 the 8-bit
    overload adds 128 and saturates: [ProcessChannel(c) = min(c + 128, 255)]
    for every channel value; it is the identity at brightness = -128. *)
Theorem ProcessChannel_identity_parameters Pow :
  pow_unit Pow ->
  forall c, 0 <= c <= 255 ->
    ProcessChannel_uint8 B32 Pow (f32 1) (f32 0) (f32 0) c = Z.min (c + 128) 255 /\
    ProcessChannel_uint8 B32 Pow (f32 1) (f32 0) (f32 (-128)) c = c.
Proof.
  intros Hpow c Hc.
  rewrite !ProcessChannel_unit_gamma by assumption.
  split.
  - apply Z.eqb_eq.
    apply (all_bytes (fun c =>
             tone_and_pack B32 (f32 0) (f32 0) (f32 c) =? Z.min (c + 128) 255));
      [vm_compute; reflexivity | exact Hc].
  - apply Z.eqb_eq.
    apply (all_bytes (fun c =>
             tone_and_pack B32 (f32 0) (f32 (-128)) (f32 c) =? c));
      [vm_compute; reflexivity | exact Hc].
Qed.

Lemma ProcessChannel_identity_parameters_witness :
  ProcessChannel_uint8 B32 pow_cases (f32 1) (f32 0) (f32 0) 100 = Z.min (100 + 128) 255 /\
  ProcessChannel_uint8 B32 pow_cases (f32 1) (f32 0) (f32 (-128)) 100 = 100.
Proof.
  exact (ProcessChannel_identity_parameters pow_cases pow_cases_unit 100
           ltac:(lia)).
Defined.

(** At the constructor's parameters (gamma = 1, contrast = 1, brightness = 0)
    the 8-bit overload doubles and saturates, as the exact formula does. *)
Lemma ProcessChannel_default_parameters Pow :
  pow_unit Pow ->
  forall c, 0 <= c <= 255 ->
    ProcessChannel_uint8 B32 Pow (f32 1) (f32 1) (f32 0) c = Z.min (2 * c) 255.
Proof.
  intros Hpow c Hc.
  rewrite ProcessChannel_unit_gamma by assumption.
  apply Z.eqb_eq.
  apply (all_bytes (fun c =>
           tone_and_pack B32 (f32 1) (f32 0) (f32 c) =? Z.min (2 * c) 255));
    [vm_compute; reflexivity | exact Hc].
Qed.

(** The [FFloat16] overload is the [float] overload on the converted value. *)
Lemma ProcessChannel_FFloat16_as_float
    (A : Arith) Pow (half_to_float : Z -> num A) gamma contrast brightness (h : Z) :
  ProcessChannel_FFloat16 A Pow half_to_float gamma contrast brightness h =
    ProcessChannel_float A Pow gamma contrast brightness (half_to_float h).
Proof. reflexivity. Qed.

(** With gamma = 1 the [float] overload on the normalized intensity returns
    the byte of the 8-bit overload, whatever the contrast and the brightness. *)
Lemma overloads_agree_at_unit_gamma Pow contrast brightness :
  pow_unit Pow ->
  forall c, 0 <= c <= 255 ->
    ProcessChannel_float B32 Pow (f32 1) contrast brightness (normalized c) =
      ProcessChannel_uint8 B32 Pow (f32 1) contrast brightness c.
Proof.
  intros Hpow c Hc.
  rewrite ProcessChannel_unit_gamma by assumption.
  unfold ProcessChannel_float.
  change (fdiv (a:=B32) (of_int 1) (f32 1)) with (f32 1).
  rewrite Hpow.
  change (fmul (a:=B32)
            (fmul (a:=B32) (fdiv (a:=B32) (normalized c) (of_int 255)) (of_int 255))
            (of_int 255))
    with (fmul (a:=B32)
            (fmul (a:=B32) (fdiv (a:=B32) (normalized c) (f32 255)) (f32 255))
            (f32 255)).
  rewrite normalized_round_trip by exact Hc. reflexivity.
Qed.

(** C4 (refuted on the code).  With gamma = 0.5 and the constructor's
    contrast 1 and brightness 0, the intensity 100 gives the byte 78 through
    the 8-bit overload and the byte 0 through the [float] overload (and so
    through the [FFloat16] overload): the [float] overloads divide the
    normalized channel by 255 before the power and multiply by 255 twice
    after it, which cancels only when gamma is 1. *)
Theorem overloads_differ_at_half_gamma Pow :
  pow_square Pow ->
  ProcessChannel_uint8 B32 Pow gamma_half (f32 1) (f32 0) 100 = 78 /\
  ProcessChannel_float B32 Pow gamma_half (f32 1) (f32 0) (normalized 100) = 0 /\
  (forall half_to_float h,
      half_to_float h = normalized 100 ->
      ProcessChannel_FFloat16 B32 Pow half_to_float gamma_half (f32 1) (f32 0) h = 0).
Proof.
  intros Hpow.
  assert (Hf : ProcessChannel_float B32 Pow gamma_half (f32 1) (f32 0) (normalized 100) = 0).
  { unfold ProcessChannel_float.
    change (fdiv (a:=B32) (of_int 1) gamma_half) with (f32 2).
    rewrite Hpow. vm_compute. reflexivity. }
  split; [| split].
  - unfold ProcessChannel_uint8.
    change (fdiv (a:=B32) (of_int 1) gamma_half) with (f32 2).
    rewrite Hpow. vm_compute. reflexivity.
  - exact Hf.
  - intros half_to_float h Hh.
    rewrite ProcessChannel_FFloat16_as_float, Hh. exact Hf.
Qed.

Lemma overloads_differ_at_half_gamma_witness :
  ProcessChannel_uint8 B32 pow_cases gamma_half (f32 1) (f32 0) 100 = 78 /\
  ProcessChannel_float B32 pow_cases gamma_half (f32 1) (f32 0) (normalized 100) = 0.
Proof.
  destruct (overloads_differ_at_half_gamma pow_cases pow_cases_square)
    as (Hbyte & Hfloat & _).
  split; [exact Hbyte | exact Hfloat].
Defined.

(** *** Gamma zero *)

(** C5 as stated fails: the result at gamma = 0 is decided by the value of
    the power function at the exponent [1 / 0]. *)
Lemma zero_gamma_counterexample : ~ guards_zero_gamma.
Proof.
  intros Hguard.
  specialize (Hguard pow_probe (fun x _ => x) (f32 1) (f32 0) 100).
  assert (Hagree : agree_on_finite_exponents pow_probe (fun x _ => x)).
  { intros x y Hy. destruct y as [s | s | | s m e]; try reflexivity.
    destruct (Hy s eq_refl). }
  specialize (Hguard Hagree). vm_compute in Hguard. discriminate Hguard.
Qed.

(** C5, amended.  [ProcessChannel] does not validate gamma.  When gamma is
    zero it evaluates [1 / gamma] in binary32, which is [+infinity] (and
    [-infinity] for a negative zero), and raises [c / 255] to that exponent:
    the byte returned is the tone mapping of [Pow(c/255, inf) * 255]. *)
Theorem ProcessChannel_zero_gamma Pow contrast brightness (c : Z) :
  fdiv (a:=B32) (f32 1) (S754_zero false) = S754_infinity false /\
  fdiv (a:=B32) (f32 1) (S754_zero true) = S754_infinity true /\
  ProcessChannel_uint8 B32 Pow (f32 0) contrast brightness c =
    tone_and_pack B32 contrast brightness
      (fmul (a:=B32) (Pow (normalized c) (S754_infinity false)) (f32 255)) /\
  ProcessChannel_uint8 B32 Pow (S754_zero true) contrast brightness c =
    tone_and_pack B32 contrast brightness
      (fmul (a:=B32) (Pow (normalized c) (S754_infinity true)) (f32 255)).
Proof.
  split; [vm_compute; reflexivity |].
  split; [vm_compute; reflexivity |].
  split.
  - unfold ProcessChannel_uint8.
    change (fdiv (a:=B32) (of_int 1) (f32 0)) with (S754_infinity false).
    reflexivity.
  - unfold ProcessChannel_uint8.
    change (fdiv (a:=B32) (of_int 1) (S754_zero true)) with (S754_infinity true).
    reflexivity.
Qed.

(** With a power function that follows C at the exponent [+infinity], a zero
    gamma leaves two levels: every intensity below 255 is tone-mapped as 0,
    and 255 as 255. *)
Lemma zero_gamma_two_levels Pow contrast brightness (c : Z) :
  pow_at_infinity Pow ->
  0 <= c <= 255 ->
  ProcessChannel_uint8 B32 Pow (f32 0) contrast brightness c =
    tone_and_pack B32 contrast brightness (if c <? 255 then f32 0 else f32 255).
Proof.
  intros [Hbelow Hone] Hc.
  unfold ProcessChannel_uint8.
  change (fdiv (a:=B32) (of_int 1) (f32 0)) with (S754_infinity false).
  change (fdiv (a:=B32) (of_int c) (of_int 255)) with (normalized c).
  destruct (Z.ltb_spec c 255) as [Hlt | Hge].
  - pose proof (all_bytes
      (fun c => (254 <? c) || SFltb (SFabs (normalized c)) (f32 1))
      ltac:(vm_compute; reflexivity) c Hc) as Hsmall.
    cbv beta in Hsmall.
    assert (Hb : (254 <? c) = false) by (apply Z.ltb_ge; lia).
    rewrite Hb in Hsmall. cbn [orb] in Hsmall.
    rewrite (Hbelow _ Hsmall). reflexivity.
  - assert (c = 255) by lia. subst c.
    change (normalized 255) with (f32 1). rewrite Hone. reflexivity.
Qed.

End ChannelFacts.

(** ** ChannelProcessor: the 8-bit overload in binary32 *)

Module ChannelBinary32Facts.
Import ChannelSpec ChannelBinary32.

(** *** Every binary32 operation returns a binary32 value *)

Lemma digits2_pos_bound (p : positive) : Zpos p < 2 ^ Zpos (digits2_pos p).
Proof.
  induction p as [p IH | p IH |]; cbn [digits2_pos].
  - rewrite Pos2Z.inj_succ, Z.pow_succ_r by lia. lia.
  - rewrite Pos2Z.inj_succ, Z.pow_succ_r by lia. lia.
  - reflexivity.
Qed.

Lemma shr_1_half (mrs : shr_record) :
  0 <= shr_m mrs -> shr_m (shr_1 mrs) = shr_m mrs / 2.
Proof.
  destruct mrs as [m r s]. cbn [shr_m]. intros Hm.
  rewrite <- Z.div2_div.
  destruct m as [| [p | p |] | p]; try reflexivity; lia.
Qed.

Lemma iter_shr_1 (n : positive) :
  forall mrs : shr_record,
    0 <= shr_m mrs ->
    shr_m (SpecFloat.iter_pos shr_1 n mrs) = shr_m mrs / 2 ^ Zpos n.
Proof.
  induction n as [n IH | n IH |]; intros mrs Hm; cbn [SpecFloat.iter_pos].
  - assert (H1 : 0 <= shr_m (shr_1 mrs))
      by (rewrite shr_1_half by exact Hm; apply Z.div_pos; lia).
    assert (H2 : 0 <= shr_m (SpecFloat.iter_pos shr_1 n (shr_1 mrs)))
      by (rewrite IH by exact H1; apply Z.div_pos; lia).
    rewrite IH by exact H2. rewrite IH by exact H1. rewrite shr_1_half by exact Hm.
    rewrite !Z.div_div by lia. f_equal.
    assert (E : 2 ^ Z.pos n~1 = 2 * 2 ^ Z.pos n * 2 ^ Z.pos n).
    { rewrite <- Z.mul_assoc, <- Z.pow_add_r, <- Z.pow_succ_r by lia. f_equal. lia. }
    rewrite E. ring.
  - assert (H2 : 0 <= shr_m (SpecFloat.iter_pos shr_1 n mrs))
      by (rewrite IH by exact Hm; apply Z.div_pos; lia).
    rewrite IH by exact H2. rewrite IH by exact Hm.
    rewrite Z.div_div by lia. f_equal.
    rewrite <- Z.pow_add_r by lia. f_equal. lia.
  - rewrite shr_1_half by exact Hm. reflexivity.
Qed.

Lemma shr_fexp_bound (m e : Z) (l : location) :
  0 <= m ->
  0 <= shr_m (fst (shr_fexp 24 128 m e l)) < 2 ^ 24.
Proof.
  intros Hm. unfold shr_fexp, shr.
  assert (Hrec : shr_m (shr_record_of_loc m l) = m)
    by (destruct l as [| []]; reflexivity).
  destruct (fexp 24 128 (Zdigits2 m + e) - e) as [| q | q] eqn:Hn; cbn [fst].
  - rewrite Hrec. split; [exact Hm |].
    destruct m as [| p | p]; [reflexivity | | lia].
    cbn [Zdigits2] in Hn. unfold fexp in Hn.
    pose proof (digits2_pos_bound p) as Hd.
    assert (Z.pos (digits2_pos p) <= 24) by lia.
    assert (2 ^ Z.pos (digits2_pos p) <= 2 ^ 24) by (apply Z.pow_le_mono_r; lia).
    lia.
  - rewrite iter_shr_1 by (rewrite Hrec; exact Hm). rewrite Hrec.
    split; [apply Z.div_pos; lia |].
    apply Z.div_lt_upper_bound; [lia |].
    destruct m as [| p | p]; [lia | | lia].
    cbn [Zdigits2] in Hn. unfold fexp in Hn.
    pose proof (digits2_pos_bound p) as Hd.
    assert (Z.pos (digits2_pos p) <= Z.pos q + 24) by lia.
    assert (2 ^ Z.pos (digits2_pos p) <= 2 ^ (Z.pos q + 24))
      by (apply Z.pow_le_mono_r; lia).
    rewrite Z.pow_add_r in * by lia. lia.
  - rewrite Hrec. split; [exact Hm |].
    destruct m as [| p | p]; [reflexivity | | lia].
    cbn [Zdigits2] in Hn. unfold fexp in Hn.
    pose proof (digits2_pos_bound p) as Hd.
    assert (Z.pos (digits2_pos p) <= 24) by lia.
    assert (2 ^ Z.pos (digits2_pos p) <= 2 ^ 24) by (apply Z.pow_le_mono_r; lia).
    lia.
Qed.

Lemma round_nearest_even_nonneg (m : Z) (l : location) :
  0 <= m -> 0 <= round_nearest_even m l.
Proof.
  intros Hm. destruct l as [| []]; cbn [round_nearest_even]; try lia.
  destruct (Z.even m); lia.
Qed.

Lemma binary_round_aux_binary32 (sx : bool) (mx ex : Z) (lx : location) :
  0 <= mx -> is_binary32 (binary_round_aux 24 128 sx mx ex lx) = true.
Proof.
  intros Hm. unfold binary_round_aux.
  pose proof (shr_fexp_bound mx ex lx Hm) as H1.
  destruct (shr_fexp 24 128 mx ex lx) as [mrs' e'] eqn:Hs1. cbn [fst] in H1.
  pose proof (shr_fexp_bound
                (round_nearest_even (shr_m mrs') (loc_of_shr_record mrs')) e' loc_Exact
                (round_nearest_even_nonneg _ _ (proj1 H1))) as H2.
  destruct (shr_fexp 24 128 _ e' loc_Exact) as [mrs'' e''] eqn:Hs2. cbn [fst] in H2.
  destruct (shr_m mrs'') as [| m | m]; try reflexivity.
  destruct (e'' <=? 128 - 24); [| reflexivity].
  cbn [is_binary32]. apply Z.ltb_lt. lia.
Qed.

Lemma binary_round_binary32 (sx : bool) (mx : positive) (ex : Z) :
  is_binary32 (binary_round 24 128 sx mx ex) = true.
Proof.
  unfold binary_round. destruct (shl_align _ _ _) as [mz ez].
  apply binary_round_aux_binary32. lia.
Qed.

Lemma binary_normalize_binary32 (m e : Z) (szero : bool) :
  is_binary32 (binary_normalize 24 128 m e szero) = true.
Proof.
  destruct m; cbn [binary_normalize]; [reflexivity | |]; apply binary_round_binary32.
Qed.

Lemma SFmul_binary32 (x y : spec_float) : is_binary32 (SFmul 24 128 x y) = true.
Proof.
  destruct x as [sx | sx | | sx mx ex], y as [sy | sy | | sy my ey];
    cbn [SFmul]; try reflexivity.
  apply binary_round_aux_binary32. lia.
Qed.

Lemma SFadd_binary32 (x y : spec_float) :
  is_binary32 x = true -> is_binary32 y = true ->
  is_binary32 (SFadd 24 128 x y) = true.
Proof.
  intros Hx Hy.
  destruct x as [sx | sx | | sx mx ex], y as [sy | sy | | sy my ey];
    cbn [SFadd]; try reflexivity; try assumption.
  - destruct sx, sy; reflexivity.
  - destruct sx, sy; reflexivity.
  - apply binary_normalize_binary32.
Qed.

(** *** Rounding to a byte *)

Lemma f32_255 : f32 255 = S754_finite false 16711680 (-16).
Proof. vm_compute. reflexivity. Qed.

Lemma f32_0 : f32 0 = S754_zero false.
Proof. vm_compute. reflexivity. Qed.

Lemma pos_pow_two (p : positive) : Z.pos (2 ^ p) = 2 ^ Z.pos p.
Proof. apply Pos2Z.inj_pow. Qed.

Lemma round_half_away_error (m p : positive) :
  let d := 2 ^ Z.pos p in
  let z := IEEE.round_half_away m (Z.neg p) in
  - d <= 2 * (z * d - Z.pos m) <= d.
Proof.
  cbv zeta. unfold IEEE.round_half_away.
  assert (Hh : 2 ^ Z.pos p = 2 * 2 ^ (Z.pos p - 1)).
  { rewrite <- Z.pow_succ_r by lia. f_equal. lia. }
  assert (Hpos : 0 < 2 ^ (Z.pos p - 1)) by (apply Z.pow_pos_nonneg; lia).
  set (h := 2 ^ (Z.pos p - 1)) in *.
  rewrite Hh.
  assert (E2 : 2 * h / 2 = h) by (rewrite Z.mul_comm; apply Z.div_mul; lia).
  rewrite E2.
  pose proof (Z.div_mod (Z.pos m + h) (2 * h) ltac:(lia)) as Hdm.
  pose proof (Z.mod_pos_bound (Z.pos m + h) (2 * h) ltac:(lia)) as Hr.
  nia.
Qed.

(** [std::round] returns an integer nearest to the value. *)
Lemma round_to_Z_nearest (x : spec_float) :
  (Qabs (inject_Z (IEEE.round_to_Z x) - IEEE.to_Q x) <= 1 # 2)%Q.
Proof.
  apply Qabs_Qle_condition.
  destruct x as [s | s | | s m e]; cbn [IEEE.round_to_Z IEEE.to_Q];
    try (split; discriminate).
  destruct e as [| p | p].
  - assert (E : (inject_Z (if s then - IEEE.round_half_away m 0
                          else IEEE.round_half_away m 0)
                 - (if s then - inject_Z (Z.pos m * 2 ^ 0)
                    else inject_Z (Z.pos m * 2 ^ 0)) == 0)%Q).
    { destruct s; cbn [IEEE.round_half_away]; unfold Qeq, Qminus, Qplus, Qopp, inject_Z;
        cbn [Qnum Qden]; lia. }
    rewrite E. split; discriminate.
  - assert (E : (inject_Z (if s then - IEEE.round_half_away m (Z.pos p)
                          else IEEE.round_half_away m (Z.pos p))
                 - (if s then - inject_Z (Z.pos m * 2 ^ Z.pos p)
                    else inject_Z (Z.pos m * 2 ^ Z.pos p)) == 0)%Q).
    { destruct s; cbn [IEEE.round_half_away]; unfold Qeq, Qminus, Qplus, Qopp, inject_Z;
        cbn [Qnum Qden]; lia. }
    rewrite E. split; discriminate.
  - pose proof (round_half_away_error m p) as Herr. cbv zeta in Herr.
    destruct s; unfold Qle, Qminus, Qplus, Qopp, inject_Z; cbn [Qnum Qden];
      rewrite ?Pos2Z.inj_mul, ?pos_pow_two; split; lia.
Qed.

(** A binary32 value that is neither above 255 nor below 0 is rounded to a
    byte. *)
Lemma round_to_Z_byte (x : spec_float) :
  is_binary32 x = true -> x <> S754_nan ->
  flt (a:=B32) (f32 255) x = false -> flt (a:=B32) x (f32 0) = false ->
  0 <= IEEE.round_to_Z x <= 255.
Proof.
  intros Hb Hnan Hhi Hlo. rewrite f32_255 in Hhi. rewrite f32_0 in Hlo.
  destruct x as [s | s | | s m e]; cbn [IEEE.round_to_Z]; try lia.
  - cbn [is_binary32] in Hb. apply Z.ltb_lt in Hb.
    cbn [flt B32 IEEE.make] in Hhi, Hlo. unfold SFltb, SFcompare in Hhi, Hlo.
    destruct s; [discriminate Hlo |].
    destruct (Z.compare_spec (-16) e) as [He | He | He]; try discriminate Hhi.
    + subst e.
      destruct (Pos.compare_cont Eq 16711680 m) eqn:Hm; try discriminate Hhi.
      * apply Pos.compare_eq in Hm. subst m. vm_compute. split; discriminate.
      * apply Pos.compare_gt_iff in Hm.
        assert (Hm' : Z.pos m < 16711680) by (apply Pos2Z.pos_lt_pos; exact Hm).
        clear Hm.
        unfold IEEE.round_half_away. change (2 ^ Z.pos 16) with 65536.
        change (65536 / 2) with 32768.
        split; [apply Z.div_pos; lia |].
        assert ((Z.pos m + 32768) / 65536 < 256)
          by (apply Z.div_lt_upper_bound; lia).
        lia.
    + destruct e as [| p | p]; try lia.
      unfold IEEE.round_half_away.
      assert (Hd : 2 ^ 17 <= 2 ^ Z.pos p) by (apply Z.pow_le_mono_r; lia).
      change (2 ^ 17) with 131072 in Hd.
      assert (Hhalf : 0 <= 2 ^ Z.pos p / 2 <= 2 ^ Z.pos p).
      { split; [apply Z.div_pos; lia | apply Z.div_le_upper_bound; lia]. }
      split; [apply Z.div_pos; lia |].
      assert ((Z.pos m + 2 ^ Z.pos p / 2) / 2 ^ Z.pos p < 256)
        by (apply Z.div_lt_upper_bound; lia).
      lia.
Qed.

(** *** The statements of [ProcessChannel(const uint8 &)] *)

(** The overload is its four statements, one after the other. *)
Lemma ProcessChannel_uint8_steps Pow gamma contrast brightness c :
  ProcessChannel_uint8 B32 Pow gamma contrast brightness c =
    cast_uint8 (IEEE.round_to_Z
                  (clamped32 (toned32 contrast brightness (gamma32 Pow gamma c)))).
Proof. reflexivity. Qed.

Lemma toned32_binary32 contrast brightness g :
  is_binary32 g = true -> is_binary32 brightness = true ->
  is_binary32 (toned32 contrast brightness g) = true.
Proof.
  intros Hg Hb. unfold toned32. cbn [fadd fmul fsub B32 IEEE.make].
  apply SFadd_binary32; [exact Hg |].
  apply SFadd_binary32; [| exact Hb].
  apply SFadd_binary32; [apply SFmul_binary32 | reflexivity].
Qed.

Lemma clamped32_byte (out : spec_float) :
  is_binary32 out = true -> out <> S754_nan ->
  0 <= IEEE.round_to_Z (clamped32 out) <= 255 /\
  (0 <= IEEE.to_Q (clamped32 out) <= 255)%Q.
Proof.
  intros Hb Hnan. unfold clamped32.
  destruct (flt (a:=B32) (f32 255) out) eqn:Hhi.
  - split; [vm_compute; split; discriminate | vm_compute; split; discriminate].
  - destruct (flt (a:=B32) out (f32 0)) eqn:Hlo.
    + split; [vm_compute; split; discriminate | vm_compute; split; discriminate].
    + split; [exact (round_to_Z_byte out Hb Hnan Hhi Hlo) |].
      rewrite f32_255 in Hhi. rewrite f32_0 in Hlo.
      destruct out as [s | s | | s m e]; cbn [IEEE.to_Q];
        try (split; discriminate).
      cbn [is_binary32] in Hb. apply Z.ltb_lt in Hb.
      cbn [flt B32 IEEE.make] in Hhi, Hlo. unfold SFltb, SFcompare in Hhi, Hlo.
      destruct s; [discriminate Hlo |].
      destruct (Z.compare_spec (-16) e) as [He | He | He]; try discriminate Hhi.
      * subst e.
        assert (Hm' : Z.pos m <= 16711680).
        { destruct (Pos.compare_cont Eq 16711680 m) eqn:Hm; try discriminate Hhi.
          - apply Pos.compare_eq in Hm. subst m. lia.
          - apply Pos.compare_gt_iff in Hm. apply Pos2Z.pos_lt_pos in Hm. lia. }
        clear Hhi. unfold Qle. cbn [Qnum Qden]. split; lia.
      * destruct e as [| p | p]; try lia.
        assert (Hd : 2 ^ 17 <= 2 ^ Z.pos p) by (apply Z.pow_le_mono_r; lia).
        change (2 ^ 17) with 131072 in Hd.
        unfold Qle. cbn [Qnum Qden]. rewrite pos_pow_two. split; lia.
Qed.

(** C2, amended.  The 8-bit overload of [ProcessChannel] evaluates the
    formula in binary32, every operation rounded: [out = Pow(c / 255.f,
    1 / gamma) * 255.f], then [out + (((contrast * (out - 128)) + 128) +
    brightness)], then the clamp.  For every power function and all
    parameters for which that value is not a NaN, the byte returned is
    [std::round] of the clamped binary32 value: it lies in [0, 255] (the cast
    does not wrap), it is within 1/2 of the clamped value, it is 255 when the
    value is above 255, 0 when it is below 0, and the clamp leaves a value in
    between as it is. *)
Theorem ProcessChannel_binary32
    (Pow : spec_float -> spec_float -> spec_float)
    (gamma contrast brightness : spec_float) (c : Z) :
  is_binary32 brightness = true ->
  toned32 contrast brightness (gamma32 Pow gamma c) <> S754_nan ->
  let out := toned32 contrast brightness (gamma32 Pow gamma c) in
  let byte := ProcessChannel_uint8 B32 Pow gamma contrast brightness c in
  byte = IEEE.round_to_Z (clamped32 out) /\
  0 <= byte <= 255 /\
  (0 <= IEEE.to_Q (clamped32 out) <= 255)%Q /\
  (Qabs (inject_Z byte - IEEE.to_Q (clamped32 out)) <= 1 # 2)%Q /\
  (flt (a:=B32) (f32 255) out = true -> byte = 255) /\
  (flt (a:=B32) (f32 255) out = false -> flt (a:=B32) out (f32 0) = true -> byte = 0) /\
  (flt (a:=B32) (f32 255) out = false -> flt (a:=B32) out (f32 0) = false ->
   clamped32 out = out).
Proof.
  intros Hb Hnan. cbv zeta.
  set (out := toned32 contrast brightness (gamma32 Pow gamma c)) in *.
  assert (Hout : is_binary32 out = true).
  { apply toned32_binary32; [| exact Hb]. apply SFmul_binary32. }
  destruct (clamped32_byte out Hout Hnan) as [Hbyte Hrange].
  assert (Heq : ProcessChannel_uint8 B32 Pow gamma contrast brightness c
                = IEEE.round_to_Z (clamped32 out)).
  { rewrite ProcessChannel_uint8_steps. fold out. unfold cast_uint8.
    apply Z.mod_small. lia. }
  rewrite Heq.
  split; [reflexivity |]. split; [exact Hbyte |]. split; [exact Hrange |].
  split; [apply round_to_Z_nearest |].
  unfold clamped32.
  split; [| split].
  - intros ->. vm_compute. reflexivity.
  - intros -> ->. vm_compute. reflexivity.
  - intros -> ->. reflexivity.
Qed.

Lemma ProcessChannel_binary32_witness :
  ProcessChannel_uint8 B32 pow_cases (f32 1) tenth (f32 0) 3 = 119 /\
  clamped32 (toned32 tenth (f32 0) (gamma32 pow_cases (f32 1) 3)) =
    toned32 tenth (f32 0) (gamma32 pow_cases (f32 1) 3).
Proof.
  destruct (ProcessChannel_binary32 pow_cases (f32 1) tenth (f32 0) 3)
    as (Hbyte & _ & _ & _ & _ & _ & Hin).
  - reflexivity.
  - vm_compute. discriminate.
  - split.
    + rewrite Hbyte. vm_compute. reflexivity.
    + apply Hin; vm_compute; reflexivity.
Defined.

(** C2 as stated fails: the byte is not always the rounding of the formula
    evaluated in real numbers.  At gamma 1, contrast [0.1f], brightness 0 and
    [c = 3] the code returns 119; the formula gives 118.4999998, which
    rounds to 118. *)
Lemma exact_formula_counterexample : ~ follows_exact_formula.
Proof.
  intros Hclaim.
  specialize (Hclaim pow_cases ChannelFacts.pow_cases_unit tenth (f32 0) 3
                eq_refl eq_refl ltac:(lia)).
  assert (Hbyte : ProcessChannel_uint8 B32 pow_cases (f32 1) tenth (f32 0) 3 = 119)
    by (vm_compute; reflexivity).
  rewrite Hbyte in Hclaim.
  assert (Hk : to_R tenth = (13421773 / 134217728)%R).
  { unfold to_R.
    assert (Hq : IEEE.to_Q tenth = (13421773 # 134217728)%Q) by (vm_compute; reflexivity).
    rewrite Hq. unfold Q2R. cbn [Qnum Qden]. reflexivity. }
  assert (Hz : to_R (f32 0) = 0%R).
  { unfold to_R.
    assert (Hq : IEEE.to_Q (f32 0) = 0%Q) by (vm_compute; reflexivity).
    rewrite Hq. unfold Q2R. cbn [Qnum Qden]. lra. }
  unfold nearest_integer, spec_tone, spec_clamp in Hclaim.
  rewrite Hk, Hz in Hclaim.
  replace (1 / 1)%R with 1%R in Hclaim by lra.
  rewrite Rpower_1 in Hclaim by lra.
  unfold Rmax, Rmin in Hclaim.
  repeat match type of Hclaim with
         | context [Rle_dec ?a ?b] => destruct (Rle_dec a b)
         end;
    unfold Rabs in Hclaim;
    destruct (Rcase_abs _) in Hclaim; lra.
Qed.

End ChannelBinary32Facts.

(** ** ColorPaletteGenerator *)

Module PaletteFacts.

Lemma to_int32_wrap32 (z : Z) : to_int32 (wrap32 z) = to_int32 z.
Proof.
  unfold to_int32, wrap32. rewrite Z.mod_mod by lia. reflexivity.
Qed.

Lemma grow_counts_done fuel N HueCount SatCount ValCount left :
  left <= 0 ->
  grow_counts fuel N HueCount SatCount ValCount left = Some (SatCount, ValCount).
Proof.
  intros Hleft.
  assert (Hb : (0 <? left) = false) by (apply Z.ltb_ge; exact Hleft).
  destruct fuel; cbn [grow_counts]; rewrite Hb; reflexivity.
Qed.

(** The deficit after a multiplication, when nothing wraps. *)
Lemma deficit_exact (N a b : Z) :
  0 <= a -> 0 <= b -> a * b * 50 < 2 ^ 32 ->
  - 2 ^ 31 <= N - 50 * a * b < 2 ^ 31 ->
  to_int32 (usub32 N (umul32 (umul32 a b) 50)) = N - 50 * a * b.
Proof.
  intros Ha Hb Hsmall Hrange.
  unfold usub32, umul32.
  assert (Hab : 0 <= a * b) by (apply Z.mul_nonneg_nonneg; assumption).
  rewrite (wrap32_small (a * b)) by lia.
  rewrite (wrap32_small (a * b * 50)) by lia.
  rewrite to_int32_wrap32.
  replace (N - a * b * 50) with (N - 50 * a * b) by ring.
  apply to_int32_exact. exact Hrange.
Qed.

(** The loop, entered with both counts at [k] and [50 k^2] colors short of
    the request, ends with enough colors. *)
Lemma grow_counts_reaches (fuel : nat) :
  forall N k : Z,
    1 <= k -> 50 * k * k < N -> N < 2 ^ 31 + 50 ->
    Z.sqrt N < Z.of_nat fuel + k ->
    exists SatCount ValCount : Z,
      grow_counts fuel N 50 k k (N - 50 * k * k) = Some (SatCount, ValCount) /\
      N <= 50 * SatCount * ValCount /\
      k <= SatCount /\ SatCount <= ValCount <= SatCount + 1 /\
      50 * SatCount * ValCount < N + 50 * ValCount /\ ValCount <= 6554.
Proof.
  induction fuel as [| fuel IH]; intros N k Hk Hshort HN Hfuel.
  - exfalso.
    assert (HN0 : 0 <= N) by nia.
    pose proof (Z.sqrt_spec N HN0) as Hs. cbv zeta in Hs.
    assert (Z.sqrt N + 1 <= k) by lia. nia.
  - assert (Hk6 : k < 6554) by nia.
    assert (Hpos : (0 <? N - 50 * k * k) = true) by (apply Z.ltb_lt; lia).
    cbn [grow_counts]. rewrite Hpos.
    rewrite (wrap32_small (k + 1)) by lia.
    rewrite (deficit_exact N k (k + 1)) by nia.
    destruct (Z.ltb_spec 0 (N - 50 * k * (k + 1))) as [Hmore | Henough].
    + rewrite (deficit_exact N (k + 1) (k + 1)) by nia.
      destruct (Z_lt_le_dec 0 (N - 50 * (k + 1) * (k + 1))) as [Hmore2 | Henough2].
      * destruct (IH N (k + 1)) as (s & v & Hrun & Hge & Hks & Hsv & Hup & Hv);
          try lia.
        exists s, v. repeat split; try lia. exact Hrun.
      * exists (k + 1), (k + 1). rewrite grow_counts_done by exact Henough2.
        repeat split; lia.
    + exists k, (k + 1). rewrite grow_counts_done by exact Henough.
      repeat split; lia.
Qed.

(** A request the signed deficit can express is met, and the loop ends. *)
Lemma palette_counts_sufficient (N : Z) :
  1 <= N < 2 ^ 31 + 50 ->
  exists SatCount ValCount : Z,
    palette_counts N = Some (SatCount, ValCount) /\
    N <= MaxHue * SatCount * ValCount /\
    1 <= SatCount /\ SatCount <= ValCount <= SatCount + 1 /\
    MaxHue * SatCount * ValCount < N + 327750.
Proof.
  intros HN. unfold palette_counts, MaxHue.
  destruct (Z_le_gt_dec N 50) as [Hsmall | Hbig].
  - exists 1, 1.
    assert (Hl : to_int32 (usub32 N 50) = N - 50).
    { unfold usub32. rewrite to_int32_wrap32. apply to_int32_exact. lia. }
    rewrite Hl. rewrite Z.max_l by lia.
    rewrite grow_counts_done by lia. repeat split; lia.
  - assert (Hl : to_int32 (usub32 N 50) = N - 50).
    { unfold usub32. rewrite to_int32_wrap32. apply to_int32_exact. lia. }
    rewrite Hl. rewrite Z.max_r by lia.
    destruct (grow_counts_reaches (grow_fuel N) N 1)
      as (s & v & Hrun & Hge & Hs & Hsv & Hup & Hv); try lia.
    { unfold grow_fuel. pose proof (Z.sqrt_nonneg N). lia. }
    exists s, v. replace (N - 50 * 1 * 1) with (N - 50) in Hrun by ring.
    repeat split; try lia. exact Hrun.
Qed.

(** Beyond that the deficit is negative as an [int32_t] and nothing grows. *)
Lemma palette_counts_saturated (N : Z) :
  2 ^ 31 + 50 <= N < 2 ^ 32 -> palette_counts N = Some (1, 1).
Proof.
  intros HN. unfold palette_counts, MaxHue.
  assert (Hl : to_int32 (usub32 N 50) = N - 50 - 2 ^ 32).
  { unfold usub32. rewrite to_int32_wrap32. unfold to_int32.
    rewrite (wrap32_small (N - 50)) by lia.
    destruct (Z.ltb_spec (N - 50) (2 ^ 31)); lia. }
  rewrite Hl. rewrite Z.max_l by lia.
  apply grow_counts_done. lia.
Qed.

(** The loop of [GenerateColors] ends for every [uint32_t] request. *)
Lemma palette_counts_terminates (N : Z) :
  is_uint32 N -> exists counts, palette_counts N = Some counts.
Proof.
  intros [H0 H32].
  destruct (Z_lt_le_dec N 1) as [Hz | H1].
  - assert (N = 0) by lia. subst N. eexists. vm_compute. reflexivity.
  - destruct (Z_lt_le_dec N (2 ^ 31 + 50)) as [Hlow | Hhigh].
    + destruct (palette_counts_sufficient N) as (s & v & Hrun & _); [lia |].
      eexists. exact Hrun.
    + eexists. apply palette_counts_saturated. lia.
Qed.

Lemma length_flat_map_const {X Y : Type} (f : X -> list Y) (l : list X) (n : nat) :
  (forall x, length (f x) = n) -> length (flat_map f l) = (length l * n)%nat.
Proof.
  intros Hf. induction l as [| x l IH]; [reflexivity |].
  cbn [flat_map]. rewrite length_app, Hf, IH. cbn [length]. lia.
Qed.

Lemma length_palette_of_counts
    (A : Arith) (Color : Type) (f : num A -> num A -> num A -> Color)
    (HueCount SatCount ValCount : Z) :
  0 <= HueCount -> 0 <= SatCount -> 0 <= ValCount ->
  Z.of_nat (length (palette_of_counts A Color f HueCount SatCount ValCount)) =
    HueCount * SatCount * ValCount.
Proof.
  intros Hh Hs Hv. unfold palette_of_counts. cbv zeta.
  rewrite (length_flat_map_const _ _ (Z.to_nat ValCount * Z.to_nat HueCount)).
  - rewrite length_counter. nia.
  - intros s. rewrite (length_flat_map_const _ _ (Z.to_nat HueCount)).
    + rewrite length_counter. reflexivity.
    + intros v. rewrite length_map. apply length_counter.
Qed.

(** What one call appends, for a request up to 2^31 + 49 (0 included). *)
Lemma GenerateColors_appends
    (A : Arith) (Color : Type) (f : num A -> num A -> num A -> Color)
    (N : Z) (ObjectColors : list Color) :
  0 <= N < 2 ^ 31 + 50 ->
  exists generated : list Color,
    GenerateColors A Color f N ObjectColors = Some (ObjectColors ++ generated) /\
    N <= Z.of_nat (length generated) /\
    50 <= Z.of_nat (length generated) < N + 327750.
Proof.
  intros HN. unfold GenerateColors.
  destruct (Z_lt_le_dec N 1) as [Hz | H1].
  - assert (N = 0) by lia. subst N.
    change (palette_counts 0) with (Some (1, 1)).
    exists (palette_of_counts A Color f MaxHue 1 1).
    rewrite length_palette_of_counts by (unfold MaxHue; lia).
    unfold MaxHue. repeat split; lia.
  - destruct (palette_counts_sufficient N) as (s & v & Hrun & Hge & Hs & Hsv & Hup);
      [lia |].
    rewrite Hrun. exists (palette_of_counts A Color f MaxHue s v).
    rewrite length_palette_of_counts by (unfold MaxHue; lia).
    unfold MaxHue in *. repeat split; lia.
Qed.

(** The requests the specification lists. *)
Lemma palette_counts_listed :
  map palette_counts [1; 10; 49; 50; 51; 200] =
    [Some (1, 1); Some (1, 1); Some (1, 1); Some (1, 1); Some (1, 2); Some (2, 2)].
Proof. vm_compute. reflexivity. Qed.



End PaletteFacts.

(** ** Object-id assignment *)

Section TableFacts.

Variable A : Arith.
Variable Color : Type.
Variable HSVToFColor : num A -> num A -> num A -> Color.
Context `{Countable Name}.

Implicit Types t : ColorTable Color (Name:=Name).

Lemma extends_refl t : extends t t.
Proof. split; [auto | lia]. Qed.

Lemma extends_trans t1 t2 t3 : extends t1 t2 -> extends t2 t3 -> extends t1 t3.
Proof. intros [Ha Hb] [Hc Hd]. split; [auto | lia]. Qed.

Lemma wrap32_succ_mono (u bound : Z) : u < wrap32 bound -> u <= wrap32 (u + 1).
Proof.
  intros Hu. pose proof (wrap32_range bound) as Hb.
  destruct (Z_lt_le_dec u 0) as [Hneg | Hnn].
  - pose proof (wrap32_range (u + 1)). lia.
  - rewrite wrap32_small by lia. lia.
Qed.

Lemma color_actor_extends t (ActorName : Name) t1 :
  color_actor Color t ActorName = Some t1 ->
  extends t t1 /\
  (forall name : Name,
      ObjectToColor t !! name = None -> is_Some (ObjectToColor t1 !! name) ->
      name = ActorName).
Proof.
  unfold color_actor. intros Hstep.
  destruct (ObjectToColor t !! ActorName) as [id |] eqn:Hfound.
  - injection Hstep as <-. split; [apply extends_refl |].
    intros name Hnone [k Hk]. congruence.
  - destruct (Z.ltb_spec (ColorsUsed t) (wrap32 (Z.of_nat (length (ObjectColors t)))))
      as [Hroom | Hfull]; [| discriminate Hstep].
    injection Hstep as <-. unfold extends. cbn [ObjectToColor ColorsUsed].
    split; [split |].
    + intros name k Hk.
      destruct (decide (ActorName = name)) as [-> | Hne]; [congruence |].
      rewrite lookup_insert_ne by exact Hne. exact Hk.
    + eapply wrap32_succ_mono. exact Hroom.
    + intros name Hnone [k Hk].
      destruct (decide (ActorName = name)) as [-> | Hne]; [reflexivity |].
      rewrite lookup_insert_ne in Hk by exact Hne. congruence.
Qed.

Lemma color_actors_extends (actors : list Name) :
  forall t t' painted,
    color_actors Color t actors = Some (t', painted) ->
    extends t t' /\
    (forall name : Name,
        ObjectToColor t !! name = None -> is_Some (ObjectToColor t' !! name) ->
        name ∈ actors).
Proof.
  induction actors as [| ActorName rest IH]; intros t t' painted Hrun.
  - injection Hrun as <- <-. split; [apply extends_refl |].
    intros name Hnone [k Hk]. congruence.
  - cbn [color_actors] in Hrun.
    destruct (color_actor Color t ActorName) as [t1 |] eqn:Hstep; [| discriminate Hrun].
    destruct (ColorObject Color t1 ActorName) as [c |]; [| discriminate Hrun].
    destruct (color_actors Color t1 rest) as [[t2 painted'] |] eqn:Hrest;
      [| discriminate Hrun].
    injection Hrun as <- <-.
    destruct (color_actor_extends _ _ _ Hstep) as [Hext1 Hnew1].
    destruct (IH _ _ _ Hrest) as [Hext2 Hnew2].
    split; [eapply extends_trans; eassumption |].
    intros name Hnone Hsome.
    destruct (ObjectToColor t1 !! name) as [k1 |] eqn:Hmid.
    + rewrite (Hnew1 name Hnone (ex_intro _ k1 Hmid)). apply list_elem_of_here.
    + apply list_elem_of_further. apply Hnew2; assumption.
Qed.

Lemma ColorAllObjects_extends t (actors : list Name) t' painted :
  ColorAllObjects A Color HSVToFColor t actors = Some (t', painted) ->
  extends t t' /\
  (forall name : Name,
      ObjectToColor t !! name = None -> is_Some (ObjectToColor t' !! name) ->
      name ∈ actors).
Proof.
  unfold ColorAllObjects. cbv zeta. intros Hrun.
  destruct (GenerateColors A Color HSVToFColor _ (ObjectColors t)) as [colors |];
    [| discriminate Hrun].
  destruct (color_actors_extends _ _ _ _ Hrun) as [[Hkeep Hused] Hnew].
  split; [split |]; assumption.
Qed.

(** C8.  Over any run of recoloring passes the table only grows: a name
    that maps to [k] maps to [k] after every later pass (so no entry is
    removed or rewritten), a name enters the table only in a pass that
    iterates over an actor of that name and did not find it, and
    [ColorsUsed] never decreases. *)
Theorem recolor_stable_identifiers :
  forall (passes : list (list Name)) t t',
    recolor A Color HSVToFColor t passes = Some t' ->
    (forall (name : Name) (k : Z),
        ObjectToColor t !! name = Some k -> ObjectToColor t' !! name = Some k) /\
    (forall name : Name,
        ObjectToColor t !! name = None -> is_Some (ObjectToColor t' !! name) ->
        exists actors, actors ∈ passes /\ name ∈ actors) /\
    ColorsUsed t <= ColorsUsed t'.
Proof.
  induction passes as [| actors rest IH]; intros t t' Hrun.
  - injection Hrun as <-. split; [auto | split; [| lia]].
    intros name Hnone [k Hk]. congruence.
  - cbn [recolor] in Hrun.
    destruct (ColorAllObjects A Color HSVToFColor t actors) as [[t1 painted] |] eqn:Hpass;
      [| discriminate Hrun].
    destruct (ColorAllObjects_extends _ _ _ _ Hpass) as [[Hkeep1 Hused1] Hnew1].
    destruct (IH _ _ Hrun) as (Hkeep2 & Hnew2 & Hused2).
    split; [auto | split; [| lia]].
    intros name Hnone Hsome.
    destruct (ObjectToColor t1 !! name) as [k1 |] eqn:Hmid.
    + exists actors. split; [apply list_elem_of_here |].
      apply Hnew1; [exact Hnone | exists k1; exact Hmid].
    + destruct (Hnew2 name Hmid Hsome) as (pass & Hin & Hname).
      exists pass. split; [apply list_elem_of_further; exact Hin | exact Hname].
Qed.

(** *** The check never fires *)

Lemma initial_table_ok : table_ok (initial_table Color (Name:=Name)).
Proof.
  split; [cbn; lia |].
  intros name id Hid. cbn in Hid. rewrite lookup_empty in Hid. discriminate Hid.
Qed.

Lemma color_actors_returns (actors : list Name) :
  forall t,
    table_ok t ->
    Z.of_nat (length (ObjectColors t)) < 2 ^ 32 ->
    ColorsUsed t + Z.of_nat (length actors) <= Z.of_nat (length (ObjectColors t)) ->
    exists t' painted,
      color_actors Color t actors = Some (t', painted) /\
      table_ok t' /\
      ObjectColors t' = ObjectColors t /\
      length painted = length actors.
Proof.
  induction actors as [| ActorName rest IH]; intros t Hok Hlen Hroom.
  - exists t, []. split; [reflexivity | split; [exact Hok | split; reflexivity]].
  - cbn [length] in Hroom. destruct Hok as [Hused Hids].
    assert (Hstep : exists t1,
               color_actor Color t ActorName = Some t1 /\ table_ok t1 /\
               ObjectColors t1 = ObjectColors t /\
               ColorsUsed t1 <= ColorsUsed t + 1 /\
               is_Some (ObjectToColor t1 !! ActorName)).
    { unfold color_actor.
      destruct (ObjectToColor t !! ActorName) as [id |] eqn:Hfound.
      - exists t. split; [reflexivity |]. split; [split; assumption |].
        split; [reflexivity | split; [lia | eauto]].
      - rewrite (wrap32_small (Z.of_nat (length (ObjectColors t)))) by lia.
        destruct (Z.ltb_spec (ColorsUsed t) (Z.of_nat (length (ObjectColors t))))
          as [_ | Hfull]; [| lia].
        eexists. split; [reflexivity |].
        cbn [ObjectColors ObjectToColor ColorsUsed].
        rewrite (wrap32_small (ColorsUsed t + 1)) by lia.
        split; [split; cbn [ObjectColors ObjectToColor ColorsUsed]; [lia |]
               | split; [reflexivity | split; [lia |]]].
        + intros name id Hid.
          destruct (decide (ActorName = name)) as [-> | Hne].
          * rewrite lookup_insert_eq in Hid. injection Hid as <-. lia.
          * rewrite lookup_insert_ne in Hid by exact Hne.
            specialize (Hids name id Hid). lia.
        + rewrite lookup_insert_eq. eauto. }
    destruct Hstep as (t1 & Hstep & Hok1 & Hcolors1 & Hused1 & [id Hid]).
    assert (Hpaint : exists c, ColorObject Color t1 ActorName = Some c).
    { unfold ColorObject. rewrite Hid.
      apply lookup_lt_is_Some_2.
      destruct Hok1 as [Hu1 Hids1]. specialize (Hids1 _ _ Hid). lia. }
    destruct Hpaint as [c Hpaint].
    destruct (IH t1 Hok1) as (t2 & painted & Hrest & Hok2 & Hcolors2 & Hn).
    { rewrite Hcolors1. exact Hlen. }
    { rewrite Hcolors1. lia. }
    exists t2, ((ActorName, c) :: painted).
    cbn [color_actors]. rewrite Hstep, Hpaint, Hrest.
    split; [reflexivity | split; [exact Hok2 | split]];
      [congruence | cbn [length]; lia].
Qed.

(** A pass over fewer than 2^29 actors, from a table that satisfies the
    invariant and holds fewer than 2^31 colors, returns: the loop of
    [GenerateColors] ends, the palette has room for every new name (the
    request is twice the number of actors), and every actor is painted. *)
Lemma ColorAllObjects_returns t (actors : list Name) :
  table_ok t ->
  Z.of_nat (length (ObjectColors t)) < 2 ^ 31 ->
  Z.of_nat (length actors) < 2 ^ 29 ->
  exists t' painted,
    ColorAllObjects A Color HSVToFColor t actors = Some (t', painted) /\
    table_ok t' /\
    length painted = length actors /\
    Z.of_nat (length (ObjectColors t')) <
      Z.of_nat (length (ObjectColors t)) + 2 * Z.of_nat (length actors) + 327750.
Proof.
  intros [Hused Hids] Hlen Hactors. unfold ColorAllObjects. cbv zeta.
  rewrite (wrap32_small (Z.of_nat (length actors))) by lia.
  unfold umul32. rewrite (wrap32_small (Z.of_nat (length actors) * 2)) by lia.
  destruct (PaletteFacts.GenerateColors_appends A Color HSVToFColor
              (Z.of_nat (length actors) * 2) (ObjectColors t))
    as (generated & Hgen & Hge & H50 & Hup); [lia |].
  rewrite Hgen.
  destruct (color_actors_returns actors
              {| ObjectColors := ObjectColors t ++ generated;
                 ObjectToColor := ObjectToColor t;
                 ColorsUsed := ColorsUsed t |})
    as (t' & painted & Hrun & Hok' & Hcolors' & Hn).
  - split; [| exact Hids]. cbn [ObjectColors ColorsUsed].
    rewrite length_app. lia.
  - cbn [ObjectColors]. rewrite length_app. lia.
  - cbn [ObjectColors ColorsUsed]. rewrite length_app. lia.
  - exists t', painted. rewrite Hrun.
    split; [reflexivity | split; [exact Hok' | split; [exact Hn |]]].
    rewrite Hcolors'. cbn [ObjectColors]. rewrite length_app. lia.
Qed.

End TableFacts.

(** The example run of [TableExample]. *)
Module TableExampleFacts.
Import TableExample.

Lemma first_pass_assigns :
  ObjectToColor first_pass !! "Floor"%string = Some 0 /\
  ObjectToColor first_pass !! "Chair"%string = Some 1 /\
  ObjectToColor first_pass !! "Lamp"%string = None /\
  ColorsUsed first_pass = 2 /\
  length (ObjectColors first_pass) = 50%nat.
Proof. vm_compute. repeat split. Qed.

Lemma recolor_stable_identifiers_witness :
  recolor B32 hsv keep_hsv first_pass (drop 1 passes) = Some both_passes /\
  ObjectToColor both_passes !! "Chair"%string = Some 1 /\
  ColorsUsed first_pass <= ColorsUsed both_passes.
Proof.
  assert (Hrun : recolor B32 hsv keep_hsv first_pass (drop 1 passes) = Some both_passes)
    by (vm_compute; reflexivity).
  destruct (recolor_stable_identifiers B32 hsv keep_hsv _ _ _ Hrun)
    as (Hkeep & _ & Hused).
  split; [exact Hrun | split; [| exact Hused]].
  apply Hkeep. vm_compute. reflexivity.
Defined.

End TableExampleFacts.

(** ** The frame gate *)

Module GateFacts.

(** The same tick in any arithmetic: it fires unless the accumulated time
    compares below [FrameTime]. *)
Lemma TickComponent_gate_running (A : Arith) (g : Gate A) (dt : num A) :
  Paused g = false -> UseEngineFramerate g = false ->
  snd (TickComponent_gate A g dt) =
    negb (flt (fadd (TimePassed g) dt) (FrameTime g)) /\
  TimePassed (fst (TickComponent_gate A g dt)) =
    (if snd (TickComponent_gate A g dt)
     then fsub (fadd (TimePassed g) dt) (FrameTime g)
     else fadd (TimePassed g) dt).
Proof.
  intros Hrun Hown. unfold TickComponent_gate. rewrite Hrun.
  cbn [set_TimePassed UseEngineFramerate TimePassed FrameTime Paused].
  rewrite Hown. cbn [negb andb].
  destruct (flt (fadd (TimePassed g) dt) (FrameTime g)); split; reflexivity.
Qed.

(** At the engine's rate every tick of a running sensor processes a frame. *)
Lemma TickComponent_gate_engine_rate (A : Arith) (g : Gate A) (dt : num A) :
  Paused g = false -> UseEngineFramerate g = true ->
  snd (TickComponent_gate A g dt) = true.
Proof.
  intros Hrun Hown. unfold TickComponent_gate. rewrite Hrun.
  cbn [set_TimePassed UseEngineFramerate]. rewrite Hown. reflexivity.
Qed.

Lemma run_ticks_cons (A : Arith) (g : Gate A) (dt : num A) (rest : list (num A)) :
  run_ticks A g (dt :: rest) =
    (fst (run_ticks A (fst (TickComponent_gate A g dt)) rest),
     if snd (TickComponent_gate A g dt)
     then S (snd (run_ticks A (fst (TickComponent_gate A g dt)) rest))
     else snd (run_ticks A (fst (TickComponent_gate A g dt)) rest)).
Proof.
  cbn [run_ticks]. destruct (TickComponent_gate A g dt) as [g1 fired].
  cbn [fst snd]. destruct (run_ticks A g1 rest) as [g2 n]. reflexivity.
Qed.

(** *** The rate *)

(** Each of the four ticks processes one frame; one second has elapsed, which
    is eight frame intervals. *)
Lemma slow_ticks_run :
  snd (run_ticks B32 gate8 slow_ticks) = 4%nat /\
  elapsed B32 slow_ticks = of_int (a:=B32) 1 /\
  fdiv (a:=B32) (elapsed B32 slow_ticks) (FrameTime gate8) = of_int (a:=B32) 8 /\
  TimePassed (fst (run_ticks B32 gate8 slow_ticks)) =
    fdiv (a:=B32) (of_int 1) (of_int 2).
Proof. vm_compute. repeat split. Qed.





End GateFacts.

(** ** The depth pipeline: [ToDepthImage], then [convertDepth] *)

Module DepthImageFacts.
Import Buffers DepthImage DepthUnitConverter.

Lemma convertDepth_loop_prefix (size : nat) :
  forall inp : list Z,
    (4 * size <= length inp)%nat ->
    exists out : list m128,
      convertDepth_loop size inp = Some out /\
      concat (map lanes out) = map spec_meters (take (4 * size) inp).
Proof.
  induction size as [| size IH]; intros inp Hlen.
  - exists []. split; reflexivity.
  - destruct inp as [| in0 [| in1 [| in2 [| in3 inp']]]]; simpl in Hlen; try lia.
    destruct (IH inp') as (out & Hout & Hflat); [lia |].
    exists (m128_div (mm_cvtph_ps in0 in1 in2 in3) 100 :: out). split.
    + cbn [convertDepth_loop]. rewrite Hout. reflexivity.
    + replace (4 * S size)%nat with (S (S (S (S (4 * size))))) by lia.
      cbn [map concat take]. rewrite Hflat. reflexivity.
Qed.

Lemma convertDepth_loop_short (size : nat) :
  forall inp : list Z,
    (length inp < 4 * size)%nat -> convertDepth_loop size inp = None.
Proof.
  induction size as [| size IH]; intros inp Hlen; [lia |].
  destruct inp as [| in0 [| in1 [| in2 [| in3 inp']]]]; try reflexivity.
  cbn [convertDepth_loop]. rewrite IH; [reflexivity |].
  cbn [length] in Hlen. lia.
Qed.

Lemma vector_count (Width Height : Z) :
  let n := wrap32 (Width * Height) in
  0 <= n / 4 /\ 4 * (n / 4) = n - n mod 4 /\ 0 <= n mod 4 < 4 /\ 0 <= n < 2 ^ 32.
Proof.
  cbv zeta. pose proof (wrap32_range (Width * Height)) as Hr.
  pose proof (Z.div_mod (wrap32 (Width * Height)) 4 ltac:(lia)) as Hdm.
  pose proof (Z.mod_pos_bound (wrap32 (Width * Height)) 4 ltac:(lia)) as Hm.
  assert (0 <= wrap32 (Width * Height) / 4) by (apply Z.div_pos; lia).
  lia.
Qed.

(** X1.  [convertDepth] converts the first [4 * floor(n / 4)] samples of its
    input, [n] the 32-bit product [Width * Height], whatever follows them:
    when the input holds at least that many samples the output is their
    decoded values divided by 100, in order, and nothing else, so the last
    [n mod 4] of the [n] pixels of the image are never written; when the
    input is shorter the loop reads past its end. *)
Theorem convertDepth_converted_prefix (Width Height : Z) (inp : list Z) :
  let n := wrap32 (Width * Height) in
  let converted := Z.to_nat (n - n mod 4) in
  convertDepth Width Height inp =
    (if decide (converted <= length inp)%nat
     then Some (map spec_meters (take converted inp))
     else None) /\
  (forall out, convertDepth Width Height inp = Some out ->
     Z.of_nat (length out) = n - n mod 4 /\ 0 <= n mod 4 < 4).
Proof.
  cbv zeta.
  destruct (vector_count Width Height) as (Hq & Hmul & Hm & Hr).
  assert (Hconv : Z.to_nat (wrap32 (Width * Height) - wrap32 (Width * Height) mod 4)
                  = (4 * Z.to_nat (wrap32 (Width * Height) / 4))%nat) by lia.
  assert (Hfirst :
    convertDepth Width Height inp =
      if decide (Z.to_nat (wrap32 (Width * Height) - wrap32 (Width * Height) mod 4)
                 <= length inp)%nat
      then Some (map spec_meters
                   (take (Z.to_nat (wrap32 (Width * Height)
                                    - wrap32 (Width * Height) mod 4)) inp))
      else None).
  { rewrite Hconv. unfold convertDepth. cbv zeta.
    destruct (decide (4 * Z.to_nat (wrap32 (Width * Height) / 4) <= length inp)%nat)
      as [Hle | Hgt].
    - destruct (convertDepth_loop_prefix _ inp Hle) as (out & Hout & Hflat).
      rewrite Hout, Hflat. reflexivity.
    - rewrite convertDepth_loop_short; [reflexivity | lia]. }
  split; [exact Hfirst |].
  intros out Hout. rewrite Hfirst in Hout.
  destruct (decide _) as [Hle | Hgt]; [| discriminate Hout].
  injection Hout as <-. rewrite length_map, length_take. lia.
Qed.

(** X2.  For an image of fewer than [2^30] pixels the stores of
    [convertDepth] stay inside the [Width * Height * 4] bytes allocated for
    them, and fill them exactly when the pixel count is a multiple of 4; from
    [2^30] pixels on the 32-bit size of the allocation wraps and is smaller
    than what [convertDepth] stores. *)
Theorem convertDepth_within_TargetDepthBuf (Width Height : Z) :
  0 <= Width * Height < 2 ^ 32 ->
  (convertDepth_stored Width Height <= TargetDepthBufSize Width Height <->
   Width * Height < 2 ^ 30) /\
  (Width * Height < 2 ^ 30 ->
   TargetDepthBufSize Width Height - convertDepth_stored Width Height =
     4 * ((Width * Height) mod 4)).
Proof.
  intros Hwh. unfold convertDepth_stored, TargetDepthBufSize, umul32.
  rewrite (wrap32_small (Width * Height)) by exact Hwh.
  pose proof (Z.div_mod (Width * Height) 4 ltac:(lia)) as Hdm.
  pose proof (Z.mod_pos_bound (Width * Height) 4 ltac:(lia)) as Hm.
  destruct (Z_lt_ge_dec (Width * Height) (2 ^ 30)) as [Hlt | Hge].
  - rewrite (wrap32_small (Width * Height * 4)) by lia. split; [split |]; lia.
  - assert (Hw : wrap32 (Width * Height * 4) <= Width * Height * 4 - 2 ^ 32).
    { unfold wrap32.
      pose proof (Z.div_mod (Width * Height * 4) (2 ^ 32) ltac:(lia)) as Hd.
      assert (1 <= Width * Height * 4 / 2 ^ 32)
        by (apply Z.div_le_lower_bound; lia).
      lia. }
    split; [split |]; lia.
Qed.

(** A 640 x 480 image. *)
Lemma convertDepth_within_TargetDepthBuf_witness :
  convertDepth_stored 640 480 <= TargetDepthBufSize 640 480 <-> 640 * 480 < 2 ^ 30.
Proof.
  apply (convertDepth_within_TargetDepthBuf 640 480). vm_compute. split; congruence.
Defined.

Lemma store_u16_app (pre post : list Z) (x y v : Z) :
  store_u16 (pre ++ x :: y :: post) (length pre) v =
    Some (pre ++ [v mod 256; (v / 256) mod 256] ++ post).
Proof.
  unfold store_u16. rewrite length_app. cbn [length].
  destruct (decide _) as [_ | Hn]; [| lia].
  f_equal.
  rewrite (insert_app_r_alt pre _ (S (length pre))) by lia.
  rewrite (insert_app_r_alt pre _ (length pre)) by lia.
  replace (S (length pre) - length pre)%nat with 1%nat by lia.
  replace (length pre - length pre)%nat with 0%nat by lia.
  reflexivity.
Qed.

Lemma ToDepthImage_loop_app (ImageData : list FFloat16Color) :
  forall (itO : nat) (pre mid post : list Z),
    length pre = (2 * itO)%nat ->
    length mid = (2 * length ImageData)%nat ->
    ToDepthImage_loop itO ImageData (pre ++ mid ++ post) =
      Some (pre ++ le_bytes (map R_Encoded ImageData) ++ post).
Proof.
  induction ImageData as [| px rest IH]; intros itO pre mid post Hpre Hmid.
  - destruct mid; [reflexivity | discriminate Hmid].
  - destruct mid as [| x [| y mid']]; cbn [length] in Hmid; try lia.
    cbn [ToDepthImage_loop]. rewrite <- Hpre.
    change ((x :: y :: mid') ++ post) with (x :: y :: (mid' ++ post)).
    rewrite store_u16_app.
    rewrite (app_assoc pre [_; _] (mid' ++ post)).
    rewrite IH; [| rewrite length_app; cbn [length]; lia | lia].
    rewrite <- app_assoc. reflexivity.
Qed.

Lemma ToDepthImage_loop_short (ImageData : list FFloat16Color) :
  forall (itO : nat) (Bytes : list Z),
    (2 * itO <= length Bytes)%nat ->
    (length Bytes < 2 * (itO + length ImageData))%nat ->
    ToDepthImage_loop itO ImageData Bytes = None.
Proof.
  induction ImageData as [| px rest IH]; intros itO Bytes Hlo Hhi.
  - cbn [length] in Hhi. lia.
  - cbn [ToDepthImage_loop]. unfold store_u16.
    destruct (decide _) as [Hin | Hout]; [| reflexivity].
    apply IH; rewrite !length_insert; cbn [length] in Hhi; lia.
Qed.

Lemma load_u16s_le_bytes (codes : list Z) :
  forall (itO : nat) (pre post : list Z),
    length pre = (2 * itO)%nat ->
    Forall (fun v => 0 <= v < 65536) codes ->
    mapM (fun k => load_u16 (pre ++ le_bytes codes ++ post) (2 * k))
         (seq itO (length codes)) = Some codes.
Proof.
  induction codes as [| v rest IH]; intros itO pre post Hpre Hok; [reflexivity |].
  apply Forall_cons in Hok as [Hv Hrest].
  cbn [length seq mapM].
  assert (Hload : load_u16 (pre ++ le_bytes (v :: rest) ++ post) (2 * itO) = Some v).
  { unfold load_u16. rewrite <- Hpre.
    rewrite (lookup_app_r pre _ (length pre)) by lia.
    rewrite (lookup_app_r pre _ (S (length pre))) by lia.
    replace (S (length pre) - length pre)%nat with 1%nat by lia.
    replace (length pre - length pre)%nat with 0%nat by lia.
    cbn [le_bytes flat_map app lookup list_lookup]. f_equal.
    pose proof (Z.div_mod v 256 ltac:(lia)) as Hd.
    rewrite (Z.mod_small (v / 256) 256); [lia |].
    split; [apply Z.div_pos; lia | apply Z.div_lt_upper_bound; lia]. }
  rewrite Hload.
  change (le_bytes (v :: rest)) with ([v mod 256; (v / 256) mod 256] ++ le_bytes rest).
  rewrite <- (app_assoc [_; _] (le_bytes rest) post).
  rewrite (app_assoc pre [_; _] (le_bytes rest ++ post)).
  rewrite (IH (S itO)); [reflexivity | rewrite length_app; cbn [length]; lia | exact Hrest].
Qed.

Lemma load_u16s_plane (codes post : list Z) (n : nat) :
  n = length codes ->
  Forall (fun v => 0 <= v < 65536) codes ->
  load_u16s (le_bytes codes ++ post) n = Some codes.
Proof.
  intros -> Hok. exact (load_u16s_le_bytes codes 0 [] post eq_refl Hok).
Qed.

Lemma length_le_bytes (codes : list Z) :
  length (le_bytes codes) = (2 * length codes)%nat.
Proof.
  induction codes as [| v rest IH]; [reflexivity |].
  change (le_bytes (v :: rest)) with ([v mod 256; (v / 256) mod 256] ++ le_bytes rest).
  rewrite length_app, IH. cbn [length]. lia.
Qed.

Lemma ToDepthImage_closed_form (ImageData : list FFloat16Color) (Bytes : list Z) :
  ToDepthImage ImageData Bytes =
    if decide (2 * length ImageData <= length Bytes)%nat
    then Some (le_bytes (map R_Encoded ImageData)
               ++ drop (2 * length ImageData) Bytes)
    else None.
Proof.
  unfold ToDepthImage. destruct (decide _) as [Hle | Hgt].
  - rewrite <- (take_drop (2 * length ImageData) Bytes) at 1.
    apply (ToDepthImage_loop_app ImageData 0 [] (take (2 * length ImageData) Bytes)).
    + reflexivity.
    + rewrite length_take. lia.
  - apply ToDepthImage_loop_short; lia.
Qed.

(** X3.  [ToDepthImage] stores the binary16 code of the red channel of each
    pixel, low byte first, in the first [2 * n] bytes of the plane and leaves
    the rest of the buffer as it was; on a buffer of fewer than [2 * n] bytes
    it stores past the end.  Read back as 16-bit values the plane holds the
    red codes in pixel order. *)
Theorem ToDepthImage_stores_red_codes (ImageData : list FFloat16Color) (Bytes : list Z) :
  Forall is_pixel ImageData ->
  let n := length ImageData in
  ((2 * n <= length Bytes)%nat ->
   exists Plane,
     ToDepthImage ImageData Bytes = Some Plane /\
     length Plane = length Bytes /\
     load_u16s Plane n = Some (map R_Encoded ImageData) /\
     drop (2 * n) Plane = drop (2 * n) Bytes) /\
  ((length Bytes < 2 * n)%nat -> ToDepthImage ImageData Bytes = None).
Proof.
  intros Hpx. cbv zeta. rewrite ToDepthImage_closed_form. split.
  - intros Hle. destruct (decide _) as [_ | Hn]; [| lia].
    eexists. split; [reflexivity |].
    assert (Hlen : length (le_bytes (map R_Encoded ImageData))
                   = (2 * length ImageData)%nat)
      by (rewrite length_le_bytes, length_map; reflexivity).
    split; [| split].
    + rewrite length_app, Hlen, length_drop. lia.
    + apply load_u16s_plane; [rewrite length_map; reflexivity |].
      apply Forall_fmap. exact Hpx.
    + rewrite drop_app_length'; [reflexivity | symmetry; exact Hlen].
  - intros Hlt. destruct (decide _) as [Hle | _]; [lia | reflexivity].
Qed.

(** Two pixels into a plane of five bytes. *)
Lemma ToDepthImage_stores_red_codes_witness :
  ToDepthImage [MkFFloat16Color half_one 0 0 0; MkFFloat16Color 0x4000 0 0 0]
               [9; 9; 9; 9; 9] = Some [0; 60; 0; 64; 9].
Proof.
  destruct (ToDepthImage_stores_red_codes
              [MkFFloat16Color half_one 0 0 0; MkFFloat16Color 0x4000 0 0 0]
              [9; 9; 9; 9; 9]) as [Hfits _].
  - repeat constructor; vm_compute; congruence.
  - destruct Hfits as (Plane & Hrun & _); [vm_compute; lia |].
    rewrite Hrun. vm_compute in Hrun. injection Hrun as <-. reflexivity.
Defined.

(** X4.  The depth pipeline end to end: when the image has
    [Width * Height] pixels, a multiple of 4, the depth value published for
    pixel [i] is the binary32 quotient by 100 of the decoded binary16 red
    channel of pixel [i] of the depth render target, for every pixel. *)
Theorem depth_pipeline (Width Height : Z) (ImageDepth : list FFloat16Color)
    (Bytes : list Z) :
  Forall is_pixel ImageDepth ->
  Z.of_nat (length ImageDepth) = wrap32 (Width * Height) ->
  wrap32 (Width * Height) mod 4 = 0 ->
  (2 * length ImageDepth <= length Bytes)%nat ->
  exists Plane,
    ToDepthImage ImageDepth Bytes = Some Plane /\
    publish_depth Width Height Plane =
      Some (map (fun px => spec_meters (R_Encoded px)) ImageDepth) /\
    forall i px, ImageDepth !! i = Some px ->
      map (fun px => spec_meters (R_Encoded px)) ImageDepth !! i =
        Some (fdiv (a:=B32) (cvtph (R_Encoded px)) (of_int 100)).
Proof.
  intros Hpx Hn Hdiv Hfit.
  rewrite ToDepthImage_closed_form.
  destruct (decide _) as [_ | Hno]; [| lia].
  eexists. split; [reflexivity |]. split.
  - unfold publish_depth.
    rewrite load_u16s_plane;
      [| rewrite length_map; lia | apply Forall_fmap; exact Hpx].
    destruct (vector_count Width Height) as (Hq & Hmul & Hm & Hr).
    destruct (DepthFacts.convertDepth_loop_chunks
                (Z.to_nat (wrap32 (Width * Height) / 4)) (map R_Encoded ImageDepth))
      as (out & Hout & _ & Hflat); [rewrite length_map; lia |].
    unfold convertDepth. cbv zeta. rewrite Hout, Hflat, map_map. reflexivity.
  - intros i px Hi. rewrite list_lookup_fmap, Hi. reflexivity.
Qed.

(** A 2 x 2 image whose plane is followed by one more byte. *)
Lemma depth_pipeline_witness :
  exists Plane,
    ToDepthImage [MkFFloat16Color half_one 0 0 0; MkFFloat16Color 0 0 0 0;
                  MkFFloat16Color 0x4000 0 0 0; MkFFloat16Color 0xBC00 0 0 0]
                 [0; 0; 0; 0; 0; 0; 0; 0; 7] = Some Plane /\
    publish_depth 2 2 Plane = Some (map spec_meters [half_one; 0; 0x4000; 0xBC00]).
Proof.
  destruct (depth_pipeline 2 2
              [MkFFloat16Color half_one 0 0 0; MkFFloat16Color 0 0 0 0;
               MkFFloat16Color 0x4000 0 0 0; MkFFloat16Color 0xBC00 0 0 0]
              [0; 0; 0; 0; 0; 0; 0; 0; 7]) as (Plane & Hrun & Hpub & _).
  - repeat constructor; vm_compute; congruence.
  - reflexivity.
  - reflexivity.
  - vm_compute. lia.
  - exists Plane. split; [exact Hrun | exact Hpub].
Defined.

End DepthImageFacts.

(** ** Packing pixels into a byte buffer *)

Section PixelPackingFacts.
Import Buffers.

Variable A : Arith.
Variable Pow : num A -> num A -> num A.
Variable half_to_float : Z -> num A.
Variables GammaCorrection Contrast Brightness : num A.

Lemma store_u8_app (pre post : list Z) (x v : Z) :
  store_u8 (pre ++ x :: post) (length pre) v = Some (pre ++ v :: post).
Proof.
  unfold store_u8. rewrite length_app. cbn [length].
  destruct (decide _) as [_ | Hn]; [| lia].
  rewrite (insert_app_r_alt pre _ (length pre)) by lia.
  replace (length pre - length pre)%nat with 0%nat by lia.
  reflexivity.
Qed.

Lemma pack_loop_app (pixels : list (Z * Z * Z)) :
  forall (pre mid post : list Z),
    length mid = (3 * length pixels)%nat ->
    pack_loop (length pre) pixels (pre ++ mid ++ post) =
      Some (pre ++ bgr_bytes pixels ++ post).
Proof.
  induction pixels as [| [[b g] r] rest IH]; intros pre mid post Hmid.
  - destruct mid; [reflexivity | discriminate Hmid].
  - destruct mid as [| x [| y [| z mid']]]; cbn [length] in Hmid; try lia.
    cbn [pack_loop].
    change ((x :: y :: z :: mid') ++ post) with (x :: y :: z :: (mid' ++ post)).
    rewrite store_u8_app.
    pose proof (store_u8_app (pre ++ [b]) (z :: mid' ++ post) y g) as H1.
    rewrite length_app, <- !app_assoc in H1. cbn [length app] in H1.
    rewrite H1.
    pose proof (store_u8_app (pre ++ [b; g]) (mid' ++ post) z r) as H2.
    rewrite length_app, <- !app_assoc in H2. cbn [length app] in H2.
    rewrite H2.
    pose proof (IH (pre ++ [b; g; r]) mid' post ltac:(lia)) as H3.
    rewrite length_app, <- !app_assoc in H3. cbn [length app] in H3.
    rewrite H3. reflexivity.
Qed.

Lemma pack_loop_short (pixels : list (Z * Z * Z)) :
  forall (itO : nat) (Bytes : list Z),
    (itO <= length Bytes)%nat ->
    (length Bytes < itO + 3 * length pixels)%nat ->
    pack_loop itO pixels Bytes = None.
Proof.
  induction pixels as [| [[b g] r] rest IH]; intros itO Bytes Hlo Hhi.
  - cbn [length] in Hhi. lia.
  - cbn [pack_loop]. unfold store_u8.
    destruct (decide (itO < length Bytes)%nat) as [H0 | H0]; [| reflexivity].
    rewrite !length_insert.
    destruct (decide (itO + 1 < length Bytes)%nat) as [H1 | H1]; [| reflexivity].
    rewrite !length_insert.
    destruct (decide (itO + 2 < length Bytes)%nat) as [H2 | H2]; [| reflexivity].
    apply IH; rewrite !length_insert; cbn [length] in Hhi; lia.
Qed.

Lemma pack_loop_closed_form (pixels : list (Z * Z * Z)) (Bytes : list Z) :
  pack_loop 0 pixels Bytes =
    if decide (3 * length pixels <= length Bytes)%nat
    then Some (bgr_bytes pixels ++ drop (3 * length pixels) Bytes)
    else None.
Proof.
  destruct (decide _) as [Hle | Hgt].
  - rewrite <- (take_drop (3 * length pixels) Bytes) at 1.
    apply (pack_loop_app pixels [] (take (3 * length pixels) Bytes)).
    rewrite length_take. lia.
  - apply pack_loop_short; lia.
Qed.

Lemma bgr_bytes_map {Px : Type} (b g r : Px -> Z) (ImageData : list Px) :
  bgr_bytes (map (fun px => (b px, g px, r px)) ImageData) =
    flat_map (fun px => [b px; g px; r px]) ImageData.
Proof.
  induction ImageData as [| px rest IH]; [reflexivity |].
  cbn [map bgr_bytes flat_map app]. f_equal. f_equal. f_equal. exact IH.
Qed.

(** X5.  [ColorToBytes], [LinearColorToBytes] and [Float16ColorToBytes] store
    three bytes per pixel, the processed blue, green and red channels in that
    order, in the first [3 * n] bytes of the buffer and leave the rest of it
    as it was; on a buffer of fewer than [3 * n] bytes they store past its
    end. *)
Theorem pixel_bytes_in_buffer (Bytes : list Z) :
  (forall ImageData : list (Z * Z * Z),
     ColorToBytes_into A Pow GammaCorrection Contrast Brightness ImageData Bytes =
       if decide (3 * length ImageData <= length Bytes)%nat
       then Some (ColorToBytes A Pow GammaCorrection Contrast Brightness ImageData
                  ++ drop (3 * length ImageData) Bytes)
       else None) /\
  (forall ImageData : list (num A * num A * num A),
     let byte := ProcessChannel_float A Pow GammaCorrection Contrast Brightness in
     LinearColorToBytes_into A Pow GammaCorrection Contrast Brightness ImageData Bytes =
       if decide (3 * length ImageData <= length Bytes)%nat
       then Some (flat_map (fun '(r, g, b) => [byte b; byte g; byte r]) ImageData
                  ++ drop (3 * length ImageData) Bytes)
       else None) /\
  (forall ImageData : list DepthImage.FFloat16Color,
     let byte := ProcessChannel_FFloat16 A Pow half_to_float
                   GammaCorrection Contrast Brightness in
     Float16ColorToBytes_into A Pow half_to_float GammaCorrection Contrast Brightness
         ImageData Bytes =
       if decide (3 * length ImageData <= length Bytes)%nat
       then Some (flat_map (fun px => [byte (DepthImage.B_Encoded px);
                                       byte (DepthImage.G_Encoded px);
                                       byte (DepthImage.R_Encoded px)]) ImageData
                  ++ drop (3 * length ImageData) Bytes)
       else None).
Proof.
  split; [| split]; intros ImageData; cbv zeta.
  - unfold ColorToBytes_into, ColorToBytes. cbv zeta.
    rewrite pack_loop_closed_form, length_map.
    destruct (decide _) as [_ |]; [| reflexivity]. do 2 f_equal.
    unfold bgr_bytes.
    induction ImageData as [| [[r g] b] rest IH]; [reflexivity |].
    cbn [map flat_map app]. rewrite IH. reflexivity.
  - unfold LinearColorToBytes_into. cbv zeta.
    rewrite pack_loop_closed_form, length_map.
    destruct (decide _) as [_ |]; [| reflexivity]. do 2 f_equal.
    unfold bgr_bytes.
    induction ImageData as [| [[r g] b] rest IH]; [reflexivity |].
    cbn [map flat_map app]. rewrite IH. reflexivity.
  - unfold Float16ColorToBytes_into. cbv zeta.
    rewrite pack_loop_closed_form, length_map.
    destruct (decide _) as [_ |]; [| reflexivity]. do 2 f_equal.
    apply (bgr_bytes_map (fun px => _) (fun px => _) (fun px => _)).
Qed.

End PixelPackingFacts.

(** ** The layout of the palette *)

Module PaletteLayoutFacts.

Lemma flat_map_const_lookup {X Y : Type} (f : X -> list Y) (n : nat) (l : list X) :
  (forall x, length (f x) = n) ->
  forall (i j : nat) (x : X),
    l !! i = Some x -> (j < n)%nat ->
    flat_map f l !! (i * n + j)%nat = f x !! j.
Proof.
  intros Hn. induction l as [| a l IH]; intros i j x Hi Hj; [discriminate Hi |].
  cbn [flat_map]. destruct i as [| i].
  - injection Hi as ->. cbn [Nat.mul Nat.add].
    apply lookup_app_l. rewrite Hn. exact Hj.
  - rewrite lookup_app_r by (rewrite Hn; lia).
    rewrite Hn. replace (S i * n + j - n)%nat with (i * n + j)%nat by lia.
    apply IH; assumption.
Qed.

Lemma counter_lookup (n : Z) (i : nat) :
  Z.of_nat i < n -> counter n !! i = Some (Z.of_nat i).
Proof.
  intros Hi. unfold counter.
  rewrite list_lookup_fmap, lookup_seq_lt by lia. reflexivity.
Qed.

Lemma palette_of_counts_lookup
    (A : Arith) (Color : Type) (HSVToFColor : num A -> num A -> num A -> Color)
    (SatCount ValCount : Z) (s v h : nat) :
  Z.of_nat s < SatCount -> Z.of_nat v < ValCount -> Z.of_nat h < MaxHue ->
  palette_of_counts A Color HSVToFColor MaxHue SatCount ValCount
    !! ((s * Z.to_nat ValCount + v) * 50 + h)%nat =
  Some (palette_color A Color HSVToFColor SatCount ValCount
          (Z.of_nat s) (Z.of_nat v) (Z.of_nat h)).
Proof.
  intros Hs Hv Hh. unfold palette_of_counts. cbv zeta.
  assert (Hhue : forall g : Z -> Color,
             length (map g (counter MaxHue)) = 50%nat)
    by (intros g; rewrite length_map, length_counter; reflexivity).
  replace ((s * Z.to_nat ValCount + v) * 50 + h)%nat
    with (s * (Z.to_nat ValCount * 50) + (v * 50 + h))%nat by lia.
  rewrite (flat_map_const_lookup _ (Z.to_nat ValCount * 50) _) with (x := Z.of_nat s).
  - rewrite (flat_map_const_lookup _ 50 _) with (x := Z.of_nat v).
    + rewrite list_lookup_fmap, counter_lookup by exact Hh. reflexivity.
    + intros x. apply Hhue.
    + apply counter_lookup. exact Hv.
    + unfold MaxHue in Hh. lia.
  - intros x. rewrite (PaletteFacts.length_flat_map_const _ _ 50).
    + rewrite length_counter. reflexivity.
    + intros y. apply Hhue.
  - apply counter_lookup. exact Hs.
  - assert (v * 50 + h < Z.to_nat ValCount * 50)%nat; [| lia].
    unfold MaxHue in Hh. nia.
Qed.

Lemma hue_index_small (h : Z) : 0 <= h < 50 -> hue_index h = (21 * h) mod 50.
Proof.
  intros Hh. unfold hue_index, umul32, ShiftHue, MaxHue.
  rewrite wrap32_small by lia. f_equal. lia.
Qed.

(** X6.  The layout of a generated palette: the color of iteration
    [(s, v, h)] is entry [(s * ValCount + v) * 50 + h], its hue is
    [((21 * h) mod 50) * 7.2] degrees, its saturation [1 - s * StepSat] and its
    value [1 - v * StepVal].  [h -> (21 * h) mod 50] is a permutation of
    [0 .. 49] (its inverse is [k -> (31 * k) mod 50]), so every block of 50
    consecutive colors holds each of the 50 hues once, and two neighbours
    in a block are 21 hue steps apart (modulo 50). *)
Theorem palette_layout
    (A : Arith) (Color : Type) (HSVToFColor : num A -> num A -> num A -> Color)
    (SatCount ValCount : Z) (s v h : nat) :
  Z.of_nat s < SatCount -> Z.of_nat v < ValCount -> (h < 50)%nat ->
  palette_of_counts A Color HSVToFColor MaxHue SatCount ValCount
    !! ((s * Z.to_nat ValCount + v) * 50 + h)%nat =
  Some (HSVToFColor
          (fmul (of_int ((21 * Z.of_nat h) mod 50)) (fdiv (of_int 360) (of_int 50)))
          (fsub (of_int 1) (fmul (of_int (Z.of_nat s)) (palette_step A SatCount)))
          (fsub (of_int 1) (fmul (of_int (Z.of_nat v)) (palette_step A ValCount)))) /\
  (forall k : Z, 0 <= k < 50 ->
     0 <= (31 * k) mod 50 < 50 /\ hue_index ((31 * k) mod 50) = k) /\
  (forall h1 h2 : Z, 0 <= h1 < 50 -> 0 <= h2 < 50 ->
     hue_index h1 = hue_index h2 -> h1 = h2) /\
  (forall h1 : Z, 0 <= h1 < 49 ->
     (hue_index (h1 + 1) - hue_index h1) mod 50 = 21).
Proof.
  intros Hs Hv Hh. split; [| split; [| split]].
  - rewrite palette_of_counts_lookup by (unfold MaxHue; lia).
    unfold palette_color, StepHue, MaxHue.
    rewrite hue_index_small by lia. reflexivity.
  - intros k Hk.
    assert (Hr : 0 <= (31 * k) mod 50 < 50) by (apply Z.mod_pos_bound; lia).
    split; [exact Hr |]. rewrite hue_index_small by exact Hr.
    Z.div_mod_to_equations. lia.
  - intros h1 h2 H1 H2. rewrite !hue_index_small by assumption.
    intros Heq.
    assert (Hinv : forall x, 0 <= x < 50 -> (31 * ((21 * x) mod 50)) mod 50 = x)
      by (intros x Hx; Z.div_mod_to_equations; lia).
    rewrite <- (Hinv h1 H1), <- (Hinv h2 H2), Heq. reflexivity.
  - intros h1 H1. rewrite !hue_index_small by lia.
    Z.div_mod_to_equations. lia.
Qed.

(** The entry of iteration (1, 2, 3) in a palette of 2 x 3 x 50 colors. *)
Lemma palette_layout_witness :
  palette_of_counts Exact (R * R * R) (fun hue sat val => (hue, sat, val)) MaxHue 2 3
    !! 253%nat =
  Some (fmul (a:=Exact) (of_int ((21 * 3) mod 50)) (fdiv (of_int 360) (of_int 50)),
        fsub (a:=Exact) (of_int 1) (fmul (of_int 1) (palette_step Exact 2)),
        fsub (a:=Exact) (of_int 1) (fmul (of_int 2) (palette_step Exact 3))).
Proof.
  destruct (palette_layout Exact (R * R * R) (fun hue sat val => (hue, sat, val))
              2 3 1 2 3) as [Hentry _]; [lia | lia | lia |].
  exact Hentry.
Defined.

End PaletteLayoutFacts.

(** ** Palettes generated by successive calls *)

Module PaletteRepeatFacts.

Lemma all_below (n : Z) (p : Z -> bool) :
  forallb p (counter n) = true -> forall c, 0 <= c < n -> p c = true.
Proof.
  intros Hall c Hc.
  apply (proj1 (forallb_forall p (counter n)) Hall).
  apply in_counter. exact Hc.
Qed.

Lemma palette_counts_bounds (N : Z) :
  is_uint32 N ->
  exists SatCount ValCount : Z,
    palette_counts N = Some (SatCount, ValCount) /\
    1 <= SatCount <= 6555 /\ 1 <= ValCount <= 6555.
Proof.
  intros HN. unfold is_uint32 in HN.
  destruct (Z_lt_ge_dec N 1) as [H0 | H1].
  - assert (N = 0) as -> by lia. exists 1, 1. split; [reflexivity | lia].
  - destruct (Z_lt_ge_dec N (2 ^ 31 + 50)) as [Hlow | Hhigh].
    + destruct (PaletteFacts.palette_counts_sufficient N ltac:(lia))
        as (S & V & Hc & _ & HS & HSV & Hup).
      exists S, V. split; [exact Hc |]. unfold MaxHue in Hup. nia.
    + exists 1, 1. split; [| lia].
      apply PaletteFacts.palette_counts_saturated. lia.
Qed.

(** In binary32 the first saturation and the first value are exactly 1 for
    every count the loop can produce. *)
Lemma first_step_is_one (count : Z) :
  1 <= count <= 6555 ->
  fsub (a:=B32) (of_int 1) (fmul (of_int 0) (palette_step B32 count)) = of_int 1.
Proof.
  intros Hc. apply ChannelFacts.float_eqb_eq.
  apply (all_below 6556
           (fun c => ChannelSpec.float_eqb
                       (fsub (a:=B32) (of_int 1)
                          (fmul (of_int 0) (palette_step B32 c)))
                       (of_int (a:=B32) 1))); [vm_compute; reflexivity | lia].
Qed.

Lemma GenerateColors_head
    (Color : Type) (HSVToFColor : spec_float -> spec_float -> spec_float -> Color)
    (N : Z) (ObjectColors : list Color) :
  is_uint32 N ->
  exists generated : list Color,
    GenerateColors B32 Color HSVToFColor N ObjectColors
      = Some (ObjectColors ++ generated) /\
    (50 <= length generated)%nat /\
    forall j : nat, (j < 50)%nat ->
      generated !! j =
        Some (HSVToFColor (fmul (a:=B32) (of_int (hue_index (Z.of_nat j))) (StepHue B32))
                          (of_int (a:=B32) 1) (of_int (a:=B32) 1)).
Proof.
  intros HN.
  destruct (palette_counts_bounds N HN) as (S & V & Hc & HS & HV).
  exists (palette_of_counts B32 Color HSVToFColor MaxHue S V).
  split; [| split].
  - unfold GenerateColors. rewrite Hc. reflexivity.
  - pose proof (PaletteFacts.length_palette_of_counts B32 Color HSVToFColor
                  MaxHue S V ltac:(unfold MaxHue; lia) ltac:(lia) ltac:(lia)) as Hlen.
    unfold MaxHue in *. assert (50 <= 50 * S * V) by nia. lia.
  - intros j Hj.
    pose proof (PaletteLayoutFacts.palette_of_counts_lookup B32 Color HSVToFColor
                  S V 0 0 j ltac:(lia) ltac:(lia) ltac:(unfold MaxHue; lia)) as Hentry.
    replace ((0 * Z.to_nat V + 0) * 50 + j)%nat with j in Hentry by lia.
    rewrite Hentry. unfold palette_color.
    change (Z.of_nat 0) with 0.
    rewrite (first_step_is_one S HS), (first_step_is_one V HV). reflexivity.
Qed.

(** X7.  Every call of [GenerateColors] (one per [ColorAllObjects] pass)
    appends at least 50 colors to [ObjectColors], and in binary32 the first 50
    it appends are the same on every call, whatever the requested number: the
    50 hues at saturation 1 and value 1.  After a second call the entries
    [j] and [length first + j] after the colors that were there before are
    equal for every [j < 50]: [ObjectColors] holds the same color at
    different identifiers. *)
Theorem palette_heads_repeat
    (Color : Type) (HSVToFColor : spec_float -> spec_float -> spec_float -> Color)
    (N1 N2 : Z) (ObjectColors : list Color) :
  is_uint32 N1 -> is_uint32 N2 ->
  exists first second : list Color,
    GenerateColors B32 Color HSVToFColor N1 ObjectColors = Some first /\
    GenerateColors B32 Color HSVToFColor N2 first = Some second /\
    (length ObjectColors + 50 <= length first)%nat /\
    (length first + 50 <= length second)%nat /\
    forall j : nat, (j < 50)%nat ->
      first !! (length ObjectColors + j)%nat =
        Some (HSVToFColor (fmul (a:=B32) (of_int (hue_index (Z.of_nat j))) (StepHue B32))
                          (of_int (a:=B32) 1) (of_int (a:=B32) 1)) /\
      second !! (length ObjectColors + j)%nat = first !! (length ObjectColors + j)%nat /\
      second !! (length first + j)%nat = first !! (length ObjectColors + j)%nat.
Proof.
  intros H1 H2.
  destruct (GenerateColors_head Color HSVToFColor N1 ObjectColors H1)
    as (g1 & Hrun1 & Hlen1 & Hhead1).
  destruct (GenerateColors_head Color HSVToFColor N2 (ObjectColors ++ g1) H2)
    as (g2 & Hrun2 & Hlen2 & Hhead2).
  exists (ObjectColors ++ g1), ((ObjectColors ++ g1) ++ g2).
  split; [exact Hrun1 |]. split; [exact Hrun2 |].
  split; [rewrite length_app; lia |]. split; [rewrite !length_app; lia |].
  intros j Hj.
  assert (Hfirst : (ObjectColors ++ g1) !! (length ObjectColors + j)%nat = g1 !! j).
  { rewrite lookup_app_r by lia. f_equal. lia. }
  split; [| split].
  - rewrite Hfirst. apply Hhead1. exact Hj.
  - apply lookup_app_l. rewrite length_app. lia.
  - rewrite Hfirst, lookup_app_r by lia.
    replace (length (ObjectColors ++ g1) + j - length (ObjectColors ++ g1))%nat
      with j by lia.
    rewrite Hhead1, Hhead2 by exact Hj. reflexivity.
Qed.

(** A request for 2 colors followed by one for 120. *)
Lemma palette_heads_repeat_witness :
  exists first second : list (spec_float * spec_float * spec_float),
    GenerateColors B32 _ (fun hue sat val => (hue, sat, val)) 2 [] = Some first /\
    GenerateColors B32 _ (fun hue sat val => (hue, sat, val)) 120 first = Some second /\
    second !! 50%nat = first !! 0%nat.
Proof.
  destruct (palette_heads_repeat _ (fun hue sat val => (hue, sat, val)) 2 120 [])
    as (first & second & Hrun1 & Hrun2 & Hlen1 & _ & Hsame).
  - unfold is_uint32. lia.
  - unfold is_uint32. lia.
  - exists first, second. split; [exact Hrun1 |]. split; [exact Hrun2 |].
    assert (Hfirst : length first = 50%nat).
    { vm_compute in Hrun1. injection Hrun1 as <-. reflexivity. }
    destruct (Hsame 0%nat ltac:(lia)) as (_ & _ & Heq).
    rewrite Hfirst in Heq. exact Heq.
Defined.

End PaletteRepeatFacts.

(** ** Colors and identifiers over recoloring passes *)

Section TableColorFacts.

Variable A : Arith.
Variable Color : Type.
Variable HSVToFColor : num A -> num A -> num A -> Color.
Context `{Countable Name}.

Implicit Types t : ColorTable Color (Name:=Name).

Lemma color_actor_colors t (ActorName : Name) t1 :
  color_actor Color t ActorName = Some t1 -> ObjectColors t1 = ObjectColors t.
Proof.
  unfold color_actor. destruct (ObjectToColor t !! ActorName).
  - intros [= <-]. reflexivity.
  - destruct (_ <? _); [| discriminate]. intros [= <-]. reflexivity.
Qed.

Lemma color_actors_colors (actors : list Name) :
  forall t t' painted,
    color_actors Color t actors = Some (t', painted) ->
    ObjectColors t' = ObjectColors t.
Proof.
  induction actors as [| a rest IH]; intros t t' painted Hrun; cbn [color_actors] in Hrun.
  - injection Hrun as <- _. reflexivity.
  - destruct (color_actor Color t a) as [t1 |] eqn:H1; [| discriminate Hrun].
    destruct (ColorObject Color t1 a) as [c |]; [| discriminate Hrun].
    destruct (color_actors Color t1 rest) as [[t2 p] |] eqn:H2; [| discriminate Hrun].
    injection Hrun as <- _.
    rewrite (IH _ _ _ H2). exact (color_actor_colors _ _ _ H1).
Qed.

Lemma ColorAllObjects_colors t (actors : list Name) t' painted :
  ColorAllObjects A Color HSVToFColor t actors = Some (t', painted) ->
  exists generated, ObjectColors t' = ObjectColors t ++ generated.
Proof.
  unfold ColorAllObjects. cbv zeta.
  destruct (GenerateColors _ _ _ _ _) as [colors |] eqn:Hgen; [| discriminate].
  intros Hrun. apply color_actors_colors in Hrun. cbn [ObjectColors] in Hrun.
  unfold GenerateColors in Hgen.
  destruct (palette_counts _) as [[S V] |]; [| discriminate Hgen].
  injection Hgen as <-. eexists. exact Hrun.
Qed.

Lemma ColorObject_kept t t' (name : Name) (c : Color) :
  (forall k, ObjectToColor t !! name = Some k -> ObjectToColor t' !! name = Some k) ->
  (exists more, ObjectColors t' = ObjectColors t ++ more) ->
  ColorObject Color t name = Some c -> ColorObject Color t' name = Some c.
Proof.
  intros Hid [more Hcolors]. unfold ColorObject.
  destruct (ObjectToColor t !! name) as [k |] eqn:Hk; [| discriminate].
  rewrite (Hid k eq_refl), Hcolors. intros Hc.
  apply lookup_app_l_Some. exact Hc.
Qed.

Lemma recolor_keeps (passes : list (list Name)) :
  forall t t',
    recolor A Color HSVToFColor t passes = Some t' ->
    extends t t' /\ exists more, ObjectColors t' = ObjectColors t ++ more.
Proof.
  induction passes as [| actors rest IH]; intros t t' Hrun; cbn [recolor] in Hrun.
  - injection Hrun as <-. split; [apply extends_refl |].
    exists []. rewrite app_nil_r. reflexivity.
  - destruct (ColorAllObjects A Color HSVToFColor t actors) as [[t1 p] |] eqn:H1;
      [| discriminate Hrun].
    destruct (IH _ _ Hrun) as (Hext & more2 & Hc2).
    destruct (ColorAllObjects_colors _ _ _ _ H1) as (more1 & Hc1).
    split.
    + eapply extends_trans; [| exact Hext].
      exact (proj1 (ColorAllObjects_extends A Color HSVToFColor _ _ _ _ H1)).
    + exists (more1 ++ more2). rewrite Hc2, Hc1, app_assoc. reflexivity.
Qed.

(** X8.  Over any run of recoloring passes [ObjectColors] only grows at its
    end, so an object keeps its color: a name that [ColorObject] paints with
    [c] is painted with [c] after every later pass, and every color of the
    palette stays at its index. *)
Theorem recolor_keeps_colors (passes : list (list Name)) t t' :
  recolor A Color HSVToFColor t passes = Some t' ->
  (forall (name : Name) (c : Color),
      ColorObject Color t name = Some c -> ColorObject Color t' name = Some c) /\
  (forall (i : nat) (c : Color),
      ObjectColors t !! i = Some c -> ObjectColors t' !! i = Some c) /\
  (length (ObjectColors t) <= length (ObjectColors t'))%nat.
Proof.
  intros Hrun. destruct (recolor_keeps _ _ _ Hrun) as ([Hids _] & more & Hcolors).
  split; [| split].
  - intros name c. apply ColorObject_kept; [| exists more; exact Hcolors].
    intros k. apply Hids.
  - intros i c Hi. rewrite Hcolors. apply lookup_app_l_Some. exact Hi.
  - rewrite Hcolors, length_app. lia.
Qed.

Lemma color_actor_ids t (ActorName : Name) t1 :
  ids_distinct t ->
  color_actor Color t ActorName = Some t1 ->
  ids_distinct t1 /\ is_Some (ObjectToColor t1 !! ActorName).
Proof.
  intros (H0 & Hsize & Hrange & Hinj & Hsurj). unfold color_actor.
  destruct (ObjectToColor t !! ActorName) as [k |] eqn:Hk.
  - intros [= <-]. split; [| rewrite Hk; eauto].
    repeat split; try assumption; apply Hrange in H1; lia.
  - destruct (ColorsUsed t <? wrap32 _) eqn:Hcheck; [| discriminate].
    intros [= <-]. apply Z.ltb_lt in Hcheck.
    pose proof (wrap32_range (Z.of_nat (length (ObjectColors t)))) as Hw.
    assert (Hnext : wrap32 (ColorsUsed t + 1) = ColorsUsed t + 1)
      by (apply wrap32_small; lia).
    split; [| cbn [ObjectToColor]; rewrite lookup_insert_eq; eauto].
    unfold ids_distinct. cbn [ObjectToColor ColorsUsed]. rewrite Hnext.
    split; [lia |]. split; [| split; [| split]].
    + rewrite map_size_insert_None by exact Hk. lia.
    + intros name id Hl.
      destruct (decide (name = ActorName)) as [-> | Hne].
      * rewrite lookup_insert_eq in Hl. injection Hl as <-. lia.
      * rewrite lookup_insert_ne in Hl by congruence.
        apply Hrange in Hl. lia.
    + intros n1 n2 id H1 H2.
      destruct (decide (n1 = ActorName)) as [-> | Hne1];
        destruct (decide (n2 = ActorName)) as [-> | Hne2]; [reflexivity | | |].
      * rewrite lookup_insert_eq in H1. injection H1 as <-.
        rewrite lookup_insert_ne in H2 by congruence. apply Hrange in H2. lia.
      * rewrite lookup_insert_eq in H2. injection H2 as <-.
        rewrite lookup_insert_ne in H1 by congruence. apply Hrange in H1. lia.
      * rewrite lookup_insert_ne in H1 by congruence.
        rewrite lookup_insert_ne in H2 by congruence.
        exact (Hinj _ _ _ H1 H2).
    + intros id Hid.
      destruct (decide (id = ColorsUsed t)) as [-> | Hne].
      * exists ActorName. apply lookup_insert_eq.
      * destruct (Hsurj id ltac:(lia)) as [name Hname].
        exists name. rewrite lookup_insert_ne; [exact Hname |].
        intros <-. congruence.
Qed.

Lemma color_actors_ids (actors : list Name) :
  forall t t' painted,
    ids_distinct t ->
    color_actors Color t actors = Some (t', painted) ->
    ids_distinct t' /\
    map fst painted = actors /\
    (forall name c, (name, c) ∈ painted -> ColorObject Color t' name = Some c).
Proof.
  induction actors as [| a rest IH]; intros t t' painted Hok Hrun;
    cbn [color_actors] in Hrun.
  - injection Hrun as <- <-. split; [exact Hok |]. split; [reflexivity |].
    intros name c Hin. apply elem_of_nil in Hin. contradiction.
  - destruct (color_actor Color t a) as [t1 |] eqn:H1; [| discriminate Hrun].
    destruct (ColorObject Color t1 a) as [c |] eqn:Hc; [| discriminate Hrun].
    destruct (color_actors Color t1 rest) as [[t2 p] |] eqn:H2; [| discriminate Hrun].
    injection Hrun as <- <-.
    destruct (color_actor_ids _ _ _ Hok H1) as [Hok1 _].
    destruct (IH _ _ _ Hok1 H2) as (Hok2 & Hnames & Hpainted).
    split; [exact Hok2 |]. split; [cbn [map fst]; rewrite Hnames; reflexivity |].
    intros name c' Hin. apply elem_of_cons in Hin as [Heq | Hin].
    + injection Heq as -> ->.
      apply (ColorObject_kept t1 t2 a c); [| | exact Hc].
      * intros k. apply (proj1 (color_actors_extends Color rest _ _ _ H2)).
      * exists []. rewrite app_nil_r. exact (color_actors_colors _ _ _ _ H2).
    + apply Hpainted. exact Hin.
Qed.

Lemma ColorAllObjects_ids t (actors : list Name) t' painted :
  ids_distinct t ->
  ColorAllObjects A Color HSVToFColor t actors = Some (t', painted) ->
  ids_distinct t' /\
  map fst painted = actors /\
  (forall name c, (name, c) ∈ painted -> ColorObject Color t' name = Some c).
Proof.
  intros Hok. unfold ColorAllObjects. cbv zeta.
  destruct (GenerateColors _ _ _ _ _) as [colors |]; [| discriminate].
  apply color_actors_ids. exact Hok.
Qed.

Lemma initial_ids_distinct : ids_distinct (initial_table Color (Name:=Name)).
Proof.
  unfold ids_distinct, initial_table. cbn [ObjectToColor ColorsUsed].
  split; [lia |]. split; [rewrite map_size_empty; reflexivity |].
  split; [| split].
  - intros name id Hl. rewrite lookup_empty in Hl. discriminate Hl.
  - intros n1 n2 id Hl. rewrite lookup_empty in Hl. discriminate Hl.
  - intros id Hid. lia.
Qed.

Lemma recolor_ids (passes : list (list Name)) :
  forall t t',
    ids_distinct t ->
    recolor A Color HSVToFColor t passes = Some t' -> ids_distinct t'.
Proof.
  induction passes as [| actors rest IH]; intros t t' Hok Hrun; cbn [recolor] in Hrun.
  - injection Hrun as <-. exact Hok.
  - destruct (ColorAllObjects A Color HSVToFColor t actors) as [[t1 p] |] eqn:H1;
      [| discriminate Hrun].
    apply (IH t1 t'); [| exact Hrun].
    exact (proj1 (ColorAllObjects_ids _ _ _ _ Hok H1)).
Qed.

(** X9.  Starting from the constructor's empty table, after any run of
    recoloring passes the identifiers in [ObjectToColor] are exactly
    [0 .. ColorsUsed - 1]: two different names never hold the same identifier,
    every identifier below [ColorsUsed] belongs to a name, and [ColorsUsed] is
    the number of names in the table. *)
Theorem recolor_identifiers_distinct (passes : list (list Name)) t' :
  recolor A Color HSVToFColor (initial_table Color) passes = Some t' ->
  (forall (name1 name2 : Name) (id : Z),
      ObjectToColor t' !! name1 = Some id -> ObjectToColor t' !! name2 = Some id ->
      name1 = name2) /\
  (forall (name : Name) (id : Z),
      ObjectToColor t' !! name = Some id -> 0 <= id < ColorsUsed t') /\
  (forall id : Z, 0 <= id < ColorsUsed t' ->
      exists name : Name, ObjectToColor t' !! name = Some id) /\
  Z.of_nat (size (ObjectToColor t')) = ColorsUsed t'.
Proof.
  intros Hrun.
  destruct (recolor_ids passes _ _ initial_ids_distinct Hrun)
    as (_ & Hsize & Hrange & Hinj & Hsurj).
  split; [exact Hinj |]. split; [exact Hrange |]. split; [exact Hsurj | exact Hsize].
Qed.

(** X10.  A pass of [ColorAllObjects] over a table that satisfies the
    invariants, with fewer than [2^31] colors and fewer than [2^29] actors,
    returns (the [check] does not fire) and paints the actors in iteration
    order, each with the color its identifier indexes in the table the pass
    leaves; every actor of the pass has an identifier afterwards, and an actor
    listed twice is painted twice with the same color. *)
Theorem ColorAllObjects_paints t (actors : list Name) :
  table_ok t -> ids_distinct t ->
  Z.of_nat (length (ObjectColors t)) < 2 ^ 31 ->
  Z.of_nat (length actors) < 2 ^ 29 ->
  exists t' painted,
    ColorAllObjects A Color HSVToFColor t actors = Some (t', painted) /\
    map fst painted = actors /\
    (forall name c, (name, c) ∈ painted ->
       ColorObject Color t' name = Some c /\
       exists id, ObjectToColor t' !! name = Some id /\
                  ObjectColors t' !! Z.to_nat id = Some c) /\
    (forall name c1 c2, (name, c1) ∈ painted -> (name, c2) ∈ painted -> c1 = c2) /\
    table_ok t' /\ ids_distinct t'.
Proof.
  intros Hok Hids Hcolors Hactors.
  destruct (ColorAllObjects_returns A Color HSVToFColor t actors Hok Hcolors Hactors)
    as (t' & painted & Hrun & Hok' & _).
  destruct (ColorAllObjects_ids _ _ _ _ Hids Hrun) as (Hids' & Hnames & Hpainted).
  exists t', painted. split; [exact Hrun |]. split; [exact Hnames |].
  split; [| split; [| split; [exact Hok' | exact Hids']]].
  - intros name c Hin. pose proof (Hpainted _ _ Hin) as Hc.
    split; [exact Hc |]. unfold ColorObject in Hc.
    destruct (ObjectToColor t' !! name) as [id |]; [| discriminate Hc].
    exists id. split; [reflexivity | exact Hc].
  - intros name c1 c2 H1 H2.
    pose proof (Hpainted _ _ H1) as Hc1. pose proof (Hpainted _ _ H2) as Hc2.
    congruence.
Qed.

End TableColorFacts.

Module TableColorExamples.
Import TableExample.

(** The chair keeps its color over the second pass of the example. *)
Lemma recolor_keeps_colors_witness :
  recolor B32 hsv keep_hsv first_pass (drop 1 passes) = Some both_passes /\
  ColorObject hsv both_passes "Chair"%string = ColorObject hsv first_pass "Chair"%string.
Proof.
  assert (Hrun : recolor B32 hsv keep_hsv first_pass (drop 1 passes) = Some both_passes)
    by (vm_compute; reflexivity).
  destruct (recolor_keeps_colors B32 hsv keep_hsv _ _ _ Hrun) as (Hkeep & _ & _).
  split; [exact Hrun |].
  destruct (ColorObject hsv first_pass "Chair"%string) as [c |] eqn:Hc.
  - apply Hkeep. exact Hc.
  - vm_compute in Hc. discriminate Hc.
Defined.

(** The two passes of the example, from the empty table. *)
Lemma recolor_identifiers_distinct_witness :
  recolor B32 hsv keep_hsv (initial_table hsv) passes = Some both_passes /\
  Z.of_nat (size (ObjectToColor both_passes)) = ColorsUsed both_passes.
Proof.
  assert (Hrun : recolor B32 hsv keep_hsv (initial_table hsv) passes = Some both_passes)
    by (vm_compute; reflexivity).
  destruct (recolor_identifiers_distinct B32 hsv keep_hsv _ _ Hrun) as (_ & _ & _ & Hsize).
  split; [exact Hrun | exact Hsize].
Defined.

(** The first pass of the example. *)
Lemma ColorAllObjects_paints_witness :
  exists t' painted,
    ColorAllObjects B32 hsv keep_hsv (initial_table hsv) ["Floor"; "Chair"]%string
      = Some (t', painted) /\
    map fst painted = ["Floor"; "Chair"]%string.
Proof.
  destruct (ColorAllObjects_paints B32 hsv keep_hsv (initial_table hsv)
              ["Floor"; "Chair"]%string)
    as (t' & painted & Hrun & Hnames & _).
  - apply initial_table_ok.
  - apply initial_ids_distinct.
  - cbn [initial_table ObjectColors length]. lia.
  - cbn [length]. lia.
  - exists t', painted. split; [exact Hrun | exact Hnames].
Defined.

End TableColorExamples.

(** ** The frame gate: pausing and a zero rate *)

Module GateCornerFacts.

Lemma paused_run (A : Arith) (g : Gate A) (deltas : list (num A)) :
  Paused g = true -> run_ticks A g deltas = (g, 0%nat).
Proof.
  intros Hp. induction deltas as [| dt rest IH]; [reflexivity |].
  cbn [run_ticks]. unfold TickComponent_gate. rewrite Hp, IH. reflexivity.
Qed.

(** X11.  While the sensor is paused no tick processes a frame and no tick
    time is accumulated: after any number of paused ticks the gate is as it
    was, so once [Pause(false)] is called the ticks that follow behave as if
    the paused ticks had not happened. *)
Theorem paused_time_not_counted (A : Arith) (g : Gate A) (deltas later : list (num A)) :
  run_ticks A (Pause A g true) deltas = (Pause A g true, 0%nat) /\
  run_ticks A (Pause A (fst (run_ticks A (Pause A g true) deltas)) false) later =
    run_ticks A (Pause A g false) later.
Proof.
  assert (Hrun : run_ticks A (Pause A g true) deltas = (Pause A g true, 0%nat))
    by (apply paused_run; reflexivity).
  split; [exact Hrun |]. rewrite Hrun. reflexivity.
Qed.

Lemma below_infinity_run (deltas : list spec_float) :
  forall g : Gate B32,
    Paused g = false -> UseEngineFramerate g = false ->
    FrameTime g = infinity32 ->
    (forall k : nat, (1 <= k <= length deltas)%nat ->
       flt (a:=B32) (accumulated B32 (TimePassed g) (take k deltas)) infinity32 = true) ->
    snd (run_ticks B32 g deltas) = 0%nat /\
    TimePassed (fst (run_ticks B32 g deltas)) = accumulated B32 (TimePassed g) deltas.
Proof.
  induction deltas as [| dt rest IH]; intros g Hp He Hft Hfin.
  - split; reflexivity.
  - rewrite GateFacts.run_ticks_cons.
    assert (Hfirst : flt (a:=B32) (fadd (a:=B32) (TimePassed g) dt) infinity32 = true).
    { apply (Hfin 1%nat). cbn [length]. lia. }
    assert (Hstep : TickComponent_gate B32 g dt =
                    (set_TimePassed B32 g (fadd (a:=B32) (TimePassed g) dt), false)).
    { unfold TickComponent_gate. rewrite Hp.
      cbn [set_TimePassed UseEngineFramerate TimePassed FrameTime].
      rewrite He, Hft, Hfirst. reflexivity. }
    rewrite Hstep. cbn [fst snd].
    apply (IH (set_TimePassed B32 g (fadd (a:=B32) (TimePassed g) dt)) Hp He Hft).
    intros k Hk. apply (Hfin (S k)). cbn [length]. lia.
Qed.

(** X13.  [SetFramerate(0)] does not fail: in binary32 the frame interval
    becomes [1.0f / 0 = +infinity], and from then on no tick of a sensor that
    does not follow the engine's rate processes a frame, as long as the
    accumulated tick time stays below [+infinity]; the tick times only add
    up in [TimePassed]. *)
Theorem zero_framerate_never_fires (g : Gate B32) (deltas : list spec_float) :
  Paused g = false -> UseEngineFramerate g = false ->
  (forall k : nat, (1 <= k <= length deltas)%nat ->
     flt (a:=B32) (accumulated B32 (of_int 0) (take k deltas)) infinity32 = true) ->
  let g0 := SetFramerate B32 g (of_int 0) in
  FrameTime g0 = infinity32 /\
  snd (run_ticks B32 g0 deltas) = 0%nat /\
  TimePassed (fst (run_ticks B32 g0 deltas)) = accumulated B32 (of_int 0) deltas.
Proof.
  intros Hp He Hfin. cbv zeta.
  split; [vm_compute; reflexivity |].
  apply below_infinity_run.
  - exact Hp.
  - exact He.
  - vm_compute. reflexivity.
  - exact Hfin.
Qed.

(** Four ticks of a quarter of a second at rate 0. *)
Lemma zero_framerate_never_fires_witness :
  snd (run_ticks B32 (SetFramerate B32 (constructed_gate B32) (of_int 0)) slow_ticks)
    = 0%nat.
Proof.
  destruct (zero_framerate_never_fires (constructed_gate B32) slow_ticks)
    as (_ & Hn & _).
  - reflexivity.
  - reflexivity.
  - intros k Hk. cbn [slow_ticks length] in Hk.
    destruct k as [| [| [| [| [| k]]]]]; try lia; vm_compute; reflexivity.
  - exact Hn.
Defined.

End GateCornerFacts.

(** ** The mutexes of the capture protocol *)

Module ExclusionFacts.
Import Protocol Exclusion.

Lemma initial_mutex_ok (c : Channel) : mutex_ok initial c.
Proof. destruct c; split; reflexivity. Qed.

Ltac reduce_step Hstep HmC HmD HwC HwD :=
  repeat (first [ match type of Hstep with
                  | context [if ?b then _ else _] =>
                      lazymatch type of b with
                      | bool =>
                          let v := eval cbn in b in
                          lazymatch v with
                          | true => fail
                          | false => fail
                          | _ => destruct b
                          end
                      end
                  end
                | rewrite HmC in Hstep | rewrite HmD in Hstep
                | rewrite HwC in Hstep | rewrite HwD in Hstep
                | progress cbn in Hstep
                | progress unfold ProcessColor, ProcessDepth, worker_step, producer_step,
                    lock, notify_one, StartWriting, DoneWriting,
                    StartReading, DoneReading in Hstep ]).

Lemma producer_step_mutex_ok (s s' : State) :
  (forall c, mutex_ok s c) -> producer_step s = Some s' -> forall c, mutex_ok s' c.
Proof.
  intros Hok Hstep c.
  destruct (Hok ColorCh) as [HmC HxC]. destruct (Hok DepthCh) as [HmD HxD].
  unfold owner, producer_holds, worker_holds in HmC, HxC, HmD, HxD.
  unfold mutex_ok, owner, producer_holds, worker_holds.
  destruct s as [tk rn pc w m rw pl bf].
  cbn [producer worker mutex] in *.
  destruct pc as [| [|] | [|] | [|] | [|] | | | |];
    destruct (w ColorCh) eqn:HwC; destruct (w DepthCh) eqn:HwD;
    cbn in HmC, HxC, HmD, HxD; try discriminate;
    reduce_step Hstep HmC HmD HwC HwD;
    try discriminate Hstep;
    injection Hstep as <-; destruct c; cbn;
    try rewrite HwC; try rewrite HwD; cbn; split; congruence.
Qed.

Lemma worker_step_mutex_ok (s s' : State) (d : Channel) :
  (forall c, mutex_ok s c) -> worker_step s d = Some s' -> forall c, mutex_ok s' c.
Proof.
  intros Hok Hstep c.
  destruct (Hok ColorCh) as [HmC HxC]. destruct (Hok DepthCh) as [HmD HxD].
  unfold owner, producer_holds, worker_holds in HmC, HxC, HmD, HxD.
  unfold mutex_ok, owner, producer_holds, worker_holds.
  destruct s as [tk rn pc w m rw pl bf].
  cbn [producer worker mutex] in *.
  destruct d.
  - destruct (w ColorCh) eqn:HwC;
      destruct pc as [| [|] | [|] | [|] | [|] | | | |];
      cbn in HmC, HxC, HmD, HxD; try discriminate;
      reduce_step Hstep HmC HmD HwC HwC;
      try discriminate Hstep;
      injection Hstep as <-; destruct c; cbn;
      try rewrite HwC; cbn; split; first [assumption | congruence].
  - destruct (w DepthCh) eqn:HwD;
      destruct pc as [| [|] | [|] | [|] | [|] | | | |];
      cbn in HmC, HxC, HmD, HxD; try discriminate;
      reduce_step Hstep HmC HmD HwD HwD;
      try discriminate Hstep;
      injection Hstep as <-; destruct c; cbn;
      try rewrite HwD; cbn; split; first [assumption | congruence].
Qed.

Lemma step_mutex_ok (s s' : State) (t : Thread) :
  (forall c, mutex_ok s c) -> step s t = Some s' -> forall c, mutex_ok s' c.
Proof.
  intros Hok Hstep. destruct t as [| [|]].
  - exact (producer_step_mutex_ok s s' Hok Hstep).
  - exact (worker_step_mutex_ok s s' ColorCh Hok Hstep).
  - exact (worker_step_mutex_ok s s' DepthCh Hok Hstep).
Qed.

Lemma run_mutex_ok (schedule : list Thread) :
  forall s s' : State,
    (forall c, mutex_ok s c) -> run s schedule = Some s' -> forall c, mutex_ok s' c.
Proof.
  induction schedule as [| t rest IH]; intros s s' Hok Hrun; cbn [run] in Hrun.
  - injection Hrun as <-. exact Hok.
  - destruct (step s t) as [s1 |] eqn:Hstep; [| discriminate Hrun].
    cbn in Hrun. exact (IH s1 s' (step_mutex_ok s s1 t Hok Hstep) Hrun).
Qed.

(** X15.  Under every schedule of the game thread and the two workers, from
    the state [BeginPlay] leaves, each of the mutexes [WaitColor] and
    [WaitDepth] is held by exactly the thread that is inside its critical
    section; so the game thread never reads a new image into [ImageColor] or
    [ImageDepth] while the worker of that channel converts it, and a worker
    never converts while the game thread reads. *)
Theorem raw_image_never_shared (schedule : list Thread) (s : State) :
  run initial schedule = Some s ->
  forall c : Channel,
    mutex s c = owner s c /\
    (producer s = P_Read c ->
       worker s c <> W_Convert /\ worker s c <> W_Converting) /\
    (worker s c = W_Convert \/ worker s c = W_Converting ->
       producer s <> P_Read c /\ mutex s c = Some (Worker c)).
Proof.
  intros Hrun c.
  destruct (run_mutex_ok schedule initial s initial_mutex_ok Hrun c) as [Hm Hx].
  split; [exact Hm |]. unfold owner in Hm.
  unfold producer_holds, worker_holds in Hm, Hx. split.
  - intros Hp. rewrite Hp in Hx.
    assert (Hc : Channel_eqb c c = true) by (destruct c; reflexivity).
    rewrite Hc in Hx. cbn [andb] in Hx.
    split; intros Hw; rewrite Hw in Hx; discriminate Hx.
  - intros Hw. split.
    + intros Hp. rewrite Hp in Hx.
      assert (Hc : Channel_eqb c c = true) by (destruct c; reflexivity).
      rewrite Hc in Hx. cbn [andb] in Hx.
      destruct Hw as [Hw | Hw]; rewrite Hw in Hx; discriminate Hx.
    + rewrite Hm.
      destruct (match producer s with
                | P_Read d | P_Unlock d => Channel_eqb c d
                | _ => false
                end) eqn:Hp.
      * cbn [andb] in Hx. destruct Hw as [Hw | Hw]; rewrite Hw in Hx; discriminate Hx.
      * destruct Hw as [Hw | Hw]; rewrite Hw; reflexivity.
Qed.

(** The schedule of the early read, which ends while the color worker converts. *)
Lemma raw_image_never_shared_witness :
  exists s, run initial early_read = Some s /\ mutex s ColorCh = Some (Worker ColorCh).
Proof.
  destruct (run initial early_read) as [s |] eqn:Hrun.
  - exists s. split; [reflexivity |].
    destruct (raw_image_never_shared early_read s Hrun ColorCh) as (_ & _ & Hw).
    apply Hw. right. vm_compute in Hrun. injection Hrun as <-. reflexivity.
  - vm_compute in Hrun. discriminate Hrun.
Defined.

End ExclusionFacts.

(** ** Shutdown: [EndPlay] and the two workers *)

Module ShutdownFacts.
Import Protocol Shutdown.

Ltac reduce_shutdown Hstep HmC HmD HwC HwD :=
  repeat (first [ match type of Hstep with
                  | context [if ?b then _ else _] =>
                      lazymatch type of b with
                      | bool =>
                          let v := eval cbn in b in
                          lazymatch v with
                          | true => fail
                          | false => fail
                          | _ => destruct b
                          end
                      end
                  end
                | rewrite HmC in Hstep | rewrite HmD in Hstep
                | rewrite HwC in Hstep | rewrite HwD in Hstep
                | progress cbn in Hstep
                | progress unfold shutdown_step, EndPlay_step, step,
                    ProcessColor, ProcessDepth, worker_step,
                    lock, notify_one in Hstep ]).

Lemma shutdown_step_ok (raw0 : Channel -> nat) (s s' : System) (t : Thread) :
  (forall c, channel_ok raw0 s c) ->
  shutdown_step s t = Some s' ->
  (forall c, channel_ok raw0 s' c) /\ (steps_left s' < steps_left s)%nat.
Proof.
  intros Hok Hstep.
  destruct (Hok ColorCh) as (HrC & HmC & HcC & HpC).
  destruct (Hok DepthCh) as (HrD & HmD & HcD & HpD).
  unfold Exclusion.worker_holds in HmC, HmD.
  unfold channel_ok, Exclusion.worker_holds, steps_left.
  destruct s as [[tk rn pc w m rw pl bf] ep].
  cbn [threads endplay producer worker mutex Running raw plane] in *.
  destruct t as [| [|]];
    destruct ep as [| [|] | [|] |];
    destruct (w ColorCh) eqn:HwC; destruct (w DepthCh) eqn:HwD;
    destruct rn;
    cbn in HcC, HcD; try discriminate;
    cbn in HmC, HmD, HpC, HpD;
    reduce_shutdown Hstep HmC HmD HwC HwD;
    try discriminate Hstep;
    injection Hstep as <-;
    (split; [intros [|]; cbn; try rewrite HwC; try rewrite HwD; cbn;
             repeat split; auto; try congruence; try discriminate
            | cbn; try rewrite HwC; try rewrite HwD; cbn; lia]).
Qed.

Lemma shutdown_run_ok (raw0 : Channel -> nat) (schedule : list Thread) :
  forall s s' : System,
    (forall c, channel_ok raw0 s c) ->
    shutdown_run s schedule = Some s' ->
    (forall c, channel_ok raw0 s' c) /\
    (length schedule + steps_left s' <= steps_left s)%nat.
Proof.
  induction schedule as [| t rest IH]; intros s s' Hok Hrun; cbn [shutdown_run] in Hrun.
  - injection Hrun as <-. split; [exact Hok | cbn [length]; lia].
  - destruct (shutdown_step s t) as [s1 |] eqn:Hstep; [| discriminate Hrun].
    destruct (shutdown_step_ok raw0 s s1 t Hok Hstep) as [Hok1 Hless].
    destruct (IH s1 s' Hok1 Hrun) as [Hok' Hlen].
    split; [exact Hok' | cbn [length]; lia].
Qed.

Lemma quiescent_ok (s0 : State) :
  quiescent s0 -> forall c, channel_ok (raw s0) (EndPlay_called s0) c.
Proof.
  intros (Hrun & Hparked & Hfree) c.
  unfold channel_ok, EndPlay_called, Exclusion.worker_holds.
  cbn [threads endplay]. rewrite Hrun, (Hparked c), (Hfree c).
  split; [reflexivity |]. split; [reflexivity |].
  split; [destruct c; reflexivity | discriminate].
Qed.

Lemma shutdown_progress (raw0 : Channel -> nat) (s : System) :
  (forall c, channel_ok raw0 s c) ->
  endplay s = E_Returned \/ exists t s1, shutdown_step s t = Some s1.
Proof.
  intros Hok.
  destruct (Hok ColorCh) as (_ & HmC & HcC & _).
  destruct (Hok DepthCh) as (_ & HmD & HcD & _).
  unfold Exclusion.worker_holds in HmC, HmD.
  destruct s as [[tk rn pc w m rw pl bf] ep].
  cbn [threads endplay producer worker mutex Running raw plane] in *.
  destruct ep as [| [|] | [|] |]; try (right; exists Producer; eexists; reflexivity).
  - destruct (w ColorCh) eqn:HwC; destruct rn; cbn in HcC; try discriminate HcC;
      cbn in HmC;
      first [ right; exists Producer; eexists; cbn; rewrite HwC; reflexivity
            | right; exists (Worker ColorCh); eexists; cbn;
              unfold ProcessColor, worker_step, lock; cbn;
              rewrite HwC; try rewrite HmC; reflexivity ].
  - destruct (w DepthCh) eqn:HwD; destruct rn; cbn in HcD; try discriminate HcD;
      cbn in HmD;
      first [ right; exists Producer; eexists; cbn; rewrite HwD; reflexivity
            | right; exists (Worker DepthCh); eexists; cbn;
              unfold ProcessDepth, worker_step, lock; cbn;
              rewrite HwD; try rewrite HmD; reflexivity ].
  - left. reflexivity.
Qed.

Lemma stuck_step (s s' : System) (t : Thread) (c : Channel) :
  worker (threads s) c = W_Parked -> waits_for (endplay s) c = true ->
  shutdown_step s t = Some s' ->
  worker (threads s') c = W_Parked /\ waits_for (endplay s') c = true.
Proof.
  intros Hw Hst Hstep.
  destruct s as [[tk rn pc w m rw pl bf] ep].
  cbn [threads endplay worker] in *.
  destruct c; destruct ep as [| [|] | [|] |]; cbn in Hst; try discriminate Hst;
    destruct t as [| [|]];
    destruct (w ColorCh) eqn:HwC; try discriminate Hw;
    destruct (w DepthCh) eqn:HwD; try discriminate Hw;
    destruct (m ColorCh) eqn:HmC; destruct (m DepthCh) eqn:HmD;
    reduce_shutdown Hstep HmC HmD HwC HwD;
    try discriminate Hstep;
    injection Hstep as <-; cbn; try rewrite HwC; try rewrite HwD; split; reflexivity.
Qed.

Lemma stuck_run (schedule : list Thread) (c : Channel) :
  forall s s' : System,
    worker (threads s) c = W_Parked -> waits_for (endplay s) c = true ->
    shutdown_run s schedule = Some s' ->
    worker (threads s') c = W_Parked /\ waits_for (endplay s') c = true.
Proof.
  induction schedule as [| t rest IH]; intros s s' Hw Hst Hrun; cbn [shutdown_run] in Hrun.
  - injection Hrun as <-. split; assumption.
  - destruct (shutdown_step s t) as [s1 |] eqn:Hstep; [| discriminate Hrun].
    destruct (stuck_step s s1 t c Hw Hst Hstep) as [Hw1 Hst1].
    exact (IH s1 s' Hw1 Hst1 Hrun).
Qed.

Lemma notify_one_keeps (s : State) (c d : Channel) :
  worker s c = W_Wait ->
  worker (notify_one s d) c = W_Wait /\ Running (notify_one s d) = Running s.
Proof.
  intros Hw. unfold notify_one.
  destruct (worker s d) eqn:Hd; try (split; [exact Hw | reflexivity]).
  destruct c, d; cbn; split; first [exact Hw | reflexivity | congruence].
Qed.

Lemma lost_wakeup_reaches (s0 : State) (c : Channel) :
  worker s0 c = W_Wait ->
  exists s1,
    shutdown_run (EndPlay_called s0) (lost_wakeup c) = Some s1 /\
    worker (threads s1) c = W_Parked /\ endplay s1 = E_Join ColorCh /\
    Running (threads s1) = false.
Proof.
  intros Hw.
  set (sa := set_Running s0 false).
  set (sb := notify_one sa ColorCh).
  set (sc := notify_one sb DepthCh).
  assert (Ha : worker sa c = W_Wait) by exact Hw.
  destruct (notify_one_keeps sa c ColorCh Ha) as [Hb Hrb]. fold sb in Hb, Hrb.
  destruct (notify_one_keeps sb c DepthCh Hb) as [Hc Hrc]. fold sc in Hc, Hrc.
  exists (MkSystem (set_worker (set_mutex sc c None) c W_Parked) (E_Join ColorCh)).
  split; [| split; [| split]].
  - unfold EndPlay_called, lost_wakeup.
    cbn [shutdown_run shutdown_step EndPlay_step endplay threads].
    fold sa. fold sb. fold sc.
    assert (Hstep : step sc (Worker c)
                    = Some (set_worker (set_mutex sc c None) c W_Parked)).
    { destruct c; cbn [step]; unfold ProcessColor, ProcessDepth, worker_step;
        rewrite Hc; reflexivity. }
    rewrite Hstep. reflexivity.
  - cbn [threads]. destruct c; reflexivity.
  - reflexivity.
  - cbn [threads]. change (Running sc = false). rewrite Hrc, Hrb. reflexivity.
Qed.

(** X17.  [EndPlay] can block for ever.  If it is called while a worker has
    taken its lock and has not yet called [wait], and that worker calls
    [wait] only after [EndPlay] has sent its notification, the notification is
    lost: under every continuation the worker stays parked, [EndPlay] stays in
    a [join] and never returns, although [Running] is false.  ([wait] returns
    only when notified: a spurious wake-up is not part of the model.) *)
Theorem EndPlay_lost_wakeup (s0 : State) (c : Channel) :
  worker s0 c = W_Wait ->
  exists s1 : System,
    shutdown_run (EndPlay_called s0) (lost_wakeup c) = Some s1 /\
    Running (threads s1) = false /\
    forall (schedule : list Thread) (s : System),
      shutdown_run s1 schedule = Some s ->
      worker (threads s) c = W_Parked /\
      endplay s <> E_Returned /\
      exists d, endplay s = E_Join d.
Proof.
  intros Hw.
  destruct (lost_wakeup_reaches s0 c Hw) as (s1 & Hrun & Hparked & Hjoin & Hstop).
  exists s1. split; [exact Hrun |]. split; [exact Hstop |].
  intros schedule s Hcont.
  assert (Hst : waits_for (endplay s1) c = true)
    by (rewrite Hjoin; destruct c; reflexivity).
  destruct (stuck_run schedule c s1 s Hparked Hst Hcont) as [Hw' Hst'].
  split; [exact Hw' |].
  destruct (endplay s) as [| [|] | [|] |]; destruct c; cbn in Hst';
    try discriminate Hst'; (split; [discriminate | eauto]).
Qed.

Lemma EndPlay_lost_wakeup_witness :
  exists s1 : System,
    shutdown_run (EndPlay_called about_to_wait) (lost_wakeup ColorCh) = Some s1 /\
    Running (threads s1) = false.
Proof.
  destruct (EndPlay_lost_wakeup about_to_wait ColorCh) as (s1 & Hrun & Hstop & _).
  - reflexivity.
  - exists s1. split; [exact Hrun | exact Hstop].
Defined.

End ShutdownFacts.

(** ** Shutdown with spurious wake-ups *)

Module WakeupFacts.
Import Protocol Shutdown Wakeups.

Ltac reduce_event Hstep HmC HmD HwC HwD :=
  repeat (first [ match type of Hstep with
                  | context [if ?b then _ else _] =>
                      lazymatch type of b with
                      | bool =>
                          let v := eval cbn in b in
                          lazymatch v with
                          | true => fail
                          | false => fail
                          | _ => destruct b
                          end
                      end
                  end
                | rewrite HmC in Hstep | rewrite HmD in Hstep
                | rewrite HwC in Hstep | rewrite HwD in Hstep
                | progress cbn in Hstep
                | progress unfold event_step, spurious_wakeup, shutdown_step,
                    EndPlay_step, step, ProcessColor, ProcessDepth, worker_step,
                    lock, notify_one in Hstep ]).

Lemma EndPlay_step_wakeup_ok (raw0 : Channel -> nat) (s s' : System) :
  (forall c, wakeup_ok raw0 s c) ->
  EndPlay_step s = Some s' ->
  forall c, wakeup_ok raw0 s' c.
Proof.
  intros Hok Hstep.
  destruct (Hok ColorCh) as (HrC & HmC & HcC & HpC).
  destruct (Hok DepthCh) as (HrD & HmD & HcD & HpD).
  unfold Exclusion.worker_holds in HmC, HmD.
  unfold wakeup_ok, Exclusion.worker_holds.
  destruct s as [[tk rn pc w m rw pl bf] ep].
  cbn [threads endplay producer worker mutex Running raw plane] in *.
  destruct ep as [| [|] | [|] |];
    destruct (w ColorCh) eqn:HwC; destruct (w DepthCh) eqn:HwD;
    destruct rn;
    cbn in HcC, HcD; try discriminate;
    cbn in HmC, HmD, HpC, HpD;
    reduce_event Hstep HmC HmD HwC HwD;
    try discriminate Hstep;
    injection Hstep as <-;
    intros [|]; cbn; try rewrite HwC; try rewrite HwD; cbn;
    repeat split; auto; try congruence; try discriminate.
Qed.

Lemma worker_event_ok (raw0 : Channel -> nat) (s : System) (s1 : State) (d : Channel) :
  (forall c, wakeup_ok raw0 s c) ->
  (worker_step (threads s) d = Some s1 \/ spurious_wakeup (threads s) d = Some s1) ->
  forall c, wakeup_ok raw0 (MkSystem s1 (endplay s)) c.
Proof.
  intros Hok Hstep.
  destruct (Hok ColorCh) as (HrC & HmC & HcC & HpC).
  destruct (Hok DepthCh) as (HrD & HmD & HcD & HpD).
  unfold Exclusion.worker_holds in HmC, HmD.
  unfold wakeup_ok, Exclusion.worker_holds.
  destruct s as [[tk rn pc w m rw pl bf] ep].
  cbn [threads endplay producer worker mutex Running raw plane] in *.
  destruct d.
  - destruct Hstep as [Hstep | Hstep];
      destruct (w ColorCh) eqn:HwC; destruct rn;
      reduce_event Hstep HmC HmD HwC HwC;
      try discriminate Hstep;
      injection Hstep as <-;
      (intros [|]; cbn; try rewrite HwC; cbn;
       [ destruct ep as [| [|] | [|] |]; cbn in HcC |- *; try discriminate HcC;
         cbn in HpC; repeat split; auto; try congruence; try discriminate
       | repeat split; assumption ]).
  - destruct Hstep as [Hstep | Hstep];
      destruct (w DepthCh) eqn:HwD; destruct rn;
      reduce_event Hstep HmC HmD HwD HwD;
      try discriminate Hstep;
      injection Hstep as <-;
      (intros [|]; cbn; try rewrite HwD; cbn;
       [ repeat split; assumption
       | destruct ep as [| [|] | [|] |]; cbn in HcD |- *; try discriminate HcD;
         cbn in HpD; repeat split; auto; try congruence; try discriminate ]).
Qed.

Lemma event_step_ok (raw0 : Channel -> nat) (s s' : System) (ev : Event) :
  (forall c, wakeup_ok raw0 s c) ->
  event_step s ev = Some s' ->
  forall c, wakeup_ok raw0 s' c.
Proof.
  intros Hok Hstep. destruct ev as [[| d] | d]; cbn [event_step shutdown_step] in Hstep.
  - exact (EndPlay_step_wakeup_ok raw0 s s' Hok Hstep).
  - destruct (step (threads s) (Worker d)) as [s1 |] eqn:Hw; [| discriminate Hstep].
    injection Hstep as <-. apply (worker_event_ok raw0 s s1 d Hok). left.
    destruct d; exact Hw.
  - destruct (spurious_wakeup (threads s) d) as [s1 |] eqn:Hw; [| discriminate Hstep].
    injection Hstep as <-. apply (worker_event_ok raw0 s s1 d Hok). right. exact Hw.
Qed.

Lemma event_run_ok (raw0 : Channel -> nat) (events : list Event) :
  forall s s' : System,
    (forall c, wakeup_ok raw0 s c) ->
    event_run s events = Some s' ->
    forall c, wakeup_ok raw0 s' c.
Proof.
  induction events as [| ev rest IH]; intros s s' Hok Hrun; cbn [event_run] in Hrun.
  - injection Hrun as <-. exact Hok.
  - destruct (event_step s ev) as [s1 |] eqn:Hstep; [| discriminate Hrun].
    exact (IH s1 s' (event_step_ok raw0 s s1 ev Hok Hstep) Hrun).
Qed.

Lemma quiescent_wakeup_ok (s0 : State) :
  quiescent s0 -> forall c, wakeup_ok (raw s0) (EndPlay_called s0) c.
Proof.
  intros (Hrun & Hparked & Hfree) c.
  unfold wakeup_ok, EndPlay_called, Exclusion.worker_holds.
  cbn [threads endplay]. rewrite Hrun, (Hparked c), (Hfree c).
  split; [reflexivity |]. split; [reflexivity |].
  split; [destruct c; reflexivity | discriminate].
Qed.

Lemma event_run_app (l1 l2 : list Event) :
  forall s s1,
    event_run s l1 = Some s1 -> event_run s (l1 ++ l2) = event_run s1 l2.
Proof.
  induction l1 as [| ev rest IH]; intros s s1 Hrun; cbn [event_run app] in *.
  - injection Hrun as <-. reflexivity.
  - destruct (event_step s ev) as [s' |]; [| discriminate Hrun].
    exact (IH s' s1 Hrun).
Qed.

Lemma event_run_steps (schedule : list Thread) :
  forall s, event_run s (map Step schedule) = shutdown_run s schedule.
Proof.
  induction schedule as [| t rest IH]; intros s; cbn [map event_run shutdown_run];
    [reflexivity |].
  cbn [event_step]. destruct (shutdown_step s t); [apply IH | reflexivity].
Qed.

Lemma worker_event (s s1 : State) (pc : EndPlayPc) (rest : list Event) :
  worker_step s ColorCh = Some s1 ->
  event_run (MkSystem s pc) (Step (Worker ColorCh) :: rest)
    = event_run (MkSystem s1 pc) rest.
Proof.
  intros Hstep. cbn [event_run event_step shutdown_step step threads endplay].
  unfold ProcessColor. rewrite Hstep. reflexivity.
Qed.

Lemma spurious_event (s s1 : State) (pc : EndPlayPc) (rest : list Event) :
  spurious_wakeup s ColorCh = Some s1 ->
  event_run (MkSystem s pc) (Spurious ColorCh :: rest)
    = event_run (MkSystem s1 pc) rest.
Proof.
  intros Hstep. cbn [event_run event_step threads endplay].
  rewrite Hstep. reflexivity.
Qed.

Lemma wakes_spuriously (s : State) :
  worker s ColorCh = W_Parked ->
  exists s1, spurious_wakeup s ColorCh = Some s1 /\
             worker s1 ColorCh = W_Reacquire /\
             mutex s1 ColorCh = mutex s ColorCh /\ Running s1 = Running s.
Proof.
  intros Hw. unfold spurious_wakeup. rewrite Hw.
  eexists. split; [reflexivity |]. repeat split.
Qed.

Lemma relocks (s : State) :
  worker s ColorCh = W_Reacquire -> mutex s ColorCh = None ->
  exists s1, worker_step s ColorCh = Some s1 /\
             worker s1 ColorCh = W_Convert /\ Running s1 = Running s.
Proof.
  intros Hw Hm. unfold worker_step, lock. rewrite Hw, Hm.
  eexists. split; [reflexivity |]. repeat split.
Qed.

Lemma converts (s : State) :
  worker s ColorCh = W_Convert ->
  exists s1, worker_step s ColorCh = Some s1 /\
             worker s1 ColorCh = W_Converting /\ Running s1 = Running s.
Proof.
  intros Hw. unfold worker_step. rewrite Hw.
  eexists. split; [reflexivity |]. repeat split.
Qed.

Lemma writes_plane (s : State) :
  worker s ColorCh = W_Converting ->
  exists s1, worker_step s ColorCh = Some s1 /\
             worker s1 ColorCh = W_Notify /\ Running s1 = Running s.
Proof.
  intros Hw. unfold worker_step. rewrite Hw.
  eexists. split; [reflexivity |]. repeat split.
Qed.

Lemma notifies (s : State) :
  worker s ColorCh = W_Notify ->
  exists s1, worker_step s ColorCh = Some s1 /\
             worker s1 ColorCh = W_Unlock /\ Running s1 = Running s.
Proof.
  intros Hw. unfold worker_step, notify_one. rewrite Hw.
  eexists. split; [reflexivity |]. repeat split.
Qed.

Lemma unlocks (s : State) :
  worker s ColorCh = W_Unlock ->
  exists s1, worker_step s ColorCh = Some s1 /\
             worker s1 ColorCh = W_Lock /\ mutex s1 ColorCh = None /\
             Running s1 = Running s.
Proof.
  intros Hw. unfold worker_step. rewrite Hw.
  eexists. split; [reflexivity |]. repeat split.
Qed.

Lemma locks_again (s : State) :
  worker s ColorCh = W_Lock -> mutex s ColorCh = None -> Running s = true ->
  exists s1, worker_step s ColorCh = Some s1 /\ worker s1 ColorCh = W_Wait.
Proof.
  intros Hw Hm Hr. unfold worker_step, lock. rewrite Hw, Hr, Hm.
  eexists. split; [reflexivity |]. reflexivity.
Qed.

Lemma early_wakeup_reaches (s0 : State) :
  quiescent s0 ->
  exists s_mid : State,
    event_run (EndPlay_called s0) early_wakeup = Some (EndPlay_called s_mid) /\
    worker s_mid ColorCh = W_Wait.
Proof.
  intros (Hrun & Hparked & Hfree).
  destruct (wakes_spuriously s0 (Hparked ColorCh)) as (s1 & E1 & W1 & M1 & R1).
  rewrite (Hfree ColorCh) in M1.
  destruct (relocks s1 W1 M1) as (s2 & E2 & W2 & R2).
  destruct (converts s2 W2) as (s3 & E3 & W3 & R3).
  destruct (writes_plane s3 W3) as (s4 & E4 & W4 & R4).
  destruct (notifies s4 W4) as (s5 & E5 & W5 & R5).
  destruct (unlocks s5 W5) as (s6 & E6 & W6 & M6 & R6).
  assert (R : Running s6 = true) by congruence.
  destruct (locks_again s6 W6 M6 R) as (s7 & E7 & W7).
  exists s7. split; [| exact W7].
  unfold early_wakeup, EndPlay_called. cbn [repeat].
  rewrite (spurious_event s0 s1 E_Stop _ E1).
  rewrite (worker_event s1 s2 E_Stop _ E2), (worker_event s2 s3 E_Stop _ E3),
    (worker_event s3 s4 E_Stop _ E4), (worker_event s4 s5 E_Stop _ E5),
    (worker_event s5 s6 E_Stop _ E6), (worker_event s6 s7 E_Stop _ E7).
  reflexivity.
Qed.

(** X16.  [EndPlay] called between two frames, with both workers parked in
    [wait].  Whenever it returns, also after spurious wake-ups, [Running] is
    false, both workers have ended, both mutexes are free and each worker has
    converted the image that was last read.  In the executions in which
    [wait] returns only when notified it returns under every schedule: either
    it has returned or some thread can move, and no schedule has more than 17
    steps.  With a spurious wake-up it can block for ever: a worker that wakes
    before [Running = false] runs its loop once, takes its lock again, and
    loses the notification of [EndPlay] when it then calls [wait]. *)
Theorem EndPlay_with_wakeups (s0 : State) :
  quiescent s0 ->
  (forall (events : list Event) (s : System),
      event_run (EndPlay_called s0) events = Some s ->
      endplay s = E_Returned ->
      Running (threads s) = false /\
      forall c, worker (threads s) c = W_Exited /\
                mutex (threads s) c = None /\
                plane (threads s) c = raw s0 c) /\
  (forall (schedule : list Thread) (s : System),
      shutdown_run (EndPlay_called s0) schedule = Some s ->
      (length schedule <= 17)%nat /\
      (endplay s = E_Returned \/ exists t s1, shutdown_step s t = Some s1)) /\
  (exists s1 : System,
      event_run (EndPlay_called s0) (early_wakeup ++ map Step (lost_wakeup ColorCh))
        = Some s1 /\
      Running (threads s1) = false /\
      forall (schedule : list Thread) (s : System),
        shutdown_run s1 schedule = Some s ->
        worker (threads s) ColorCh = W_Parked /\ endplay s <> E_Returned).
Proof.
  intros Hq. split; [| split].
  - intros events s Hrun Hret.
    pose proof (event_run_ok (raw s0) events _ _ (quiescent_wakeup_ok s0 Hq) Hrun) as Hok.
    assert (Hch : forall c, Running (threads s) = false /\
                            worker (threads s) c = W_Exited /\
                            mutex (threads s) c = None /\
                            plane (threads s) c = raw s0 c).
    { intros c. destruct (Hok c) as (_ & Hm & Hc & Hp).
      unfold Exclusion.worker_holds in Hm. rewrite Hret in Hc.
      destruct (Running (threads s)); [discriminate Hc |].
      destruct (worker (threads s) c); destruct c; cbn in Hc; try discriminate Hc;
        (split; [reflexivity | split; [reflexivity | split; [exact Hm | exact (Hp eq_refl)]]]). }
    split; [exact (proj1 (Hch ColorCh)) |].
    intros c. exact (proj2 (Hch c)).
  - intros schedule s Hrun.
    destruct (ShutdownFacts.shutdown_run_ok (raw s0) schedule _ _
                (ShutdownFacts.quiescent_ok s0 Hq) Hrun) as [Hok Hlen].
    split.
    + destruct Hq as (_ & Hparked & _).
      unfold steps_left, EndPlay_called in Hlen. cbn [threads endplay] in Hlen.
      rewrite !Hparked in Hlen. cbn [endplay_rank worker_rank] in Hlen. lia.
    + exact (ShutdownFacts.shutdown_progress (raw s0) s Hok).
  - destruct (early_wakeup_reaches s0 Hq) as (s_mid & Hearly & Hwait).
    destruct (ShutdownFacts.lost_wakeup_reaches s_mid ColorCh Hwait)
      as (s1 & Hlost & Hparked & Hjoin & Hstop).
    exists s1. split; [| split; [exact Hstop |]].
    + rewrite (event_run_app _ _ _ _ Hearly), event_run_steps. exact Hlost.
    + intros schedule s Hcont.
      assert (Hst : waits_for (endplay s1) ColorCh = true) by (rewrite Hjoin; reflexivity).
      destruct (ShutdownFacts.stuck_run schedule ColorCh s1 s Hparked Hst Hcont)
        as [Hw' Hst'].
      split; [exact Hw' |].
      intros Hret. rewrite Hret in Hst'. discriminate Hst'.
Qed.

(** From the state in which both workers have parked: the orderly shutdown
    returns. *)
Lemma EndPlay_with_wakeups_witness :
  exists s, shutdown_run (EndPlay_called parked_state) orderly_shutdown = Some s /\
            endplay s = E_Returned /\
            (length orderly_shutdown <= 17)%nat.
Proof.
  destruct (EndPlay_with_wakeups parked_state) as (_ & Hterm & _).
  - split; [reflexivity |]. split; intros [|]; reflexivity.
  - destruct (shutdown_run (EndPlay_called parked_state) orderly_shutdown)
      as [s |] eqn:Hrun.
    + exists s. split; [reflexivity |].
      destruct (Hterm orderly_shutdown s Hrun) as [Hlen _].
      split; [| exact Hlen]. vm_compute in Hrun. injection Hrun as <-. reflexivity.
    + vm_compute in Hrun. discriminate Hrun.
Defined.

End WakeupFacts.

(** ** The color image at the constructor's parameters *)

Module DefaultImageFacts.
Import ChannelSpec.

(** X18.  With the parameters the constructor sets (gamma 1, contrast 1,
    brightness 0) the color image is not copied: [ColorToBytes] stores, for
    every pixel, twice the blue, green and red channel, saturated at 255
    (binary32, for any power function with [pow(x, 1) = x]). *)
Theorem default_parameters_double
    (Pow : spec_float -> spec_float -> spec_float)
    (ImageData : list (Z * Z * Z)) (Bytes : list Z) :
  pow_unit Pow ->
  Forall is_FColor ImageData ->
  (3 * length ImageData <= length Bytes)%nat ->
  ColorToBytes_into B32 Pow (f32 1) (f32 1) (f32 0) ImageData Bytes =
    Some (flat_map (fun '(r, g, b) =>
                      [Z.min (2 * b) 255; Z.min (2 * g) 255; Z.min (2 * r) 255])
                   ImageData
          ++ drop (3 * length ImageData) Bytes).
Proof.
  intros Hpow Hpx Hfit. unfold ColorToBytes_into. cbv zeta.
  rewrite pack_loop_closed_form, length_map.
  destruct (decide _) as [_ | Hno]; [| lia].
  do 2 f_equal. clear Hfit. unfold bgr_bytes.
  induction Hpx as [| [[r g] b] rest (Hr & Hg & Hb) _ IH]; [reflexivity |].
  cbn [map flat_map app]. rewrite IH.
  rewrite !(ChannelFacts.ProcessChannel_default_parameters Pow Hpow) by assumption.
  reflexivity.
Qed.

Lemma default_parameters_double_witness :
  ColorToBytes_into B32 pow_cases (f32 1) (f32 1) (f32 0)
      [(10, 100, 200); (0, 127, 128)] [0; 0; 0; 0; 0; 0; 7] =
    Some [255; 200; 20; 255; 254; 0; 7].
Proof.
  apply (default_parameters_double pow_cases [(10, 100, 200); (0, 127, 128)]
           [0; 0; 0; 0; 0; 0; 7]).
  - exact ChannelFacts.pow_cases_unit.
  - repeat constructor; lia.
  - cbn [length]. lia.
Defined.

End DefaultImageFacts.

(** ** The palette over repeated passes *)

Section PaletteGrowthFacts.

Variable A : Arith.
Variable Color : Type.
Variable HSVToFColor : num A -> num A -> num A -> Color.
Context `{Countable Name}.

Implicit Types t : ColorTable Color (Name:=Name).

Lemma GenerateColors_at_least_50 (N : Z) (colors : list Color) :
  is_uint32 N ->
  exists generated,
    GenerateColors A Color HSVToFColor N colors = Some (colors ++ generated) /\
    (50 <= length generated)%nat.
Proof.
  intros HN.
  destruct (PaletteRepeatFacts.palette_counts_bounds N HN) as (S & V & Hc & HS & HV).
  exists (palette_of_counts A Color HSVToFColor MaxHue S V). split.
  - unfold GenerateColors. rewrite Hc. reflexivity.
  - pose proof (PaletteFacts.length_palette_of_counts A Color HSVToFColor
                  MaxHue S V ltac:(unfold MaxHue; lia) ltac:(lia) ltac:(lia)) as Hlen.
    unfold MaxHue in *. assert (50 <= 50 * S * V) by nia. lia.
Qed.

Lemma color_actors_known (actors : list Name) t :
  (forall name, name ∈ actors -> is_Some (ObjectToColor t !! name)) ->
  forall t' painted,
    color_actors Color t actors = Some (t', painted) -> t' = t.
Proof.
  induction actors as [| a rest IH]; intros Hknown t' painted Hrun;
    cbn [color_actors] in Hrun.
  - injection Hrun as <- _. reflexivity.
  - assert (Ha : color_actor Color t a = Some t).
    { unfold color_actor. destruct (Hknown a ltac:(left)) as [k ->]. reflexivity. }
    rewrite Ha in Hrun.
    destruct (ColorObject Color t a); [| discriminate Hrun].
    assert (IH' : forall t' painted,
               color_actors Color t rest = Some (t', painted) -> t' = t).
    { apply IH. intros name Hin. apply Hknown. right. exact Hin. }
    destruct (color_actors Color t rest) as [[t2 p] |]; [| discriminate Hrun].
    injection Hrun as <- _. exact (IH' t2 p eq_refl).
Qed.

Lemma ColorAllObjects_grows t (actors : list Name) t' painted :
  ColorAllObjects A Color HSVToFColor t actors = Some (t', painted) ->
  (length (ObjectColors t) + 50 <= length (ObjectColors t'))%nat /\
  ((forall name, name ∈ actors -> is_Some (ObjectToColor t !! name)) ->
   ObjectToColor t' = ObjectToColor t /\ ColorsUsed t' = ColorsUsed t).
Proof.
  unfold ColorAllObjects. cbv zeta. intros Hrun.
  destruct (GenerateColors_at_least_50
              (umul32 (wrap32 (Z.of_nat (length actors))) 2) (ObjectColors t))
    as (generated & Hgen & Hlen); [apply wrap32_range |].
  rewrite Hgen in Hrun. split.
  - rewrite (color_actors_colors Color _ _ _ _ Hrun). cbn [ObjectColors].
    rewrite length_app. lia.
  - intros Hknown.
    rewrite (color_actors_known actors
               {| ObjectColors := ObjectColors t ++ generated;
                  ObjectToColor := ObjectToColor t;
                  ColorsUsed := ColorsUsed t |} Hknown _ _ Hrun).
    split; reflexivity.
Qed.

(** X19.  [ObjectColors] grows on every pass, needed or not: after [k]
    passes of [ColorAllObjects] it holds at least [50 * k] more colors than
    before, and when every actor of every pass already had an identifier the
    passes leave [ObjectToColor] and [ColorsUsed] as they were, so none of
    the added colors is ever used. *)
Theorem palette_grows_every_pass (passes : list (list Name)) t t' :
  recolor A Color HSVToFColor t passes = Some t' ->
  (length (ObjectColors t) + 50 * length passes <= length (ObjectColors t'))%nat /\
  ((forall actors name, actors ∈ passes -> name ∈ actors ->
      is_Some (ObjectToColor t !! name)) ->
   ObjectToColor t' = ObjectToColor t /\ ColorsUsed t' = ColorsUsed t).
Proof.
  revert t. induction passes as [| actors rest IH]; intros t Hrun; cbn [recolor] in Hrun.
  - injection Hrun as <-. split; [cbn [length]; lia | split; reflexivity].
  - destruct (ColorAllObjects A Color HSVToFColor t actors) as [[t1 p] |] eqn:H1;
      [| discriminate Hrun].
    destruct (ColorAllObjects_grows _ _ _ _ H1) as [Hlen1 Hsame1].
    destruct (IH t1 Hrun) as [Hlen Hsame].
    split; [cbn [length]; lia |].
    intros Hknown.
    destruct (Hsame1 ltac:(intros name Hin; apply (Hknown actors); [left | exact Hin]))
      as [Hmap1 Hused1].
    destruct Hsame as [Hmap Hused].
    + intros actors' name Hin Hname. rewrite Hmap1.
      apply (Hknown actors'); [right; exact Hin | exact Hname].
    + split; congruence.
Qed.

End PaletteGrowthFacts.

Module PaletteGrowthExamples.
Import TableExample.

(** The second pass of the example run twice more. *)
Lemma palette_grows_every_pass_witness :
  exists t',
    recolor B32 hsv keep_hsv both_passes (repeat ["Chair"; "Lamp"; "Floor"]%string 2)
      = Some t' /\
    (length (ObjectColors both_passes) + 100 <= length (ObjectColors t'))%nat.
Proof.
  destruct (recolor B32 hsv keep_hsv both_passes
              (repeat ["Chair"; "Lamp"; "Floor"]%string 2)) as [t' |] eqn:Hrun.
  - exists t'. split; [reflexivity |].
    destruct (palette_grows_every_pass B32 hsv keep_hsv _ _ _ Hrun) as [Hlen _].
    exact Hlen.
  - vm_compute in Hrun. discriminate Hrun.
Defined.

End PaletteGrowthExamples.

(** ** The 8-bit and the linear format at gamma 1 *)

Module FormatFacts.
Import ChannelSpec.

(** X20.  At gamma 1 the linear format agrees with the 8-bit format: for
    every contrast and brightness, [LinearColorToBytes] on the pixels
    [c / 255.f] stores the bytes [ColorToBytes] stores for the 8-bit pixels
    [c] (binary32, for any power function with [pow(x, 1) = x]). *)
Theorem linear_agrees_at_unit_gamma
    (Pow : spec_float -> spec_float -> spec_float)
    (contrast brightness : spec_float)
    (ImageColor : list (Z * Z * Z)) (Bytes : list Z) :
  pow_unit Pow ->
  Forall is_FColor ImageColor ->
  LinearColorToBytes_into B32 Pow (f32 1) contrast brightness
      (map to_linear ImageColor) Bytes =
    ColorToBytes_into B32 Pow (f32 1) contrast brightness ImageColor Bytes.
Proof.
  intros Hpow Hpx.
  unfold LinearColorToBytes_into, ColorToBytes_into.
  cbv zeta. f_equal. rewrite map_map.
  induction Hpx as [| [[r g] b] rest (Hr & Hg & Hb) _ IH]; [reflexivity |].
  cbn [map to_linear]. rewrite IH.
  rewrite !(ChannelFacts.overloads_agree_at_unit_gamma Pow contrast brightness Hpow)
    by assumption.
  reflexivity.
Qed.

Lemma linear_agrees_at_unit_gamma_witness :
  LinearColorToBytes_into B32 pow_cases (f32 1) (f32 1) (f32 0)
      (map to_linear [(10, 100, 200)]) [0; 0; 0] =
    ColorToBytes_into B32 pow_cases (f32 1) (f32 1) (f32 0) [(10, 100, 200)] [0; 0; 0].
Proof.
  apply (linear_agrees_at_unit_gamma pow_cases (f32 1) (f32 0) [(10, 100, 200)] [0; 0; 0]).
  - exact ChannelFacts.pow_cases_unit.
  - repeat constructor; lia.
Defined.

End FormatFacts.

(** ** Accuracy and order of the depth conversion *)

Module DepthRangeFacts.
Import DepthUnitConverter DepthRange.

Lemma increasing_from_spec (count : nat) :
  forall h,
    increasing_from (spec_meters (h - 1)) h count = true ->
    forall k, h <= k < h + Z.of_nat count ->
      flt (a:=B32) (spec_meters (k - 1)) (spec_meters k) = true /\
      accurate k (spec_meters k) = true.
Proof.
  induction count as [| count IH]; intros h Hall k Hk; [lia |].
  cbn [increasing_from] in Hall. cbv zeta in Hall.
  apply andb_prop in Hall as [Hhere Hrest]. apply andb_prop in Hhere as [Hlt Hacc].
  destruct (Z.eq_dec k h) as [-> | Hne]; [split; assumption |].
  apply (IH (h + 1)); [| lia].
  replace (h + 1 - 1) with h by lia. exact Hrest.
Qed.

(** X21.  Every non-negative finite depth sample (binary16 codes 0 to
    0x7BFF) is converted accurately: the binary32 value [convertDepth]
    stores is the decoded sample divided by 100 with a relative error of at
    most [2^-24], it is not negative and below 656 (meters), and it is
    larger than the value stored for the code before: the conversion keeps
    the order of depths. *)
Theorem convertDepth_accuracy (h : Z) :
  0 <= h <= half_max ->
  accurate h (spec_meters h) = true /\
  (1 <= h -> flt (a:=B32) (spec_meters (h - 1)) (spec_meters h) = true).
Proof.
  intros Hh. unfold half_max in Hh.
  assert (Hall : increasing_from (spec_meters (1 - 1)) 1 (Z.to_nat half_max) = true)
    by (vm_compute; reflexivity).
  pose proof (increasing_from_spec _ 1 Hall) as Hspec.
  assert (Hzero : accurate 0 (spec_meters 0) = true) by (vm_compute; reflexivity).
  split.
  - destruct (Z.eq_dec h 0) as [-> | Hne]; [exact Hzero |].
    apply Hspec. unfold half_max. lia.
  - intros Hpos. apply Hspec. unfold half_max. lia.
Qed.

(** The code of 1.0. *)
Lemma convertDepth_accuracy_witness :
  accurate half_one (spec_meters half_one) = true.
Proof.
  destruct (convertDepth_accuracy half_one) as [Hacc _].
  - unfold half_one, half_max. lia.
  - exact Hacc.
Defined.

End DepthRangeFacts.

